(** * Logit-adjusted training loop (main.py): model and properties

    The program trains a classifier on a long-tailed dataset and corrects
    the label-frequency skew by shifting the logits with the logarithm of
    the class priors, either inside the training loss (mode [loss]) or on
    the evaluation logits only (mode [posthoc]).

    Numbers.  The program computes in IEEE floating point (float64 in
    NumPy, float32 in TensorFlow).  Here a number is an exact real or one
    of the three special values [+inf], [-inf], [NaN]; the special values
    arise exactly where the exact operation is singular ([log 0],
    [log] of a negative number, [0 ** negative], [inf - inf]).  In the
    model of the loop rounding and overflow of finite values are not
    represented, so [tf.cast] to float32 is the identity there.

    Where a property depends on rounding or overflow, the logit
    adjustment is also given as the program evaluates it (the definitions
    named [_f64] and [_f32]): every operation is followed by the rounding
    of its format, to nearest with ties to even, overflowing to an
    infinity; [**] and [log] are taken as correctly rounded. *)

From Stdlib Require Import String.
From Stdlib Require Import Reals Lra Lia List ZArith Bool.
Import ListNotations.

Set Implicit Arguments.

(** ** Exceptions and fallible computations *)

Inductive exn : Type :=
| NotFoundError          (* tf.errors.NotFoundError *)
| TypeError              (* operand None where an array is needed *)
| InvalidArgumentError   (* incompatible shapes, label out of range *)
| ZeroDivisionError
| UnboundLocalError.

Inductive result (A : Type) : Type :=
| Ok (a : A)
| Raise (e : exn).

Arguments Ok {A} a.
Arguments Raise {A} e.

Definition rbind {A B} (m : result A) (k : A -> result B) : result B :=
  match m with
  | Ok a => k a
  | Raise e => Raise e
  end.

Declare Scope result_scope.
Delimit Scope result_scope with result.
Notation "x <- m ;; k" := (rbind m (fun x => k))
  (at level 61, m at next level, right associativity) : result_scope.

Fixpoint rmap {A B} (f : A -> result B) (l : list A) : result (list B) :=
  match l with
  | [] => Ok []
  | a :: l' =>
      (b <- f a ;; bs <- rmap f l' ;; Ok (b :: bs))%result
  end.

(** ** Numbers *)

Module Num.

Inductive fp : Type :=
| Fin (r : R)
| PInf
| NInf
| NaN.

Definition is_finite (x : fp) : bool :=
  match x with Fin _ => true | _ => false end.

Definition fadd (a b : fp) : fp :=
  match a, b with
  | NaN, _ | _, NaN => NaN
  | Fin x, Fin y => Fin (x + y)
  | PInf, NInf | NInf, PInf => NaN
  | PInf, _ | _, PInf => PInf
  | NInf, _ | _, NInf => NInf
  end.

Definition fneg (a : fp) : fp :=
  match a with
  | Fin x => Fin (- x)
  | PInf => NInf
  | NInf => PInf
  | NaN => NaN
  end.

Definition fsub (a b : fp) : fp := fadd a (fneg b).

(** Multiplication by a positive finite constant (used for the mean). *)
Definition fscale (c : R) (a : fp) : fp :=
  match a with
  | Fin x => Fin (x * c)
  | other => other
  end.

Definition fexp (a : fp) : fp :=
  match a with
  | Fin x => Fin (exp x)
  | PInf => PInf
  | NInf => Fin 0
  | NaN => NaN
  end.

(** [a < b] on floats: false as soon as one side is NaN. *)
Definition fltb (a b : fp) : bool :=
  match a, b with
  | NaN, _ | _, NaN => false
  | Fin x, Fin y => if Rlt_dec x y then true else false
  | NInf, NInf => false
  | NInf, _ => true
  | _, NInf => false
  | PInf, _ => false
  | _, PInf => true
  end.

Definition fsum (l : list fp) : fp := fold_left fadd l (Fin 0).

End Num.
Import Num.

(** ** IEEE binary formats: rounding to nearest, ties to even *)

Module Float.

Definition bpow (e : Z) : R := powerRZ 2 e.

(** The exponent [e] with [2^(e-1) <= |x| < 2^e], for [x <> 0]. *)
Definition mag (x : R) : Z := (Zfloor (ln (Rabs x) / ln 2) + 1)%Z.

(** The integer nearest to [r]; half-way between two integers, the even
    one. *)
Definition nearest_even (r : R) : Z :=
  let n := Zfloor r in
  if Rlt_dec (r - IZR n) (/ 2) then n
  else if Rlt_dec (/ 2) (r - IZR n) then (n + 1)%Z
  else if Z.even n then n else (n + 1)%Z.

Definition is_nearest_even (r : R) (z : Z) : Prop :=
  (Rabs (r - IZR z) < / 2)%R \/
  (Rabs (r - IZR z) = (/ 2)%R /\ Z.even z = true).

(** A format: [prec] bits of significand, numbers that are multiples of
    [2^emin], of magnitude below [2^emax]. *)
Record format : Type := { prec : Z; emin : Z; emax : Z }.

Definition binary32 : format := {| prec := 24; emin := -149; emax := 128 |}.

Definition binary64 : format :=
  {| prec := 53; emin := -1074; emax := 1024 |}.

(** The exponent of the grid on which [x] is rounded. *)
Definition cexp (fmt : format) (x : R) : Z :=
  Z.max (mag x - prec fmt) (emin fmt).

(** The point of the grid nearest to [x]. *)
Definition round_val (fmt : format) (x : R) : R :=
  IZR (nearest_even (x * bpow (- cexp fmt x))) * bpow (cexp fmt x).

(** Rounding of a real number: an infinity when the nearest point of the
    grid is not below [2^emax] in magnitude. *)
Definition round (fmt : format) (x : R) : fp :=
  let y := round_val fmt x in
  if Rle_dec (bpow (emax fmt)) y then PInf
  else if Rle_dec y (- bpow (emax fmt)) then NInf
  else Fin y.

Definition round_fp (fmt : format) (a : fp) : fp :=
  match a with
  | Fin x => round fmt x
  | other => other
  end.

End Float.

(** ** The library operations the program calls *)

(** [x ** y] of NumPy on a finite base and exponent (C's [pow]). *)
Definition np_power (x y : R) : fp :=
  if Req_dec_T y 0 then Fin 1
  else if Rlt_dec 0 x then Fin (Rpower x y)
  else if Req_dec_T x 0 then (if Rlt_dec 0 y then Fin 0 else PInf)
  else if Req_dec_T (IZR (Int_part y)) y then Fin (powerRZ x (Int_part y))
  else NaN.

(** [tf.math.log]. *)
Definition tf_math_log (a : fp) : fp :=
  match a with
  | Fin x =>
      if Rlt_dec 0 x then Fin (ln x)
      else if Req_dec_T x 0 then NInf
      else NaN
  | PInf => PInf
  | NInf => NaN
  | NaN => NaN
  end.

(** [tf.cast(_, dtype=tf.float32)]: the identity on exact values. *)
Definition tf_cast (a : fp) : fp := a.

(** A batch of logits: one row per example, one column per class. *)
Definition logits_t : Type := list (list fp).
Definition labels_t : Type := list Z.

(** Broadcasting of an elementwise operation over a row of length C and
    a vector of length K: the lengths agree, or one of them is 1. *)
Definition broadcast_row (op : fp -> fp -> fp) (row v : list fp)
  : result (list fp) :=
  if Nat.eqb (length row) (length v) then
    Ok (map (fun xy => op (fst xy) (snd xy)) (combine row v))
  else
    match v, row with
    | [c], _ => Ok (map (fun x => op x c) row)
    | _, [x] => Ok (map (fun c => op x c) v)
    | _, _ => Raise InvalidArgumentError
    end.

Definition broadcast (op : fp -> fp -> fp) (l : logits_t) (v : list fp)
  : result logits_t :=
  rmap (fun row => broadcast_row op row v) l.

(** [tf.nn.sparse_softmax_cross_entropy_with_logits]: for each example
    the negative log-probability of its label under the softmax of its
    row, that is [log (sum_j exp row_j) - row_label].  A label outside
    [0, C) and a number of labels other than the number of rows raise. *)
Definition cross_entropy_row (label : Z) (row : list fp) : result fp :=
  if (0 <=? label)%Z && (label <? Z.of_nat (length row))%Z then
    Ok (fsub (tf_math_log (fsum (map fexp row)))
             (nth (Z.to_nat label) row NaN))
  else Raise InvalidArgumentError.

Definition sparse_softmax_cross_entropy_with_logits
    (labels : labels_t) (logits : logits_t) : result (list fp) :=
  if Nat.eqb (length labels) (length logits) then
    rmap (fun yl => cross_entropy_row (fst yl) (snd yl))
         (combine labels logits)
  else Raise InvalidArgumentError.

(** [tf.reduce_mean(_, axis=0)] of a vector; the mean of no element is
    0/0. *)
Definition reduce_mean (l : list fp) : fp :=
  match l with
  | [] => NaN
  | _ => fscale (/ INR (length l)) (fsum l)
  end.

(** ** The logit adjustment (main.py lines 110-111 and 147-148) *)

Definition eps : R := 1e-12.

(** [tf.math.log(tf.cast(base_probs**tau + 1e-12, dtype=tf.float32))] *)
Definition log_prior (base_probs : list R) (tau : R) : list fp :=
  map (fun p => tf_math_log (tf_cast (fadd (np_power p tau) (Fin eps))))
      base_probs.

(** The same expression when [base_probs] may be [None]: [None ** tau]
    raises a type error. *)
Definition log_prior_of (base_probs : option (list R)) (tau : R)
  : result (list fp) :=
  match base_probs with
  | Some p => Ok (log_prior p tau)
  | None => Raise TypeError
  end.

(** Line 147: [logits + tf.math.log(...)], inside the loss. *)
Definition loss_adjust (logits : logits_t) (base_probs : option (list R))
    (tau : R) : result logits_t :=
  (s <- log_prior_of base_probs tau ;; broadcast fadd logits s)%result.

(** Line 110: [logits - tf.math.log(...)], on the evaluation logits. *)
Definition posthoc_adjust (logits : logits_t) (base_probs : option (list R))
    (tau : R) : result logits_t :=
  (s <- log_prior_of base_probs tau ;; broadcast fsub logits s)%result.

(** *** The adjustment as evaluated in floating point

    [base_probs] is a float64 array and [tau] a Python float:
    [base_probs**tau + 1e-12] is computed in float64, cast to float32, and
    the logarithm and the addition to (subtraction from) the float32
    logits are computed in float32. *)

Definition np_power_f64 (x y : R) : fp :=
  Float.round_fp Float.binary64 (np_power x y).

(** The literal [1e-12]. *)
Definition eps_f64 : fp := Float.round Float.binary64 eps.

Definition np_add_f64 (a b : fp) : fp :=
  Float.round_fp Float.binary64 (fadd a b).

Definition tf_cast_f32 (a : fp) : fp := Float.round_fp Float.binary32 a.

Definition tf_math_log_f32 (a : fp) : fp :=
  Float.round_fp Float.binary32 (tf_math_log a).

Definition tf_add_f32 (a b : fp) : fp :=
  Float.round_fp Float.binary32 (fadd a b).

Definition tf_subtract_f32 (a b : fp) : fp :=
  Float.round_fp Float.binary32 (fsub a b).

(** One entry of
    [tf.math.log(tf.cast(base_probs**tau + 1e-12, dtype=tf.float32))]. *)
Definition log_prior_entry_f32 (p tau : R) : fp :=
  tf_math_log_f32 (tf_cast_f32 (np_add_f64 (np_power_f64 p tau) eps_f64)).

Definition log_prior_f32 (base_probs : list R) (tau : R) : list fp :=
  map (fun p => log_prior_entry_f32 p tau) base_probs.

Definition log_prior_of_f32 (base_probs : option (list R)) (tau : R)
  : result (list fp) :=
  match base_probs with
  | Some p => Ok (log_prior_f32 p tau)
  | None => Raise TypeError
  end.

(** Line 147, in floating point. *)
Definition loss_adjust_f32 (logits : logits_t)
    (base_probs : option (list R)) (tau : R) : result logits_t :=
  (s <- log_prior_of_f32 base_probs tau ;;
   broadcast tf_add_f32 logits s)%result.

(** Line 110, in floating point. *)
Definition posthoc_adjust_f32 (logits : logits_t)
    (base_probs : option (list R)) (tau : R) : result logits_t :=
  (s <- log_prior_of_f32 base_probs tau ;;
   broadcast tf_subtract_f32 logits s)%result.

(** ** build_loss_fn (lines 134-153) *)

Definition loss_fn_t : Type := labels_t -> logits_t -> result fp.

(** The closure [loss_fn] with its captured variables. *)
Definition loss_fn (use_la_loss : bool) (base_probs : option (list R))
    (tau : R) : loss_fn_t :=
  fun labels logits =>
    (logits' <- (if use_la_loss then loss_adjust logits base_probs tau
                 else Ok logits) ;;
     loss <- sparse_softmax_cross_entropy_with_logits labels logits' ;;
     Ok (reduce_mean loss))%result.

(** [build_loss_fn] defines the closure and returns it; it evaluates
    nothing else. *)
Definition build_loss_fn (use_la_loss : bool) (base_probs : option (list R))
    (tau : R) : result loss_fn_t :=
  Ok (loss_fn use_la_loss base_probs tau).

(** ** tf.keras.metrics.SparseCategoricalAccuracy *)

(** The two variables of the metric: the number of matches seen and the
    number of examples seen. *)
Record metric : Type := { total : Z; count : Z }.

(** A metric as constructed, and as left by [reset_states]. *)
Definition metric0 : metric := {| total := 0; count := 0 |}.

Definition reset_states (m : metric) : metric := metric0.

(** Index of the first largest entry of [x :: l], [x] standing at index
    [best_i] and [l] starting at index [i]. *)
Fixpoint argmax_from (best_i : nat) (best : fp) (i : nat) (l : list fp)
  : nat :=
  match l with
  | [] => best_i
  | x :: l' =>
      if fltb best x then argmax_from i x (S i) l'
      else argmax_from best_i best (S i) l'
  end.

Definition argmax (row : list fp) : result Z :=
  match row with
  | [] => Raise InvalidArgumentError
  | x :: l => Ok (Z.of_nat (argmax_from 0 x 1 l))
  end.

Fixpoint matches (labels : labels_t) (preds : list Z) : Z :=
  match labels, preds with
  | y :: labels', p :: preds' =>
      ((if Z.eqb y p then 1 else 0) + matches labels' preds')%Z
  | _, _ => 0%Z
  end.

(** [update_state(labels, logits)]: the prediction of an example is the
    argmax of its row; a row with no class and a number of labels other
    than the number of rows raise. *)
Definition update_state (m : metric) (labels : labels_t) (logits : logits_t)
  : result metric :=
  if Nat.eqb (length labels) (length logits) then
    (preds <- rmap argmax logits ;;
     Ok {| total := total m + matches labels preds;
           count := count m + Z.of_nat (length labels) |})%result
  else Raise InvalidArgumentError.

(** [result()]: matches over examples, 0 when nothing was seen. *)
Definition metric_result (m : metric) : fp :=
  Fin (if Z.eqb (count m) 0 then 0 else IZR (total m) / IZR (count m)).

(** The metric after the updates of a sequence of batches, each given by
    its labels and its logits. *)
Fixpoint accumulate (m : metric) (batches : list (labels_t * logits_t))
  : result metric :=
  match batches with
  | [] => Ok m
  | b :: rest =>
      (m' <- update_state m (fst b) (snd b) ;; accumulate m' rest)%result
  end.

(** ** Run configuration (class FLAGS) *)

Record flags : Type := {
  dataset : string;
  data_home : string;
  train_batch_size : Z;
  test_batch_size : Z;
  mode : string;
  tau : R;
  tb_log_dir : string
}.

Definition FLAGS : flags := {|
  dataset := "cifar10-lt";
  data_home := "data";
  train_batch_size := 128;
  test_batch_size := 100;
  mode := "loss";
  tau := 1;
  tb_log_dir := "log"
|}.

Definition with_mode (f : flags) (m : string) : flags := {|
  dataset := dataset f;
  data_home := data_home f;
  train_batch_size := train_batch_size f;
  test_batch_size := test_batch_size f;
  mode := m;
  tau := tau f;
  tb_log_dir := tb_log_dir f
|}.

Definition ends_with_slash (s : string) : bool :=
  match String.length s with
  | O => false
  | S n => String.eqb (substring n 1 s) "/"
  end.

(** [os.path.join] of two components (POSIX). *)
Definition os_path_join (a b : string) : string :=
  if prefix "/" b then b
  else if String.eqb a "" || ends_with_slash a then a ++ b
  else a ++ "/" ++ b.

Definition base_probs_path (f : flags) : string :=
  os_path_join (data_home f) (dataset f ++ "_base_probs.txt").

(** [FLAGS.mode == 'loss'] (line 46). *)
Definition use_la_loss (f : flags) : bool := String.eqb (mode f) "loss".

(** [posthoc_adjusting] (line 51). *)
Definition posthoc_adjusting (f : flags) : bool :=
  String.eqb (mode f) "posthoc".

(** [FLAGS.mode in ['posthoc', 'loss']] (line 40). *)
Definition mode_needs_base_probs (f : flags) : bool :=
  String.eqb (mode f) "posthoc" || String.eqb (mode f) "loss".

(** The catalogue entry of a dataset, as far as [main] reads it. *)
Record dataset_info : Type := {
  num_train : Z;
  num_classes : Z;
  num_epochs : Z
}.

(** ** What the program prints and writes *)

Inductive event : Type :=
| Print_batch_loss (step : nat) (loss_value : fp)
| Print_train_acc (acc : fp)
| Print_test_acc (acc : fp)
| Print_adj_acc (acc : fp)
| Scalar (writer name : string) (value : fp) (step : Z).

(** ** The training and evaluation loop (main, lines 20-131) *)

Section Loop.

(** The collaborators of [main], which live outside main.py. *)
Variable X : Type.                       (* a batch of inputs *)
Variable W : Type.                       (* model weights and optimizer slots *)

(** [model(x, training=b)] under weights [w]. *)
Variable model : W -> X -> bool -> logits_t.
(** [tf.reduce_sum(model.losses)] under weights [w]. *)
Variable model_losses : W -> fp.
(** [tape.gradient] followed by [optimizer.apply_gradients]: one update
    of the weights along the gradient of the recorded loss. *)
Variable apply_gradients : (W -> result fp) -> W -> W.
(** [utils.dataset_mappings()[name]], the catalogue holding every name
    asked for. *)
Variable dataset_mappings : string -> dataset_info.
(** The batches that iterating [train_dataset] yields in a given epoch
    (the training set is reshuffled at every iteration). *)
Variable train_dataset : nat -> list (X * labels_t).
Variable test_dataset : list (X * labels_t).
(** Opening a path with [tf.io.gfile.GFile] and parsing it with
    [np.loadtxt]. *)
Variable gfile_loadtxt : string -> result (list R).

(** The mutable objects of a run and what it has written so far. *)
Record world : Type := {
  weights : W;
  updates : nat;                         (* calls of apply_gradients *)
  train_acc_metric : metric;
  test_acc_metric : metric;
  test_adj_acc_metric : option metric;   (* bound in posthoc mode only *)
  output : list event
}.

Definition boot (w0 : W) : world := {|
  weights := w0;
  updates := 0;
  train_acc_metric := metric0;
  test_acc_metric := metric0;
  test_adj_acc_metric := None;
  output := []
|}.

Definition set_weights (w : W) (s : world) : world := {|
  weights := w;
  updates := S (updates s);
  train_acc_metric := train_acc_metric s;
  test_acc_metric := test_acc_metric s;
  test_adj_acc_metric := test_adj_acc_metric s;
  output := output s
|}.

Definition set_train_acc_metric (m : metric) (s : world) : world := {|
  weights := weights s;
  updates := updates s;
  train_acc_metric := m;
  test_acc_metric := test_acc_metric s;
  test_adj_acc_metric := test_adj_acc_metric s;
  output := output s
|}.

Definition set_test_acc_metric (m : metric) (s : world) : world := {|
  weights := weights s;
  updates := updates s;
  train_acc_metric := train_acc_metric s;
  test_acc_metric := m;
  test_adj_acc_metric := test_adj_acc_metric s;
  output := output s
|}.

Definition set_test_adj_acc_metric (m : option metric) (s : world)
  : world := {|
  weights := weights s;
  updates := updates s;
  train_acc_metric := train_acc_metric s;
  test_acc_metric := test_acc_metric s;
  test_adj_acc_metric := m;
  output := output s
|}.

Definition write (evs : list event) (s : world) : world := {|
  weights := weights s;
  updates := updates s;
  train_acc_metric := train_acc_metric s;
  test_acc_metric := test_acc_metric s;
  test_adj_acc_metric := test_adj_acc_metric s;
  output := output s ++ evs
|}.

(** Statements: a world transformer that may raise; the world reached
    when the exception is raised is kept. *)
Definition M (A : Type) : Type := world -> world * result A.

Definition ret {A} (a : A) : M A := fun s => (s, Ok a).

Definition bind {A B} (m : M A) (k : A -> M B) : M B :=
  fun s =>
    match m s with
    | (s', Ok a) => k a s'
    | (s', Raise e) => (s', Raise e)
    end.

Definition lift {A} (r : result A) : M A := fun s => (s, r).

Definition gets {A} (f : world -> A) : M A := fun s => (s, Ok (f s)).

Definition modify (f : world -> world) : M unit := fun s => (f s, Ok tt).

Declare Scope stmt_scope.
Delimit Scope stmt_scope with stmt.
Notation "x <- m ;; k" := (bind m (fun x => k))
  (at level 61, m at next level, right associativity) : stmt_scope.
Notation "m ;;; k" := (bind m (fun _ => k))
  (at level 61, right associativity) : stmt_scope.

Fixpoint for_each {A} (body : A -> M unit) (l : list A) : M unit :=
  match l with
  | [] => ret tt
  | a :: l' => (body a ;;; for_each body l')%stmt
  end.

(** [enumerate]. *)
Definition enumerate {A} (l : list A) : list (nat * A) :=
  combine (seq 0 (length l)) l.

(** Line 24: [int(dataset.num_train / FLAGS.train_batch_size)]. *)
Definition batches_per_epoch (ds : dataset_info) (f : flags) : result Z :=
  if Z.eqb (train_batch_size f) 0 then Raise ZeroDivisionError
  else Ok (Z.quot (num_train ds) (train_batch_size f)).

(** Lines 33-43: reading the base probabilities. *)
Definition load_base_probs (f : flags) : result (option (list R)) :=
  match gfile_loadtxt (base_probs_path f) with
  | Ok v => Ok (Some v)
  | Raise NotFoundError =>
      if mode_needs_base_probs f then Raise NotFoundError else Ok None
  | Raise e => Raise e
  end.

(** Lines 49-53: the metrics. *)
Definition create_metrics (f : flags) (s : world) : world :=
  set_test_adj_acc_metric
    (if posthoc_adjusting f then Some metric0 else None)
    (set_test_acc_metric metric0 (set_train_acc_metric metric0 s)).

(** The loss the tape records, as a function of the weights. *)
Definition objective (lf : loss_fn_t) (x : X) (y : labels_t) (w : W)
  : result fp :=
  (l <- lf y (model w x true) ;; Ok (fadd l (model_losses w)))%result.

(** Lines 77-93: one training batch. *)
Definition train_step (lf : loss_fn_t) (bpe : Z) (epoch : nat)
    (b : nat * (X * labels_t)) : M unit :=
  let step := fst b in
  let x := fst (snd b) in
  let y := snd (snd b) in
  (w <- gets weights ;;
   let logits := model w x true in
   l <- lift (lf y logits) ;;
   let loss_value := fadd l (model_losses w) in
   modify (set_weights (apply_gradients (objective lf x y) w)) ;;;
   m <- gets train_acc_metric ;;
   m' <- lift (update_state m y logits) ;;
   modify (set_train_acc_metric m') ;;;
   if Nat.eqb (step mod 1000) 0 then
     modify (write [Print_batch_loss step loss_value;
                    Scalar "train" "batch loss" loss_value
                      (Z.of_nat epoch * bpe + Z.of_nat step)])
   else ret tt)%stmt.

(** Lines 96-101: the training accuracy of the epoch. *)
Definition report_train (bpe : Z) (epoch : nat) : M unit :=
  (m <- gets train_acc_metric ;;
   let train_acc := metric_result m in
   modify (set_train_acc_metric (reset_states m)) ;;;
   modify (write [Print_train_acc train_acc;
                  Scalar "train" "accuracy" train_acc
                    ((Z.of_nat epoch + 1) * bpe)]))%stmt.

(** Lines 104-112: one evaluation batch. *)
Definition test_step (f : flags) (base_probs : option (list R))
    (b : X * labels_t) : M unit :=
  let x := fst b in
  let y := snd b in
  (w <- gets weights ;;
   let logits := model w x false in
   m <- gets test_acc_metric ;;
   m' <- lift (update_state m y logits) ;;
   modify (set_test_acc_metric m') ;;;
   if posthoc_adjusting f then
     adjusted_logits <- lift (posthoc_adjust logits base_probs (tau f)) ;;
     om <- gets test_adj_acc_metric ;;
     match om with
     | Some ma =>
         ma' <- lift (update_state ma y adjusted_logits) ;;
         modify (set_test_adj_acc_metric (Some ma'))
     | None => lift (Raise UnboundLocalError)
     end
   else ret tt)%stmt.

(** Lines 115-131: the evaluation accuracies of the epoch. *)
Definition report_test (f : flags) (bpe : Z) (epoch : nat) : M unit :=
  (m <- gets test_acc_metric ;;
   let test_acc := metric_result m in
   modify (set_test_acc_metric (reset_states m)) ;;;
   modify (write [Print_test_acc test_acc;
                  Scalar "test" "accuracy" test_acc
                    ((Z.of_nat epoch + 1) * bpe)]) ;;;
   if posthoc_adjusting f then
     om <- gets test_adj_acc_metric ;;
     match om with
     | Some ma =>
         let test_adj_acc := metric_result ma in
         modify (set_test_adj_acc_metric (Some (reset_states ma))) ;;;
         modify (write [Print_adj_acc test_adj_acc;
                        Scalar "test" "logit-adjusted accuracy" test_adj_acc
                          ((Z.of_nat epoch + 1) * bpe)])
     | None => lift (Raise UnboundLocalError)
     end
   else ret tt)%stmt.

(** Lines 74-131: the body of the loop over the epochs. *)
Definition run_epoch (f : flags) (lf : loss_fn_t)
    (base_probs : option (list R)) (bpe : Z) (epoch : nat) : M unit :=
  (for_each (train_step lf bpe epoch) (enumerate (train_dataset epoch)) ;;;
   report_train bpe epoch ;;;
   for_each (test_step f base_probs) test_dataset ;;;
   report_test f bpe epoch)%stmt.

Definition main (f : flags) : M unit :=
  let ds := dataset_mappings (dataset f) in
  (bpe <- lift (batches_per_epoch ds f) ;;
   base_probs <- lift (load_base_probs f) ;;
   lf <- lift (build_loss_fn (use_la_loss f) base_probs (tau f)) ;;
   modify (create_metrics f) ;;;
   for_each (run_epoch f lf base_probs bpe)
            (seq 0 (Z.to_nat (num_epochs ds))))%stmt.

(** *** Assertions on statements *)

(** [triple P m Q E]: from a world satisfying [P], the statement [m]
    either returns in a world satisfying [Q] or raises in a world
    satisfying [E]. *)
Definition triple {A} (P : world -> Prop) (m : M A)
    (Q : A -> world -> Prop) (E : world -> Prop) : Prop :=
  forall s, P s ->
    match m s with
    | (s', Ok a) => Q a s'
    | (s', Raise _) => E s'
    end.

(** All accumulators hold what they hold when constructed. *)
Definition fresh_metrics (f : flags) (s : world) : Prop :=
  train_acc_metric s = metric0 /\
  test_acc_metric s = metric0 /\
  test_adj_acc_metric s =
    (if posthoc_adjusting f then Some metric0 else None).

(** The number of examples in a sequence of batches. *)
Definition examples (batches : list (X * labels_t)) : Z :=
  fold_right (fun b n => (Z.of_nat (length (snd b)) + n)%Z) 0%Z batches.

End Loop.

(** ** Reference definitions used in the statements *)

(** Plain sparse categorical cross-entropy, averaged over the batch. *)
Definition plain_loss (labels : labels_t) (logits : logits_t) : result fp :=
  (loss <- sparse_softmax_cross_entropy_with_logits labels logits ;;
   Ok (reduce_mean loss))%result.

(** [L op s] with the vector [s] repeated along the batch dimension. *)
Definition shift_rows (op : fp -> fp -> fp) (logits : logits_t)
    (s : list fp) : logits_t :=
  map (fun row => map (fun xs => op (fst xs) (snd xs)) (combine row s))
      logits.

Definition finite_vec (v : list fp) : Prop :=
  Forall (fun x => is_finite x = true) v.

(** The map [g] merges no two entries of [row] that differ. *)
Definition keeps_apart (g : fp -> fp) (row : list fp) : Prop :=
  forall a b, In a row -> In b row ->
    fltb a b = true -> fltb (g a) (g b) = true.

(** A batch of [C] columns. *)
Definition has_classes (C : nat) (logits : logits_t) : Prop :=
  Forall (fun row => length row = C) logits.

Definition adj_scalar (v : fp) (step : Z) : event :=
  Scalar "test" "logit-adjusted accuracy" v step.

Definition acc_scalar (v : fp) (step : Z) : event :=
  Scalar "test" "accuracy" v step.

(** An event of the logit-adjusted accuracy stream. *)
Definition is_adj_event (e : event) : bool :=
  match e with
  | Print_adj_acc _ => true
  | Scalar _ name _ _ => String.eqb name "logit-adjusted accuracy"
  | _ => false
  end.

(** An event of the periodic report of the batch loss. *)
Definition is_batch_loss_event (e : event) : bool :=
  match e with
  | Print_batch_loss _ _ => true
  | Scalar _ name _ _ => String.eqb name "batch loss"
  | _ => false
  end.

(** What an epoch writes once its batches are done: the accuracy read
    from each accumulator, at the step that closes the epoch. *)
Definition epoch_report (f : flags) (bpe : Z) (epoch : nat)
    (m_train m_test m_adj : metric) : list event :=
  let step := ((Z.of_nat epoch + 1) * bpe)%Z in
  [Print_train_acc (metric_result m_train);
   Scalar "train" "accuracy" (metric_result m_train) step;
   Print_test_acc (metric_result m_test);
   Scalar "test" "accuracy" (metric_result m_test) step]
  ++ (if posthoc_adjusting f
      then [Print_adj_acc (metric_result m_adj);
            Scalar "test" "logit-adjusted accuracy" (metric_result m_adj)
                   step]
      else []).

(** Every logit-adjusted accuracy written is also written, at the same
    step, as the plain test accuracy. *)
Definition adj_equals_raw (out : list event) : Prop :=
  forall v step, In (adj_scalar v step) out -> In (acc_scalar v step) out.

(** An accumulator whose matches do not exceed its examples. *)
Definition proper_metric (m : metric) : Prop :=
  (0 <= total m <= count m)%Z.

(** A number between 0 and 1. *)
Definition unit_interval (v : fp) : Prop :=
  exists r : R, v = Fin r /\ (0 <= r <= 1)%R.

(** Every event but a batch-loss report carries a number between 0 and
    1. *)
Definition accuracy_in_range (e : event) : Prop :=
  match e with
  | Print_batch_loss _ _ => True
  | Print_train_acc v | Print_test_acc v | Print_adj_acc v =>
      unit_interval v
  | Scalar _ name v _ =>
      if String.eqb name "batch loss" then True else unit_interval v
  end.

(** The steps at which a writer has written a scalar under a name, in
    the order of writing. *)
Definition scalar_steps (writer name : string) (out : list event)
  : list Z :=
  flat_map (fun e =>
              match e with
              | Scalar w n _ step =>
                  if String.eqb w writer && String.eqb n name
                  then [step] else []
              | _ => []
              end) out.

(** The number of training batches of a sequence of epochs. *)
Definition batches_in {X : Type} (train : nat -> list (X * labels_t))
    (epochs : list nat) : nat :=
  fold_right (fun epoch n => (length (train epoch) + n)%nat) 0%nat epochs.

(** The weights after a sequence of training batches, each taking one
    optimizer step on the loss [lf] of the batch. *)
Definition trained_on {X W : Type} (model : W -> X -> bool -> logits_t)
    (model_losses : W -> fp)
    (apply_gradients : (W -> result fp) -> W -> W)
    (lf : loss_fn_t) (batches : list (X * labels_t)) (w : W) : W :=
  fold_left
    (fun w b =>
       apply_gradients (objective model model_losses lf (fst b) (snd b)) w)
    batches w.

(** The logits the training batches are scored on: each batch is passed
    forward under the weights left by the batches before it. *)
Fixpoint forward_passes {X W : Type} (model : W -> X -> bool -> logits_t)
    (model_losses : W -> fp)
    (apply_gradients : (W -> result fp) -> W -> W)
    (lf : loss_fn_t) (batches : list (X * labels_t)) (w : W)
  : list logits_t :=
  match batches with
  | [] => []
  | b :: rest =>
      model w (fst b) true
      :: forward_passes model model_losses apply_gradients lf rest
           (apply_gradients
              (objective model model_losses lf (fst b) (snd b)) w)
  end.

(** The weights after a sequence of epochs of training. *)
Definition trained_epochs {X W : Type} (model : W -> X -> bool -> logits_t)
    (model_losses : W -> fp)
    (apply_gradients : (W -> result fp) -> W -> W)
    (train : nat -> list (X * labels_t))
    (lf : loss_fn_t) (epochs : list nat) (w : W) : W :=
  fold_left
    (fun w epoch =>
       trained_on model model_losses apply_gradients lf (train epoch) w)
    epochs w.

(** The loss that a mode trains with: the plain loss of the adjusted
    logits in mode [loss], the plain loss of the raw logits otherwise. *)
Definition mode_loss (f : flags) (base_probs : option (list R))
  : loss_fn_t :=
  if String.eqb (mode f) "loss"
  then fun labels logits =>
         (l' <- loss_adjust logits base_probs (tau f) ;;
          plain_loss labels l')%result
  else plain_loss.

(** The output without the events of the logit-adjusted stream. *)
Definition without_adj (out : list event) : list event :=
  filter (fun e => negb (is_adj_event e)) out.

(** ** A small concrete run: one batch of one example, four classes *)

Module Demo.

Definition model (w : nat) (x : unit) (training : bool) : logits_t :=
  [[Fin 0; Fin 2; Fin 1; Fin 0]].

Definition model_losses (w : nat) : fp := Fin 0.

Definition apply_gradients (obj : nat -> result fp) (w : nat) : nat := S w.

Definition dataset_mappings (name : string) : dataset_info :=
  {| num_train := 256; num_classes := 4; num_epochs := 2 |}.

Definition train_dataset (epoch : nat) : list (unit * labels_t) :=
  [(tt, [1%Z])].

Definition test_dataset : list (unit * labels_t) := [(tt, [2%Z])].

Definition uniform : list R := [/ 4; / 4; / 4; / 4]%R.

Definition file_present (path : string) : result (list R) := Ok uniform.

Definition file_missing (path : string) : result (list R) :=
  Raise NotFoundError.

Definition skewed : list R := [/ 10; / 2; / 5; / 5]%R.

Definition file_skewed (path : string) : result (list R) := Ok skewed.

Definition file_unreadable (path : string) : result (list R) :=
  Raise InvalidArgumentError.

Definition posthoc_tau0 : flags := {|
  dataset := "cifar10-lt";
  data_home := "data";
  train_batch_size := 128;
  test_batch_size := 100;
  mode := "posthoc";
  tau := 0;
  tb_log_dir := "log"
|}.

Definition no_batch : flags := {|
  dataset := "cifar10-lt";
  data_home := "data";
  train_batch_size := 0;
  test_batch_size := 100;
  mode := "baseline";
  tau := 1;
  tb_log_dir := "log"
|}.

(** [main] with these collaborators, from the initial world. *)
Abbreviation main file f :=
  (main model model_losses apply_gradients dataset_mappings train_dataset
        test_dataset file f (boot 0%nat)).

End Demo.

(** * Properties *)

Unset Implicit Arguments.
Open Scope R_scope.

(** ** Rounding *)

Module FloatFacts.
Import Float.

Lemma Rabs_le_inv (x a : R) : Rabs x <= a -> - a <= x <= a.
Proof. unfold Rabs. destruct (Rcase_abs x); lra. Qed.

Lemma bpow_pos (e : Z) : 0 < bpow e.
Proof. apply powerRZ_lt. lra. Qed.

Lemma bpow_add (a b : Z) : bpow (a + b) = bpow a * bpow b.
Proof. apply powerRZ_add. lra. Qed.

Lemma bpow_0 : bpow 0 = 1.
Proof. reflexivity. Qed.

Lemma bpow_opp (a : Z) : bpow (- a) = / bpow a.
Proof. apply powerRZ_neg'. Qed.

Lemma bpow_cancel (a : Z) : bpow a * bpow (- a) = 1.
Proof. rewrite <- bpow_add, Z.add_opp_diag_r. reflexivity. Qed.

Lemma bpow_exp (e : Z) : bpow e = exp (IZR e * ln 2).
Proof. unfold bpow. rewrite powerRZ_Rpower by lra. reflexivity. Qed.

Lemma ln2_pos : 0 < ln 2.
Proof. pose proof ln_lt_2. lra. Qed.

Lemma bpow_lt (a b : Z) : (a < b)%Z -> bpow a < bpow b.
Proof.
  intros H. rewrite !bpow_exp. apply exp_increasing.
  apply Rmult_lt_compat_r; [apply ln2_pos | apply IZR_lt; exact H].
Qed.

Lemma bpow_le (a b : Z) : (a <= b)%Z -> bpow a <= bpow b.
Proof.
  intros H. destruct (Z.eq_dec a b) as [-> | N]; [lra |].
  left. apply bpow_lt. lia.
Qed.

Lemma bpow_lt_inv (a b : Z) : bpow a < bpow b -> (a < b)%Z.
Proof.
  intros H. destruct (Z_lt_le_dec a b) as [L | G]; [exact L |].
  pose proof (bpow_le b a G). lra.
Qed.

Lemma bpow_IZR (k : Z) : (0 <= k)%Z -> bpow k = IZR (2 ^ k).
Proof.
  intros H. unfold bpow. rewrite <- (Z2Nat.id k H) at 2.
  rewrite <- pow_IZR. rewrite <- (Z2Nat.id k H) at 1.
  symmetry. apply pow_powerRZ.
Qed.

(** *** The magnitude *)

Lemma mag_unique (x : R) (e : Z) :
  bpow (e - 1) <= Rabs x < bpow e -> mag x = e.
Proof.
  intros [Hl Hu]. unfold mag.
  assert (Hx : 0 < Rabs x) by (pose proof (bpow_pos (e - 1)); lra).
  pose proof ln2_pos as H2.
  assert (H1 : IZR (e - 1) * ln 2 <= ln (Rabs x)).
  { rewrite bpow_exp in Hl. destruct Hl as [Hl | Hl].
    - left. rewrite <- (ln_exp (IZR (e - 1) * ln 2)).
      apply ln_increasing; [apply exp_pos | exact Hl].
    - right. rewrite <- Hl. symmetry. apply ln_exp. }
  assert (H3 : ln (Rabs x) < IZR e * ln 2).
  { rewrite bpow_exp in Hu. rewrite <- (ln_exp (IZR e * ln 2)).
    apply ln_increasing; assumption. }
  rewrite (Zfloor_eq (e - 1)); [lia |].
  rewrite minus_IZR in *. split.
  - apply Rmult_le_reg_r with (ln 2); [exact H2 |].
    unfold Rdiv. rewrite Rmult_assoc, Rinv_l by lra. lra.
  - apply Rmult_lt_reg_r with (ln 2); [exact H2 |].
    unfold Rdiv. rewrite Rmult_assoc, Rinv_l by lra. lra.
Qed.

Lemma mag_spec (x : R) :
  x <> 0 -> bpow (mag x - 1) <= Rabs x < bpow (mag x).
Proof.
  intros Hx. unfold mag.
  assert (Hp : 0 < Rabs x) by (apply Rabs_pos_lt; exact Hx).
  pose proof ln2_pos as H2.
  pose proof (Zfloor_bound (ln (Rabs x) / ln 2)) as [Hl Hu].
  set (n := Zfloor (ln (Rabs x) / ln 2)) in *.
  replace (n + 1 - 1)%Z with n by lia.
  rewrite !bpow_exp, plus_IZR.
  assert (E : ln (Rabs x) = ln (Rabs x) / ln 2 * ln 2)
    by (field; lra).
  assert (Ex : Rabs x = exp (ln (Rabs x) / ln 2 * ln 2))
    by (rewrite <- E; symmetry; apply exp_ln; exact Hp).
  rewrite Ex. clear Ex E. set (q := ln (Rabs x) / ln 2) in *.
  split.
  - destruct Hl as [Hl | Hl].
    + left. apply exp_increasing. apply Rmult_lt_compat_r; assumption.
    + right. rewrite Hl. reflexivity.
  - apply exp_increasing. apply Rmult_lt_compat_r; assumption.
Qed.

Lemma mag_opp (x : R) : mag (- x) = mag x.
Proof. unfold mag. rewrite Rabs_Ropp. reflexivity. Qed.

Lemma mag_le (x y : R) : x <> 0 -> Rabs x <= Rabs y -> (mag x <= mag y)%Z.
Proof.
  intros Hx Hxy.
  assert (Hy : y <> 0).
  { intros ->. rewrite Rabs_R0 in Hxy.
    pose proof (Rabs_pos_lt x Hx). lra. }
  pose proof (mag_spec x Hx) as [Hl _].
  pose proof (mag_spec y Hy) as [_ Hu].
  assert (H : bpow (mag x - 1) < bpow (mag y)) by lra.
  apply bpow_lt_inv in H. lia.
Qed.

Lemma mag_le_bpow (x : R) (e : Z) :
  x <> 0 -> Rabs x < bpow e -> (mag x <= e)%Z.
Proof.
  intros Hx H. pose proof (mag_spec x Hx) as [Hl _].
  assert (H' : bpow (mag x - 1) < bpow e) by lra.
  apply bpow_lt_inv in H'. lia.
Qed.

(** *** Rounding to the nearest integer, ties to even *)

Lemma nearest_even_is (r : R) : is_nearest_even r (nearest_even r).
Proof.
  unfold is_nearest_even, nearest_even.
  pose proof (Zfloor_bound r) as [Hl Hu].
  set (n := Zfloor r) in *.
  destruct (Rlt_dec (r - IZR n) (/ 2)) as [H1 | H1].
  - left. rewrite Rabs_pos_eq; lra.
  - destruct (Rlt_dec (/ 2) (r - IZR n)) as [H2 | H2].
    + left. rewrite plus_IZR, Rabs_left; lra.
    + destruct (Z.even n) eqn:E.
      * right. split; [rewrite Rabs_pos_eq; lra | exact E].
      * right. split; [rewrite plus_IZR, Rabs_left; lra |].
        rewrite Z.even_add, E. reflexivity.
Qed.

Lemma is_nearest_even_unique (r : R) (z1 z2 : Z) :
  is_nearest_even r z1 -> is_nearest_even r z2 -> z1 = z2.
Proof.
  intros H1 H2.
  assert (B1 : Rabs (r - IZR z1) <= / 2) by (destruct H1 as [H | [H _]]; lra).
  assert (B2 : Rabs (r - IZR z2) <= / 2) by (destruct H2 as [H | [H _]]; lra).
  apply Rabs_le_inv in B1, B2.
  assert (Hd : (z1 - z2 <= 1)%Z /\ (z2 - z1 <= 1)%Z).
  { split; apply le_IZR; rewrite minus_IZR; lra. }
  destruct (Z.eq_dec z1 z2) as [E | N]; [exact E | exfalso].
  assert (Hc : (z1 = z2 + 1)%Z \/ (z2 = z1 + 1)%Z) by lia.
  destruct Hc as [-> | ->]; rewrite plus_IZR in *.
  - assert (Er : r = IZR z2 + / 2) by lra.
    destruct H1 as [H | [_ E1]];
      [rewrite plus_IZR in H; apply Rabs_def2 in H; lra |].
    destruct H2 as [H | [_ E2]]; [apply Rabs_def2 in H; lra |].
    rewrite Z.even_add, E2 in E1. discriminate.
  - assert (Er : r = IZR z1 + / 2) by lra.
    destruct H2 as [H | [_ E2]];
      [rewrite plus_IZR in H; apply Rabs_def2 in H; lra |].
    destruct H1 as [H | [_ E1]]; [apply Rabs_def2 in H; lra |].
    rewrite Z.even_add, E1 in E2. discriminate.
Qed.

Lemma nearest_even_eq (r : R) (z : Z) :
  is_nearest_even r z -> nearest_even r = z.
Proof.
  intros H. exact (is_nearest_even_unique r _ _ (nearest_even_is r) H).
Qed.

Lemma nearest_even_near (r : R) (z : Z) :
  Rabs (r - IZR z) < / 2 -> nearest_even r = z.
Proof. intros H. apply nearest_even_eq. left. exact H. Qed.

Lemma nearest_even_IZR (z : Z) : nearest_even (IZR z) = z.
Proof.
  apply nearest_even_near. rewrite Rminus_diag, Rabs_R0. lra.
Qed.

Lemma nearest_even_opp (r : R) : nearest_even (- r) = (- nearest_even r)%Z.
Proof.
  apply nearest_even_eq. unfold is_nearest_even.
  rewrite opp_IZR, Z.even_opp.
  replace (- r - - IZR (nearest_even r)) with (- (r - IZR (nearest_even r)))
    by ring.
  rewrite Rabs_Ropp. exact (nearest_even_is r).
Qed.

Lemma nearest_even_le (r1 r2 : R) :
  r1 <= r2 -> (nearest_even r1 <= nearest_even r2)%Z.
Proof.
  intros H.
  pose proof (nearest_even_is r1) as H1.
  pose proof (nearest_even_is r2) as H2.
  set (z1 := nearest_even r1) in *. set (z2 := nearest_even r2) in *.
  destruct (Z_le_gt_dec z1 z2) as [L | G]; [exact L | exfalso].
  assert (B1 : Rabs (r1 - IZR z1) <= / 2) by (destruct H1 as [? | [? _]]; lra).
  assert (B2 : Rabs (r2 - IZR z2) <= / 2) by (destruct H2 as [? | [? _]]; lra).
  apply Rabs_le_inv in B1, B2.
  assert (Hz : IZR z2 + 1 <= IZR z1).
  { rewrite <- plus_IZR. apply IZR_le. lia. }
  assert (E : r1 = r2) by lra.
  unfold z1, z2 in G. rewrite E in G. lia.
Qed.

(** *** Rounding to a format *)

Section Format.

Variable fmt : format.
Hypothesis prec_pos : (0 < prec fmt)%Z.

Lemma round_val_0 : round_val fmt 0 = 0.
Proof.
  unfold round_val. rewrite Rmult_0_l.
  change 0 with (IZR 0) at 1. rewrite nearest_even_IZR. simpl. ring.
Qed.

Lemma cexp_opp (x : R) : cexp fmt (- x) = cexp fmt x.
Proof. unfold cexp. rewrite mag_opp. reflexivity. Qed.

Lemma round_val_opp (x : R) : round_val fmt (- x) = - round_val fmt x.
Proof.
  unfold round_val. rewrite cexp_opp.
  replace (- x * bpow (- cexp fmt x)) with (- (x * bpow (- cexp fmt x)))
    by ring.
  rewrite nearest_even_opp, opp_IZR. ring.
Qed.

(** A value on the grid of [x] and closer to [x] than half a step is the
    rounding of [x]. *)
Lemma round_val_near (x y : R) (m : Z) :
  y = IZR m * bpow (cexp fmt x) ->
  Rabs (x - y) < bpow (cexp fmt x - 1) ->
  round_val fmt x = y.
Proof.
  intros Hy Hd. unfold round_val.
  rewrite (nearest_even_near _ m); [symmetry; exact Hy |].
  pose proof (bpow_pos (cexp fmt x)) as Hp.
  pose proof (bpow_cancel (cexp fmt x)) as Hc.
  replace (x * bpow (- cexp fmt x) - IZR m)
    with ((x - y) * bpow (- cexp fmt x))
    by (rewrite Hy; ring_simplify; rewrite Rmult_assoc, Hc; ring).
  rewrite Rabs_mult, (Rabs_pos_eq (bpow _)) by (left; apply bpow_pos).
  apply Rmult_lt_reg_r with (bpow (cexp fmt x)); [exact Hp |].
  rewrite Rmult_assoc, (Rmult_comm (bpow (- _))), Hc, Rmult_1_r.
  replace (/ 2 * bpow (cexp fmt x)) with (bpow (cexp fmt x - 1)); [exact Hd |].
  unfold Z.sub. rewrite bpow_add. simpl. lra.
Qed.

(** A number [m * 2^e] with [|m| < 2^prec] and [e >= emin] is
    representable. *)
Lemma round_val_exact (m e : Z) :
  (Z.abs m < 2 ^ prec fmt)%Z -> (emin fmt <= e)%Z ->
  round_val fmt (IZR m * bpow e) = IZR m * bpow e.
Proof.
  intros Hm He.
  destruct (Z.eq_dec m 0) as [-> | Hm0].
  { rewrite Rmult_0_l. apply round_val_0. }
  set (x := IZR m * bpow e).
  assert (Hx : x <> 0).
  { unfold x. apply Rmult_integral_contrapositive_currified.
    - apply not_0_IZR. exact Hm0.
    - pose proof (bpow_pos e). lra. }
  assert (Hc : (cexp fmt x <= e)%Z).
  { unfold cexp. apply Z.max_lub; [| exact He].
    pose proof (mag_spec x Hx) as [Hl _].
    assert (Hlt : Rabs x < bpow (prec fmt + e)).
    { unfold x. rewrite Rabs_mult, (Rabs_pos_eq (bpow e))
        by (left; apply bpow_pos).
      rewrite bpow_add. apply Rmult_lt_compat_r; [apply bpow_pos |].
      rewrite <- abs_IZR, bpow_IZR by lia. apply IZR_lt. exact Hm. }
    assert (H : bpow (mag x - 1) < bpow (prec fmt + e)) by lra.
    apply bpow_lt_inv in H. lia. }
  apply (round_val_near x x (m * 2 ^ (e - cexp fmt x))).
  - rewrite mult_IZR, <- bpow_IZR by lia. unfold x.
    rewrite Rmult_assoc, <- bpow_add. f_equal. f_equal. lia.
  - rewrite Rminus_diag, Rabs_R0. apply bpow_pos.
Qed.

Lemma round_val_bpow (k : Z) :
  (emin fmt <= k)%Z -> round_val fmt (bpow k) = bpow k.
Proof.
  intros Hk. pose proof (round_val_exact 1 k) as H.
  rewrite Rmult_1_l in H. apply H; [| exact Hk].
  simpl. apply Z.pow_gt_1; lia.
Qed.

Lemma round_val_nonneg (x : R) : 0 <= x -> 0 <= round_val fmt x.
Proof.
  intros Hx. unfold round_val.
  apply Rmult_le_pos; [| left; apply bpow_pos].
  apply IZR_le. rewrite <- (nearest_even_IZR 0).
  apply nearest_even_le. apply Rmult_le_pos; [exact Hx |].
  left. apply bpow_pos.
Qed.

(** Rounding does not leave the binade. *)
Lemma round_val_binade (x : R) :
  0 < x ->
  ((emin fmt <= mag x - 1)%Z -> bpow (mag x - 1) <= round_val fmt x) /\
  round_val fmt x <= bpow (Z.max (mag x) (emin fmt)).
Proof.
  intros Hx.
  assert (Hx0 : x <> 0) by lra.
  pose proof (mag_spec x Hx0) as [Hl Hu].
  rewrite Rabs_pos_eq in Hl, Hu by lra.
  pose proof (bpow_pos (cexp fmt x)) as Hp.
  pose proof (bpow_cancel (cexp fmt x)) as Hc.
  assert (Hce : (mag x - prec fmt <= cexp fmt x)%Z /\
                (emin fmt <= cexp fmt x)%Z) by (unfold cexp; lia).
  split.
  - intros Hn.
    assert (Hle : (cexp fmt x <= mag x - 1)%Z) by (unfold cexp; lia).
    unfold round_val.
    replace (bpow (mag x - 1))
      with (IZR (2 ^ (mag x - 1 - cexp fmt x)) * bpow (cexp fmt x)).
    + apply Rmult_le_compat_r; [lra |]. apply IZR_le.
      rewrite <- (nearest_even_IZR (2 ^ _)). apply nearest_even_le.
      rewrite <- bpow_IZR by lia.
      unfold Z.sub at 1. rewrite bpow_add.
      apply Rmult_le_compat_r; [left; apply bpow_pos | exact Hl].
    + rewrite <- bpow_IZR, <- bpow_add by lia. f_equal. lia.
  - set (k := Z.max (mag x) (emin fmt)).
    assert (Hk : (cexp fmt x <= k)%Z) by (unfold cexp, k; lia).
    unfold round_val.
    replace (bpow k) with (IZR (2 ^ (k - cexp fmt x)) * bpow (cexp fmt x)).
    + apply Rmult_le_compat_r; [lra |]. apply IZR_le.
      rewrite <- (nearest_even_IZR (2 ^ _)). apply nearest_even_le.
      rewrite <- bpow_IZR by lia.
      unfold Z.sub. rewrite bpow_add.
      apply Rmult_le_compat_r; [left; apply bpow_pos |].
      left. apply Rlt_le_trans with (1 := Hu). apply bpow_le. unfold k. lia.
    + rewrite <- bpow_IZR, <- bpow_add by lia. f_equal. lia.
Qed.

Lemma round_val_le_pos (x y : R) :
  0 < x -> x <= y -> round_val fmt x <= round_val fmt y.
Proof.
  intros Hx Hxy.
  assert (Hy : 0 < y) by lra.
  assert (Hm : (mag x <= mag y)%Z).
  { apply mag_le; [lra |]. rewrite !Rabs_pos_eq by lra. exact Hxy. }
  destruct (Z.eq_dec (cexp fmt x) (cexp fmt y)) as [E | N].
  - unfold round_val. rewrite E.
    apply Rmult_le_compat_r; [left; apply bpow_pos |].
    apply IZR_le, nearest_even_le.
    apply Rmult_le_compat_r; [left; apply bpow_pos | exact Hxy].
  - assert (Hlt : (mag x < mag y)%Z /\ (emin fmt < mag y - prec fmt)%Z).
    { unfold cexp in N. lia. }
    destruct (round_val_binade x Hx) as [_ Hux].
    destruct (round_val_binade y Hy) as [Hly _].
    apply Rle_trans with (1 := Hux).
    apply Rle_trans with (2 := Hly ltac:(lia)).
    apply bpow_le. lia.
Qed.

Lemma round_val_le (x y : R) :
  x <= y -> round_val fmt x <= round_val fmt y.
Proof.
  intros Hxy.
  destruct (Rlt_le_dec 0 x) as [Hx | Hx].
  - apply round_val_le_pos; assumption.
  - destruct (Rlt_le_dec y 0) as [Hy | Hy].
    + destruct (Req_dec x y) as [-> | N]; [lra |].
      assert (H : round_val fmt (- y) <= round_val fmt (- x))
        by (apply round_val_le_pos; lra).
      rewrite !round_val_opp in H. lra.
    + apply Rle_trans with 0.
      * assert (H : 0 <= round_val fmt (- x))
          by (apply round_val_nonneg; lra).
        rewrite round_val_opp in H. lra.
      * apply round_val_nonneg. exact Hy.
Qed.

(** The rounding error is at most half a step of the grid. *)
Lemma round_val_error (x : R) :
  Rabs (round_val fmt x - x) <= bpow (cexp fmt x - 1).
Proof.
  unfold round_val.
  pose proof (bpow_pos (cexp fmt x)) as Hp.
  pose proof (bpow_cancel (cexp fmt x)) as Hc.
  pose proof (nearest_even_is (x * bpow (- cexp fmt x))) as Hn.
  set (n := nearest_even (x * bpow (- cexp fmt x))) in *.
  assert (B : Rabs (x * bpow (- cexp fmt x) - IZR n) <= / 2)
    by (destruct Hn as [H | [H _]]; lra).
  replace (IZR n * bpow (cexp fmt x) - x)
    with (- ((x * bpow (- cexp fmt x) - IZR n) * bpow (cexp fmt x)))
    by (ring_simplify; rewrite Rmult_assoc, (Rmult_comm (bpow (- _))), Hc;
        ring).
  rewrite Rabs_Ropp, Rabs_mult, (Rabs_pos_eq (bpow _)) by lra.
  replace (bpow (cexp fmt x - 1)) with (/ 2 * bpow (cexp fmt x)).
  - apply Rmult_le_compat_r; [lra | exact B].
  - unfold Z.sub. rewrite bpow_add. simpl. lra.
Qed.

Lemma round_val_error_below (x : R) (e : Z) :
  Rabs x < bpow e -> (emin fmt <= e - prec fmt)%Z ->
  Rabs (round_val fmt x - x) <= bpow (e - prec fmt - 1).
Proof.
  intros Hx He.
  destruct (Req_dec x 0) as [-> | N].
  - rewrite round_val_0, Rminus_diag, Rabs_R0. left. apply bpow_pos.
  - apply Rle_trans with (1 := round_val_error x).
    apply bpow_le. pose proof (mag_le_bpow x e N Hx). unfold cexp. lia.
Qed.

Lemma round_finite (x : R) :
  - bpow (emax fmt) < round_val fmt x < bpow (emax fmt) ->
  round fmt x = Fin (round_val fmt x).
Proof.
  intros [Hl Hu]. unfold round. cbv zeta.
  destruct (Rle_dec (bpow (emax fmt)) (round_val fmt x)); [lra |].
  destruct (Rle_dec (round_val fmt x) (- bpow (emax fmt))); [lra |].
  reflexivity.
Qed.

(** A number between two representable numbers of the format rounds to a
    number between them. *)
Lemma round_between (lo hi x : R) :
  round_val fmt lo = lo -> round_val fmt hi = hi ->
  - bpow (emax fmt) < lo -> hi < bpow (emax fmt) ->
  lo <= x <= hi ->
  round fmt x = Fin (round_val fmt x) /\ lo <= round_val fmt x <= hi.
Proof.
  intros Elo Ehi Hlo Hhi [H1 H2].
  pose proof (round_val_le lo x H1) as L1.
  pose proof (round_val_le x hi H2) as L2.
  rewrite Elo in L1. rewrite Ehi in L2.
  split; [| lra]. apply round_finite. lra.
Qed.

(** Rounding keeps the order, infinities included. *)
Lemma round_fltb_le (x y : R) :
  x <= y -> fltb (round fmt y) (round fmt x) = false.
Proof.
  intros H. pose proof (round_val_le x y H) as L.
  pose proof (bpow_pos (emax fmt)) as Hp.
  unfold round. cbv zeta.
  destruct (Rle_dec (bpow (emax fmt)) (round_val fmt y));
    destruct (Rle_dec (round_val fmt y) (- bpow (emax fmt)));
    destruct (Rle_dec (bpow (emax fmt)) (round_val fmt x));
    destruct (Rle_dec (round_val fmt x) (- bpow (emax fmt)));
    try reflexivity; try lra.
  simpl. destruct (Rlt_dec (round_val fmt y) (round_val fmt x));
    [lra | reflexivity].
Qed.

End Format.

End FloatFacts.

(** ** Numbers and the log-prior term *)

Lemma eps_pos : 0 < eps.
Proof. unfold eps. lra. Qed.

Lemma tf_math_log_pos (x : R) : 0 < x -> tf_math_log (Fin x) = Fin (ln x).
Proof.
  intros Hx. unfold tf_math_log.
  destruct (Rlt_dec 0 x) as [_ | Hn]; [reflexivity | contradiction].
Qed.

Lemma tf_math_log_zero : tf_math_log (Fin 0) = NInf.
Proof.
  unfold tf_math_log.
  destruct (Rlt_dec 0 0) as [H | _]; [lra |].
  destruct (Req_dec_T 0 0) as [_ | H]; [reflexivity | lra].
Qed.

Lemma np_power_zero (y : R) : 0 < y -> np_power 0 y = Fin 0.
Proof.
  intros Hy. unfold np_power.
  destruct (Req_dec_T y 0) as [E | _]; [lra |].
  destruct (Rlt_dec 0 0) as [H | _]; [lra |].
  destruct (Req_dec_T 0 0) as [_ | H]; [| lra].
  destruct (Rlt_dec 0 y) as [_ | H]; [reflexivity | contradiction].
Qed.

(** Without the guard a zero prior would give [-inf]. *)
Lemma zero_prior_without_guard (tau : R) :
  0 < tau -> tf_math_log (np_power 0 tau) = NInf.
Proof.
  intros Ht. rewrite np_power_zero by exact Ht. apply tf_math_log_zero.
Qed.

Lemma np_power_pos (x y : R) :
  0 < x -> exists r, np_power x y = Fin r /\ 0 < r.
Proof.
  intros Hx. unfold np_power.
  destruct (Req_dec_T y 0) as [_ | _].
  - exists 1. split; [reflexivity | lra].
  - destruct (Rlt_dec 0 x) as [_ | Hn]; [| contradiction].
    exists (Rpower x y). split; [reflexivity |]. apply exp_pos.
Qed.

Lemma np_power_nonneg (x y : R) :
  0 <= x -> 0 < y -> exists r, np_power x y = Fin r /\ 0 <= r.
Proof.
  intros Hx Hy. destruct Hx as [Hx | Hx].
  - destruct (np_power_pos x y Hx) as (r & E & Hr).
    exists r. split; [exact E | lra].
  - subst x. exists 0. split; [apply np_power_zero; exact Hy | lra].
Qed.

(** With exponent 1 the power is the base itself. *)
Lemma np_power_one (x : R) : np_power x 1 = Fin x.
Proof.
  unfold np_power.
  destruct (Req_dec_T 1 0) as [E | _]; [lra |].
  destruct (Rlt_dec 0 x) as [Hx | Hx].
  - rewrite Rpower_1 by exact Hx. reflexivity.
  - destruct (Req_dec_T x 0) as [E | Hx0].
    + subst x. destruct (Rlt_dec 0 1) as [_ | H]; [reflexivity | lra].
    + assert (HI : Int_part 1 = 1%Z).
      { symmetry. apply Int_part_spec. simpl. lra. }
      rewrite HI.
      destruct (Req_dec_T (IZR 1) 1) as [_ | H]; [| lra].
      f_equal. unfold powerRZ. simpl. lra.
Qed.

(** One entry of the log-prior vector. *)
Lemma log_prior_entry_finite (p tau : R) :
  0 <= p -> 0 < tau ->
  exists r, tf_math_log (tf_cast (fadd (np_power p tau) (Fin eps))) = Fin r.
Proof.
  intros Hp Ht.
  destruct (np_power_nonneg p tau Hp Ht) as (r & E & Hr).
  rewrite E. unfold tf_cast. simpl.
  exists (ln (r + eps)). apply tf_math_log_pos.
  pose proof eps_pos. lra.
Qed.

Lemma log_prior_finite (p : list R) (tau : R) :
  Forall (fun x => 0 <= x) p -> 0 < tau -> finite_vec (log_prior p tau).
Proof.
  intros Hp Ht. unfold finite_vec, log_prior.
  induction Hp as [| x p Hx _ IH]; simpl; constructor; [| exact IH].
  destruct (log_prior_entry_finite x tau Hx Ht) as (r & E).
  rewrite E. reflexivity.
Qed.

Lemma log_prior_length (p : list R) (tau : R) :
  length (log_prior p tau) = length p.
Proof. unfold log_prior. apply length_map. Qed.

(** ** The log-prior term in floating point *)

Local Abbreviation b32 := Float.binary32.
Local Abbreviation b64 := Float.binary64.
Local Abbreviation rv32 := (Float.round_val Float.binary32).
Local Abbreviation rv64 := (Float.round_val Float.binary64).

Ltac bpow_num_at k :=
  match k with
  | Z0 => change (Float.bpow 0) with 1 in *
  | Zpos ?q =>
      let v := eval vm_compute in (2 ^ Zpos q)%Z in
      replace (Float.bpow (Zpos q)) with (IZR v) in *
        by (rewrite FloatFacts.bpow_IZR by lia; reflexivity)
  | Zneg ?q =>
      let v := eval vm_compute in (2 ^ Zpos q)%Z in
      replace (Float.bpow (Zneg q)) with (/ IZR v) in *
        by (change (Zneg q) with (- Zpos q)%Z;
            rewrite FloatFacts.bpow_opp, FloatFacts.bpow_IZR by lia;
            reflexivity)
  end.

(** Replaces the powers of two at closed exponents by numerals. *)
Ltac bpow_num :=
  repeat match goal with
         | |- context [Float.bpow ?k] => bpow_num_at k
         | H : context [Float.bpow ?k] |- _ => bpow_num_at k
         end.

Lemma prec32_pos : (0 < Float.prec b32)%Z.
Proof. reflexivity. Qed.

Lemma prec64_pos : (0 < Float.prec b64)%Z.
Proof. reflexivity. Qed.

Lemma round_val_one (fmt : Float.format) :
  (0 < Float.prec fmt)%Z -> (Float.emin fmt <= 0)%Z ->
  Float.round_val fmt 1 = 1.
Proof.
  intros Hp He. exact (FloatFacts.round_val_bpow fmt Hp 0 He).
Qed.

Lemma bpow_1 : Float.bpow 1 = 2.
Proof. bpow_num. reflexivity. Qed.

Lemma bpow_6 : Float.bpow 6 = 64.
Proof. bpow_num. reflexivity. Qed.

Lemma ln2_lt_1 : ln 2 < 1.
Proof.
  rewrite <- (ln_exp 1). apply ln_increasing; [lra |].
  pose proof (exp_ineq1 1). lra.
Qed.

Lemma ln_bpow (k : Z) : ln (Float.bpow k) = IZR k * ln 2.
Proof. rewrite FloatFacts.bpow_exp. apply ln_exp. Qed.

Lemma ln_le (x y : R) : 0 < x -> x <= y -> ln x <= ln y.
Proof.
  intros Hx [H | ->]; [left; apply ln_increasing; assumption | lra].
Qed.

Lemma np_power_unit (q tau : R) :
  0 <= q <= 1 -> 0 < tau ->
  exists r0, np_power q tau = Fin r0 /\ 0 <= r0 <= 1.
Proof.
  intros [[Hq | Hq] Hq1] Ht.
  - exists (Rpower q tau). split.
    + unfold np_power.
      destruct (Req_dec_T tau 0) as [E | _]; [lra |].
      destruct (Rlt_dec 0 q) as [_ | H]; [reflexivity | contradiction].
    + unfold Rpower. split; [left; apply exp_pos |].
      rewrite <- exp_0. pose proof (ln_le q 1 Hq Hq1) as Hl.
      rewrite ln_1 in Hl.
      destruct (Req_dec (tau * ln q) 0) as [-> | N]; [lra |].
      left. apply exp_increasing. nra.
  - subst q. exists 0. split; [apply np_power_zero; exact Ht | lra].
Qed.

Lemma eps_f64_value :
  eps_f64 = Fin (rv64 eps) /\
  Float.bpow (-40) <= rv64 eps <= Float.bpow (-39).
Proof.
  apply (FloatFacts.round_between b64 prec64_pos).
  - apply FloatFacts.round_val_bpow; [reflexivity | simpl; lia].
  - apply FloatFacts.round_val_bpow; [reflexivity | simpl; lia].
  - pose proof (FloatFacts.bpow_pos (Float.emax b64)).
    pose proof (FloatFacts.bpow_pos (-40)). lra.
  - apply FloatFacts.bpow_lt. simpl. lia.
  - unfold eps. bpow_num. lra.
Qed.

(** The values through which one entry is computed, from the exact
    power [r0] in [0, 1]: its float64 rounding, the float64 sum with the
    guard, the float32 cast, and the float32 logarithm. *)
Lemma log_prior_entry_chain (r0 : R) :
  0 <= r0 <= 1 ->
  (Float.round b64 r0 = Fin (rv64 r0) /\ 0 <= rv64 r0 <= 1) /\
  (Float.round b64 (rv64 r0 + rv64 eps)
   = Fin (rv64 (rv64 r0 + rv64 eps)) /\
   Float.bpow (-40) <= rv64 (rv64 r0 + rv64 eps) <= 2) /\
  (Float.round b32 (rv64 (rv64 r0 + rv64 eps))
   = Fin (rv32 (rv64 (rv64 r0 + rv64 eps))) /\
   Float.bpow (-40) <= rv32 (rv64 (rv64 r0 + rv64 eps)) <= 2) /\
  (Float.round b32 (ln (rv32 (rv64 (rv64 r0 + rv64 eps))))
   = Fin (rv32 (ln (rv32 (rv64 (rv64 r0 + rv64 eps))))) /\
   -64 <= rv32 (ln (rv32 (rv64 (rv64 r0 + rv64 eps)))) <= 1).
Proof.
  intros H0.
  destruct eps_f64_value as [_ He].
  pose proof (FloatFacts.bpow_pos (-40)) as Hp40.
  assert (H39 : Float.bpow (-39) <= 1) by (bpow_num; lra).
  assert (E2 : forall fmt, (0 < Float.prec fmt)%Z ->
                 (Float.emin fmt <= 0)%Z ->
                 Float.round_val fmt 2 = 2).
  { intros fmt Hp Hm. rewrite <- bpow_1.
    apply FloatFacts.round_val_bpow; [exact Hp | lia]. }
  assert (Hmax : forall fmt, (2 <= Float.emax fmt)%Z ->
                   2 < Float.bpow (Float.emax fmt)).
  { intros fmt Hm. rewrite <- bpow_1.
    apply FloatFacts.bpow_lt. lia. }
  assert (H1 : Float.round b64 r0 = Fin (rv64 r0) /\ 0 <= rv64 r0 <= 1).
  { apply (FloatFacts.round_between b64 prec64_pos).
    - apply FloatFacts.round_val_0.
    - apply round_val_one; [reflexivity | simpl; lia].
    - pose proof (FloatFacts.bpow_pos (Float.emax b64)). lra.
    - pose proof (Hmax b64 ltac:(simpl; lia)). lra.
    - exact H0. }
  split; [exact H1 |]. destruct H1 as [_ H1].
  assert (H2 : Float.round b64 (rv64 r0 + rv64 eps)
               = Fin (rv64 (rv64 r0 + rv64 eps)) /\
               Float.bpow (-40) <= rv64 (rv64 r0 + rv64 eps) <= 2).
  { apply (FloatFacts.round_between b64 prec64_pos).
    - apply FloatFacts.round_val_bpow; [reflexivity | simpl; lia].
    - apply E2; [reflexivity | simpl; lia].
    - pose proof (FloatFacts.bpow_pos (Float.emax b64)). lra.
    - apply Hmax. simpl. lia.
    - lra. }
  split; [exact H2 |]. destruct H2 as [_ H2].
  assert (H3 : Float.round b32 (rv64 (rv64 r0 + rv64 eps))
               = Fin (rv32 (rv64 (rv64 r0 + rv64 eps))) /\
               Float.bpow (-40) <= rv32 (rv64 (rv64 r0 + rv64 eps)) <= 2).
  { apply (FloatFacts.round_between b32 prec32_pos).
    - apply FloatFacts.round_val_bpow; [reflexivity | simpl; lia].
    - apply E2; [reflexivity | simpl; lia].
    - pose proof (FloatFacts.bpow_pos (Float.emax b32)). lra.
    - apply Hmax. simpl. lia.
    - exact H2. }
  split; [exact H3 |]. destruct H3 as [_ H3].
  apply (FloatFacts.round_between b32 prec32_pos).
  - replace (-64) with (- Float.bpow 6) by (rewrite bpow_6; lra).
    rewrite FloatFacts.round_val_opp. f_equal.
    apply FloatFacts.round_val_bpow; [reflexivity | simpl; lia].
  - apply round_val_one; [reflexivity | simpl; lia].
  - replace (-64) with (- Float.bpow 6) by (rewrite bpow_6; lra).
    apply Ropp_lt_contravar. apply FloatFacts.bpow_lt. simpl. lia.
  - change 1 with (Float.bpow 0). apply FloatFacts.bpow_lt. simpl. lia.
  - pose proof ln2_lt_1 as Hl. pose proof FloatFacts.ln2_pos as Hl0.
    split.
    + apply Rle_trans with (ln (Float.bpow (-40))).
      * rewrite ln_bpow. nra.
      * apply ln_le; [exact Hp40 | apply H3].
    + apply Rle_trans with (ln 2); [| lra].
      apply ln_le; lra.
Qed.

Lemma log_prior_entry_f32_value (q tau r0 : R) :
  np_power q tau = Fin r0 -> 0 <= r0 <= 1 ->
  log_prior_entry_f32 q tau
  = Fin (rv32 (ln (rv32 (rv64 (rv64 r0 + rv64 eps))))).
Proof.
  intros E H0.
  destruct (log_prior_entry_chain r0 H0)
    as ((R1 & _) & (R2 & _) & (R3 & B3) & (R4 & _)).
  destruct eps_f64_value as [Ee _].
  unfold log_prior_entry_f32, np_power_f64. rewrite E, Ee.
  cbn [Float.round_fp]. rewrite R1.
  unfold np_add_f64. cbn [fadd Float.round_fp]. rewrite R2.
  unfold tf_cast_f32. cbn [Float.round_fp]. rewrite R3.
  unfold tf_math_log_f32. rewrite tf_math_log_pos.
  - cbn [Float.round_fp]. exact R4.
  - pose proof (FloatFacts.bpow_pos (-40)). lra.
Qed.

Lemma log_prior_f32_length (p : list R) (tau : R) :
  length (log_prior_f32 p tau) = length p.
Proof. unfold log_prior_f32. apply length_map. Qed.

(** ** Broadcasting over a batch of matching width *)

Lemma broadcast_row_same (op : fp -> fp -> fp) (row v : list fp) :
  length row = length v ->
  broadcast_row op row v =
  Ok (map (fun xs => op (fst xs) (snd xs)) (combine row v)).
Proof.
  intros E. unfold broadcast_row. rewrite E, Nat.eqb_refl. reflexivity.
Qed.

Lemma broadcast_shape (op : fp -> fp -> fp) (L : logits_t) (s : list fp) :
  has_classes (length s) L -> broadcast op L s = Ok (shift_rows op L s).
Proof.
  unfold has_classes, broadcast, shift_rows.
  induction 1 as [| row L Hrow _ IH]; simpl; [reflexivity |].
  rewrite (broadcast_row_same op _ _ Hrow). simpl.
  rewrite IH. reflexivity.
Qed.

Lemma shift_rows_classes (op : fp -> fp -> fp) (L : logits_t) (s : list fp) :
  has_classes (length s) L -> has_classes (length s) (shift_rows op L s).
Proof.
  unfold has_classes, shift_rows. intros H.
  apply Forall_map. eapply Forall_impl; [| exact H].
  intros row E. simpl. rewrite length_map, length_combine, E.
  apply Nat.min_id.
Qed.

Lemma fsub_fadd_cancel (x : fp) (k : R) : fadd (fsub x (Fin k)) (Fin k) = x.
Proof.
  destruct x as [r | | |]; simpl; try reflexivity.
  f_equal. lra.
Qed.

Lemma row_sub_add_cancel (s row : list fp) :
  finite_vec s -> length row = length s ->
  map (fun xs => fadd (fst xs) (snd xs))
      (combine (map (fun xs => fsub (fst xs) (snd xs)) (combine row s)) s)
  = row.
Proof.
  intros Hs. revert row.
  induction Hs as [| k s Hk _ IH]; intros [| x row] E; simpl in *;
    try reflexivity; try discriminate.
  destruct k as [k | | |]; try discriminate.
  rewrite fsub_fadd_cancel. f_equal. apply IH. lia.
Qed.

Lemma shift_rows_sub_add_cancel (L : logits_t) (s : list fp) :
  finite_vec s -> has_classes (length s) L ->
  shift_rows fadd (shift_rows fsub L s) s = L.
Proof.
  intros Hs HL. unfold shift_rows. rewrite map_map.
  induction HL as [| row L Hrow _ IH]; simpl; [reflexivity |].
  rewrite (row_sub_add_cancel s row Hs Hrow). f_equal. exact IH.
Qed.

Lemma combine_map_r {A B C} (g : B -> C) (l : list A) (l' : list B) :
  combine l (map g l') = map (fun xy => (fst xy, g (snd xy))) (combine l l').
Proof.
  revert l'. induction l as [| a l IH]; intros [| b l']; simpl;
    try reflexivity.
  f_equal. apply IH.
Qed.

Lemma shift_rows_fsub (L : logits_t) (s : list fp) :
  shift_rows fsub L s = shift_rows fadd L (map fneg s).
Proof.
  unfold shift_rows. apply map_ext. intros row.
  rewrite combine_map_r, map_map. reflexivity.
Qed.

(** The log-prior of the class prior 1/4 at temperature 1. *)
Lemma log_prior_quarter : log_prior [/ 4] 1 = [Fin (ln (/ 4 + eps))].
Proof.
  unfold log_prior, tf_cast. cbn [map]. rewrite np_power_one.
  cbn [fadd]. rewrite tf_math_log_pos; [reflexivity |].
  pose proof eps_pos. lra.
Qed.

Lemma ln_quarter_negative : ln (/ 4 + eps) < 0.
Proof.
  rewrite <- ln_1. apply ln_increasing; unfold eps; lra.
Qed.

Lemma finite_row_shift (op : fp -> fp -> fp) (s row : list fp) :
  (forall a b, is_finite a = true -> is_finite b = true ->
               is_finite (op a b) = true) ->
  finite_vec s -> finite_vec row ->
  finite_vec (map (fun xs => op (fst xs) (snd xs)) (combine row s)).
Proof.
  intros Hop Hs. revert row. unfold finite_vec in *.
  induction Hs as [| k s Hk _ IH]; intros row Hrow.
  - rewrite combine_nil. constructor.
  - destruct Hrow as [| x row Hx Hrow]; simpl; constructor.
    + apply Hop; assumption.
    + apply IH. exact Hrow.
Qed.

Lemma finite_shift_rows (op : fp -> fp -> fp) (L : logits_t) (s : list fp) :
  (forall a b, is_finite a = true -> is_finite b = true ->
               is_finite (op a b) = true) ->
  finite_vec s -> Forall finite_vec L -> Forall finite_vec (shift_rows op L s).
Proof.
  intros Hop Hs HL. unfold shift_rows. apply Forall_map.
  eapply Forall_impl; [| exact HL].
  intros row Hrow. apply finite_row_shift; assumption.
Qed.

Lemma fadd_finite (a b : fp) :
  is_finite a = true -> is_finite b = true -> is_finite (fadd a b) = true.
Proof. destruct a, b; simpl; intros; congruence. Qed.

Lemma fsub_finite (a b : fp) :
  is_finite a = true -> is_finite b = true -> is_finite (fsub a b) = true.
Proof. destruct a, b; simpl; intros; congruence. Qed.

(** ** The two adjustments *)

Lemma loss_adjust_shape (L : logits_t) (p : list R) (tau : R) :
  has_classes (length p) L ->
  loss_adjust L (Some p) tau = Ok (shift_rows fadd L (log_prior p tau)).
Proof.
  intros HL. rewrite <- log_prior_length with (tau := tau) in HL.
  unfold loss_adjust. simpl. apply broadcast_shape. exact HL.
Qed.

Lemma posthoc_adjust_shape (L : logits_t) (p : list R) (tau : R) :
  has_classes (length p) L ->
  posthoc_adjust L (Some p) tau = Ok (shift_rows fsub L (log_prior p tau)).
Proof.
  intros HL. rewrite <- log_prior_length with (tau := tau) in HL.
  unfold posthoc_adjust. simpl. apply broadcast_shape. exact HL.
Qed.

(** C1 (as amended).  For a batch [L] of N rows and C columns and a prior
    [p] of length C, the adjustment inside the loss is
    [L + log(p^tau + 1e-12)] and the post-hoc adjustment of the evaluation
    logits is [L - log(p^tau + 1e-12)], the log-prior vector being repeated
    along the batch dimension in both; the adjusted loss is the plain loss
    of the former. *)
Theorem adjustment_in_loss_adds_posthoc_subtracts
    (L : logits_t) (p : list R) (tau : R) :
  has_classes (length p) L ->
  loss_adjust L (Some p) tau = Ok (shift_rows fadd L (log_prior p tau)) /\
  posthoc_adjust L (Some p) tau = Ok (shift_rows fsub L (log_prior p tau)) /\
  (forall labels,
     loss_fn true (Some p) tau labels L =
     plain_loss labels (shift_rows fadd L (log_prior p tau))).
Proof.
  intros HL.
  split; [apply loss_adjust_shape; exact HL |].
  split; [apply posthoc_adjust_shape; exact HL |].
  intros labels. unfold loss_fn.
  rewrite (loss_adjust_shape L p tau HL). reflexivity.
Qed.

Lemma adjustment_in_loss_adds_posthoc_subtracts_witness :
  posthoc_adjust [[Fin 0]] (Some [/ 4]) 1 =
  Ok (shift_rows fsub [[Fin 0]] (log_prior [/ 4] 1)).
Proof.
  apply (adjustment_in_loss_adds_posthoc_subtracts [[Fin 0]] [/ 4] 1).
  repeat constructor.
Defined.

(** C1 (as stated) fails: on the one-example batch [[0]] with prior [1/4]
    and temperature 1 the post-hoc adjustment is not [L + log(p + 1e-12)]. *)
Lemma posthoc_adjustment_is_not_additive :
  posthoc_adjust [[Fin 0]] (Some [/ 4]) 1 <>
  Ok (shift_rows fadd [[Fin 0]] (log_prior [/ 4] 1)).
Proof.
  unfold posthoc_adjust, log_prior_of. cbn [rbind].
  rewrite broadcast_shape by (repeat constructor).
  rewrite log_prior_quarter. unfold shift_rows. simpl.
  intros H. injection H as H.
  pose proof ln_quarter_negative. lra.
Qed.

(** The log-prior term at a class of prior 0, in floating point. *)
Lemma log_prior_entry_f32_zero (tau : R) :
  0 < tau ->
  exists r, log_prior_entry_f32 0 tau = Fin r /\ -64 <= r <= -16.
Proof.
  intros Ht.
  assert (H0 : 0 <= 0 <= 1) by lra.
  rewrite (log_prior_entry_f32_value 0 tau 0 (np_power_zero tau Ht) H0).
  destruct (log_prior_entry_chain 0 H0)
    as (_ & _ & (_ & B3) & (_ & B4)).
  eexists. split; [reflexivity |]. split; [apply B4 |].
  destruct eps_f64_value as [_ He].
  rewrite (FloatFacts.round_val_0 b64) in *. rewrite Rplus_0_l in *.
  pose proof (FloatFacts.bpow_pos (-40)) as Hp40.
  assert (U2 : rv64 (rv64 eps) <= Float.bpow (-39)).
  { rewrite <- (FloatFacts.round_val_bpow b64 prec64_pos (-39))
      by (simpl; lia).
    apply FloatFacts.round_val_le; [reflexivity | apply He]. }
  assert (U3 : rv32 (rv64 (rv64 eps)) <= Float.bpow (-39)).
  { rewrite <- (FloatFacts.round_val_bpow b32 prec32_pos (-39))
      by (simpl; lia).
    apply FloatFacts.round_val_le; [reflexivity | exact U2]. }
  assert (E16 : rv32 (-16) = -16).
  { replace (-16) with (- Float.bpow 4) by (bpow_num; lra).
    rewrite FloatFacts.round_val_opp. f_equal.
    apply FloatFacts.round_val_bpow; [reflexivity | simpl; lia]. }
  rewrite <- E16. apply FloatFacts.round_val_le; [reflexivity |].
  apply Rle_trans with (ln (Float.bpow (-39))).
  - apply ln_le; [lra | exact U3].
  - rewrite ln_bpow. pose proof ln_lt_2. lra.
Qed.

(** C6 (as amended).  For a prior with entries between 0 and 1 and a
    positive temperature, every entry of [log(p^tau + 1e-12)] as the
    program evaluates it (power and guard in float64, cast and logarithm
    in float32) is a finite number, between -64 and 1; at a class of prior
    0 it lies between -64 and -16 (it is about [log 1e-12]), the guard
    being added before the logarithm is taken.  In the exact model of the
    loop the term is finite as well, and both adjustments of a finite
    batch are finite: a zero prior produces neither -inf nor NaN. *)
Theorem adjustment_term_finite (p : list R) (tau : R) :
  Forall (fun x => 0 <= x <= 1) p -> 0 < tau ->
  Forall (fun t => exists r, t = Fin r /\ -64 <= r <= 1)
         (log_prior_f32 p tau) /\
  (forall i, nth i p 1 = 0 ->
     exists r, nth i (log_prior_f32 p tau) NaN = Fin r /\ -64 <= r <= -16) /\
  finite_vec (log_prior p tau) /\
  (forall L, has_classes (length p) L -> Forall finite_vec L ->
     exists A B,
       loss_adjust L (Some p) tau = Ok A /\ Forall finite_vec A /\
       posthoc_adjust L (Some p) tau = Ok B /\ Forall finite_vec B).
Proof.
  intros Hp Ht.
  assert (Hp0 : Forall (fun x => 0 <= x) p).
  { apply Forall_impl with (2 := Hp). intros x Hx. lra. }
  pose proof (log_prior_finite p tau Hp0 Ht) as Hfin.
  split.
  { unfold log_prior_f32. apply Forall_map.
    apply Forall_impl with (2 := Hp). intros q Hq.
    destruct (np_power_unit q tau Hq Ht) as (r0 & E & H0).
    rewrite (log_prior_entry_f32_value q tau r0 E H0).
    eexists. split; [reflexivity |].
    apply (log_prior_entry_chain r0 H0). }
  split.
  { intros i Hi.
    assert (Hlt : (i < length p)%nat).
    { destruct (Nat.lt_ge_cases i (length p)) as [H | H]; [exact H |].
      rewrite nth_overflow in Hi by exact H. lra. }
    unfold log_prior_f32.
    rewrite (nth_indep _ NaN (log_prior_entry_f32 1 tau))
      by (rewrite length_map; exact Hlt).
    rewrite (map_nth (fun q => log_prior_entry_f32 q tau)), Hi.
    apply log_prior_entry_f32_zero. exact Ht. }
  split; [exact Hfin |].
  intros L HL HfinL.
  pose proof (loss_adjust_shape L p tau HL) as Ha.
  pose proof (posthoc_adjust_shape L p tau HL) as Hb.
  exists (shift_rows fadd L (log_prior p tau)),
         (shift_rows fsub L (log_prior p tau)).
  split; [exact Ha |]. split.
  { apply finite_shift_rows; [exact fadd_finite | exact Hfin | exact HfinL]. }
  split; [exact Hb |].
  apply finite_shift_rows; [exact fsub_finite | exact Hfin | exact HfinL].
Qed.

Lemma adjustment_term_finite_witness :
  Forall (fun t => exists r, t = Fin r /\ -64 <= r <= 1)
         (log_prior_f32 [0; / 2] 1) /\
  exists r, nth 0 (log_prior_f32 [0; / 2] 1) NaN = Fin r /\ -64 <= r <= -16.
Proof.
  assert (Hp : Forall (fun x => 0 <= x <= 1) [0; / 2])
    by (repeat constructor; lra).
  assert (Ht : 0 < 1) by lra.
  destruct (adjustment_term_finite [0; / 2] 1 Hp Ht) as (H1 & H2 & _).
  split; [exact H1 | apply H2; reflexivity].
Defined.

(** C6 (as stated) fails: a non-negative entry can be so large that the
    cast to float32 overflows.  At the prior [2^128] (about 3.4e38) and
    temperature 1, [p^tau + 1e-12] is [2^128] in float64, the cast gives
    [+inf], and so does the logarithm. *)
Lemma adjustment_term_overflows :
  Forall (fun x => 0 <= x) [Float.bpow 128] /\ 0 < 1 /\
  log_prior_f32 [Float.bpow 128] 1 = [PInf].
Proof.
  split.
  { constructor; [left; apply FloatFacts.bpow_pos | constructor]. }
  split; [lra |].
  destruct eps_f64_value as [Ee He].
  pose proof (FloatFacts.bpow_pos (-40)) as Hp40.
  assert (H39 : Float.bpow (-39) <= 1) by (bpow_num; lra).
  assert (Hp128 : 1 < Float.bpow 128).
  { change 1 with (Float.bpow 0). apply FloatFacts.bpow_lt. lia. }
  assert (E128 : forall fmt, (0 < Float.prec fmt)%Z ->
                   (Float.emin fmt <= 128)%Z ->
                   Float.round_val fmt (Float.bpow 128) = Float.bpow 128).
  { intros fmt H1 H2. apply FloatFacts.round_val_bpow; assumption. }
  assert (Hlt : Float.bpow 128 < Float.bpow (Float.emax b64))
    by (apply FloatFacts.bpow_lt; simpl; lia).
  assert (R1 : Float.round b64 (Float.bpow 128) = Fin (Float.bpow 128)).
  { rewrite FloatFacts.round_finite;
      rewrite E128 by (try reflexivity; simpl; lia);
      [reflexivity | lra]. }
  assert (V2 : rv64 (Float.bpow 128 + rv64 eps) = Float.bpow 128).
  { assert (Hc : Float.cexp b64 (Float.bpow 128 + rv64 eps) = 76%Z).
    { unfold Float.cexp.
      rewrite (FloatFacts.mag_unique _ 129); [reflexivity |].
      rewrite Rabs_pos_eq by lra.
      change (129 - 1)%Z with 128%Z. split; [lra |].
      replace (Float.bpow 129) with (Float.bpow 128 + Float.bpow 128).
      - lra.
      - change 129%Z with (128 + 1)%Z.
        rewrite FloatFacts.bpow_add, bpow_1. lra. }
    apply (FloatFacts.round_val_near b64 _ _ (2 ^ 52)); rewrite Hc.
    - rewrite <- FloatFacts.bpow_IZR, <- FloatFacts.bpow_add by lia.
      reflexivity.
    - replace (Float.bpow 128 + rv64 eps - Float.bpow 128) with (rv64 eps)
        by ring.
      rewrite Rabs_pos_eq by lra.
      apply Rle_lt_trans with 1; [lra |].
      change 1 with (Float.bpow 0). apply FloatFacts.bpow_lt. lia. }
  assert (R2 : Float.round b64 (Float.bpow 128 + rv64 eps)
               = Fin (Float.bpow 128)).
  { rewrite FloatFacts.round_finite; rewrite V2; [reflexivity | lra]. }
  assert (R3 : Float.round b32 (Float.bpow 128) = PInf).
  { unfold Float.round. cbv zeta.
    rewrite E128 by (try reflexivity; simpl; lia).
    change (Float.emax b32) with 128%Z.
    destruct (Rle_dec (Float.bpow 128) (Float.bpow 128)) as [_ | N];
      [reflexivity | lra]. }
  unfold log_prior_f32, log_prior_entry_f32, np_power_f64.
  cbn [map]. rewrite np_power_one, Ee. cbn [Float.round_fp]. rewrite R1.
  unfold np_add_f64. cbn [fadd Float.round_fp]. rewrite R2.
  unfold tf_cast_f32. cbn [Float.round_fp]. rewrite R3.
  reflexivity.
Qed.

(** C10.  Whenever the log-prior term is a vector of finite numbers (as
    it is for every non-negative prior and positive temperature) and the
    batch has one column per class, the post-hoc adjustment subtracts
    exactly what the adjustment of the loss adds: it is the addition of the
    negated log-prior, and applying the adjustment of the loss to the
    post-hoc adjusted logits gives back [L]. *)
Theorem posthoc_shift_undone_by_loss_shift
    (L : logits_t) (p : list R) (tau : R) :
  has_classes (length p) L -> finite_vec (log_prior p tau) ->
  exists A,
    posthoc_adjust L (Some p) tau = Ok A /\
    loss_adjust A (Some p) tau = Ok L /\
    posthoc_adjust L (Some p) tau =
    broadcast fadd L (map fneg (log_prior p tau)).
Proof.
  intros HL Hfin.
  exists (shift_rows fsub L (log_prior p tau)).
  pose proof (posthoc_adjust_shape L p tau HL) as Hb.
  assert (HL' : has_classes (length (log_prior p tau)) L).
  { rewrite log_prior_length. exact HL. }
  split; [exact Hb |]. split.
  - rewrite loss_adjust_shape.
    + rewrite shift_rows_sub_add_cancel; [reflexivity | exact Hfin | exact HL'].
    + rewrite <- (log_prior_length p tau).
      apply shift_rows_classes. exact HL'.
  - rewrite Hb, shift_rows_fsub. symmetry. apply broadcast_shape.
    rewrite length_map. exact HL'.
Qed.

Lemma posthoc_shift_undone_by_loss_shift_witness :
  exists A,
    posthoc_adjust [[Fin 1; Fin 2]] (Some [/ 4; / 4]) 1 = Ok A /\
    loss_adjust A (Some [/ 4; / 4]) 1 = Ok [[Fin 1; Fin 2]].
Proof.
  assert (HL : has_classes (length [/ 4; / 4]) [[Fin 1; Fin 2]])
    by (repeat constructor).
  assert (Hfin : finite_vec (log_prior [/ 4; / 4] 1)).
  { apply log_prior_finite; [repeat constructor; lra | lra]. }
  destruct (posthoc_shift_undone_by_loss_shift
              [[Fin 1; Fin 2]] [/ 4; / 4] 1 HL Hfin) as (A & H1 & H2 & _).
  exists A. split; assumption.
Defined.

(** ** The loss function builder *)

(** C5.  Built with [use_la_loss] false, the loss function is the plain
    sparse categorical cross-entropy averaged over the batch, whatever the
    base probabilities (present or absent) and the temperature. *)
Theorem unadjusted_loss_ignores_prior
    (base_probs base_probs' : option (list R)) (tau tau' : R) :
  build_loss_fn false base_probs tau = Ok plain_loss /\
  build_loss_fn false base_probs tau = build_loss_fn false base_probs' tau' /\
  (forall labels logits,
     loss_fn false base_probs tau labels logits = plain_loss labels logits /\
     loss_fn false base_probs tau labels logits =
     loss_fn false base_probs' tau' labels logits).
Proof.
  split; [reflexivity |]. split; [reflexivity |].
  intros labels logits. split; reflexivity.
Qed.

(** C4 (as stated) fails: building the adjusted loss without base
    probabilities raises nothing. *)
Lemma building_without_base_probs_does_not_raise :
  ~ (exists e, build_loss_fn true None 1 = Raise e).
Proof. intros [e H]. discriminate H. Qed.

(** ** When the loss and the metric return *)

Lemma rmap_length {A B} (g : A -> result B) (l : list A) (l' : list B) :
  rmap g l = Ok l' -> length l' = length l.
Proof.
  revert l'. induction l as [| a l IH]; simpl; intros l' H.
  - injection H as <-. reflexivity.
  - destruct (g a) as [b |]; simpl in H; [| discriminate].
    destruct (rmap g l) as [bs |]; simpl in H; [| discriminate].
    injection H as <-. simpl. f_equal. apply IH. reflexivity.
Qed.

Lemma rmap_total {A B} (g : A -> result B) (l : list A) :
  Forall (fun a => exists b, g a = Ok b) l -> exists l', rmap g l = Ok l'.
Proof.
  induction 1 as [| a l [b Hb] _ [l' IH]]; simpl.
  - exists []. reflexivity.
  - rewrite Hb, IH. simpl. exists (b :: l'). reflexivity.
Qed.

Lemma cross_entropy_total (C : nat) (labels : labels_t) (L : logits_t) :
  has_classes C L -> length labels = length L ->
  Forall (fun y => (0 <= y < Z.of_nat C)%Z) labels ->
  exists v, sparse_softmax_cross_entropy_with_logits labels L = Ok v.
Proof.
  intros HL Hlen Hy. unfold sparse_softmax_cross_entropy_with_logits.
  rewrite Hlen, Nat.eqb_refl. apply rmap_total.
  revert L HL Hlen.
  induction Hy as [| y labels Hy _ IH]; intros [| row L] HL Hlen;
    simpl in *; try discriminate; constructor.
  - pose proof (Forall_inv HL) as Hrow. simpl in Hrow.
    unfold cross_entropy_row. simpl. rewrite Hrow.
    destruct (Z.leb_spec 0 y); [| lia].
    destruct (Z.ltb_spec y (Z.of_nat C)); [| lia].
    simpl. eexists. reflexivity.
  - apply IH; [exact (Forall_inv_tail HL) | lia].
Qed.

Lemma loss_fn_total (use : bool) (p : list R) (tau : R)
    (labels : labels_t) (L : logits_t) :
  has_classes (length p) L -> length labels = length L ->
  Forall (fun y => (0 <= y < Z.of_nat (length p))%Z) labels ->
  exists v, loss_fn use (Some p) tau labels L = Ok v.
Proof.
  intros HL Hlen Hy. unfold loss_fn. destruct use.
  - rewrite (loss_adjust_shape L p tau HL). cbn [rbind].
    destruct (cross_entropy_total (length p) labels
                (shift_rows fadd L (log_prior p tau))) as [v Hv].
    + rewrite <- (log_prior_length p tau). apply shift_rows_classes.
      rewrite log_prior_length. exact HL.
    + unfold shift_rows. rewrite length_map. exact Hlen.
    + exact Hy.
    + rewrite Hv. simpl. eexists. reflexivity.
  - cbn [rbind].
    destruct (cross_entropy_total (length p) labels L HL Hlen Hy) as [v Hv].
    rewrite Hv. simpl. eexists. reflexivity.
Qed.

Lemma update_state_total (C : nat) (m : metric) (labels : labels_t)
    (L : logits_t) :
  (0 < C)%nat -> has_classes C L -> length labels = length L ->
  exists m', update_state m labels L = Ok m'.
Proof.
  intros HC HL Hlen. unfold update_state.
  rewrite Hlen, Nat.eqb_refl.
  destruct (rmap_total argmax L) as [preds Hp].
  - eapply Forall_impl; [| exact HL].
    intros [| x row] Hrow; simpl in *; [lia |].
    eexists. reflexivity.
  - rewrite Hp. simpl. eexists. reflexivity.
Qed.

(** ** Shifting every class by the same finite constant *)

Lemma fltb_shift (a b : fp) (k : R) :
  fltb (fsub a (Fin k)) (fsub b (Fin k)) = fltb a b.
Proof.
  destruct a as [x | | |], b as [y | | |]; simpl; try reflexivity.
  destruct (Rlt_dec (x + - k) (y + - k)), (Rlt_dec x y);
    try reflexivity; lra.
Qed.

Lemma fltb_irrefl (a : fp) : fltb a a = false.
Proof.
  destruct a as [x | | |]; simpl; try reflexivity.
  destruct (Rlt_dec x x); [lra | reflexivity].
Qed.

Lemma argmax_from_shift (k : R) (l : list fp) (bi i : nat) (best : fp) :
  argmax_from bi (fsub best (Fin k)) i (map (fun x => fsub x (Fin k)) l) =
  argmax_from bi best i l.
Proof.
  revert bi i best. induction l as [| x l IH]; intros bi i best; simpl.
  - reflexivity.
  - rewrite fltb_shift. destruct (fltb best x); apply IH.
Qed.

Lemma argmax_shift (k : R) (row : list fp) :
  argmax (map (fun x => fsub x (Fin k)) row) = argmax row.
Proof.
  destruct row as [| x l]; simpl; [reflexivity |].
  rewrite argmax_from_shift. reflexivity.
Qed.

Lemma argmax_from_const (best : fp) (l : list fp) (bi i : nat) :
  Forall (fun x => x = best) l -> argmax_from bi best i l = bi.
Proof.
  intros H. revert i. induction H as [| x l Hx _ IH]; intros i; simpl.
  - reflexivity.
  - subst x. rewrite fltb_irrefl. apply IH.
Qed.

Lemma combine_repeat (op : fp -> fp -> fp) (c : fp) (row : list fp) :
  map (fun xs => op (fst xs) (snd xs)) (combine row (repeat c (length row)))
  = map (fun x => op x c) row.
Proof.
  induction row as [| x row IH]; simpl; [reflexivity |].
  f_equal. exact IH.
Qed.

(** Whatever way a uniform vector is broadcast against a row, the first
    largest entry stays where it is. *)
Lemma argmax_uniform_row (k : R) (n : nat) (row row' : list fp) (i : Z) :
  broadcast_row fsub row (repeat (Fin k) n) = Ok row' ->
  argmax row' = Ok i -> argmax row = Ok i.
Proof.
  unfold broadcast_row. rewrite repeat_length.
  destruct (Nat.eqb_spec (length row) n) as [E | NE].
  - subst n. rewrite combine_repeat. intros H. injection H as <-.
    rewrite argmax_shift. trivial.
  - destruct n as [| [| n]]; simpl.
    + destruct row as [| x [| x' row]]; intros H; try discriminate H.
      injection H as <-. simpl. discriminate.
    + intros H. injection H as <-. rewrite argmax_shift. trivial.
    + destruct row as [| x [| x' row]]; intros H; try discriminate H.
      injection H as <-. simpl.
      rewrite fltb_irrefl.
      rewrite argmax_from_const; [trivial |].
      apply Forall_map. clear. induction n; simpl; constructor; auto.
Qed.

Lemma argmax_uniform_batch (k : R) (n : nat) (L L' : logits_t)
    (preds : list Z) :
  broadcast fsub L (repeat (Fin k) n) = Ok L' ->
  rmap argmax L' = Ok preds -> rmap argmax L = Ok preds.
Proof.
  unfold broadcast. revert L' preds.
  induction L as [| row L IH]; simpl; intros L' preds H HP.
  - injection H as <-. exact HP.
  - destruct (broadcast_row fsub row (repeat (Fin k) n)) as [row' |] eqn:Er;
      simpl in H; [| discriminate].
    destruct (rmap (fun r => broadcast_row fsub r (repeat (Fin k) n)) L)
      as [L1 |] eqn:EL; simpl in H; [| discriminate].
    injection H as <-. simpl in HP.
    destruct (argmax row') as [i |] eqn:Ei; simpl in HP; [| discriminate].
    destruct (rmap argmax L1) as [ps |] eqn:Eps; simpl in HP; [| discriminate].
    rewrite (argmax_uniform_row k n row row' i Er Ei). simpl.
    rewrite (IH L1 ps eq_refl Eps). simpl. exact HP.
Qed.

Lemma log_prior_uniform (c : R) (n : nat) :
  0 <= c -> log_prior (repeat c n) 1 = repeat (Fin (ln (c + eps))) n.
Proof.
  intros Hc. unfold log_prior.
  induction n as [| n IH]; simpl; [reflexivity |].
  rewrite IH. f_equal.
  rewrite np_power_one. unfold tf_cast. cbn [fadd].
  apply tf_math_log_pos. pose proof eps_pos. lra.
Qed.

(** With a uniform prior the metric counts the adjusted logits as it
    counts the raw ones. *)
Lemma update_state_uniform (c : R) (n : nat) (m m' : metric)
    (labels : labels_t) (L L' : logits_t) :
  0 <= c ->
  posthoc_adjust L (Some (repeat c n)) 1 = Ok L' ->
  update_state m labels L' = Ok m' -> update_state m labels L = Ok m'.
Proof.
  intros Hc HA. unfold posthoc_adjust in HA. simpl in HA.
  rewrite (log_prior_uniform c n Hc) in HA.
  pose proof (rmap_length _ _ _ HA) as Hlen.
  unfold update_state. rewrite Hlen.
  destruct (Nat.eqb (length labels) (length L)); [| trivial].
  destruct (rmap argmax L') as [preds |] eqn:EP; simpl; [| discriminate].
  rewrite (argmax_uniform_batch _ n L L' preds HA EP). trivial.
Qed.

(** ** The model on concrete inputs *)

Lemma fltb_lt (x y : R) : x < y -> fltb (Fin x) (Fin y) = true.
Proof.
  intros H. simpl. destruct (Rlt_dec x y); [reflexivity | contradiction].
Qed.

Lemma fltb_ge (x y : R) : y <= x -> fltb (Fin x) (Fin y) = false.
Proof.
  intros H. simpl. destruct (Rlt_dec x y); [lra | reflexivity].
Qed.

Example base_probs_path_default :
  base_probs_path FLAGS = "data/cifar10-lt_base_probs.txt"%string.
Proof. reflexivity. Qed.

Example os_path_join_absolute :
  os_path_join "data" "/tmp/p.txt" = "/tmp/p.txt"%string /\
  os_path_join "data/" "p.txt" = "data/p.txt"%string.
Proof. split; reflexivity. Qed.

(** The first of two largest entries is the prediction. *)
Example argmax_first_largest :
  argmax [Fin 0; Fin 2; Fin 1; Fin 2] = Ok 1%Z.
Proof.
  unfold argmax. cbn [argmax_from].
  rewrite (fltb_lt 0 2) by lra. rewrite (fltb_ge 2 1) by lra.
  rewrite (fltb_ge 2 2) by lra. reflexivity.
Qed.

Example update_state_hit :
  update_state metric0 [1%Z] (Demo.model 0%nat tt true)
  = Ok {| total := 1; count := 1 |}.
Proof.
  unfold update_state, Demo.model. cbn [length Nat.eqb rmap argmax].
  cbn [argmax_from].
  rewrite (fltb_lt 0 2) by lra. rewrite (fltb_ge 2 1) by lra.
  rewrite (fltb_ge 2 0) by lra. reflexivity.
Qed.

Example update_state_miss :
  update_state metric0 [2%Z] (Demo.model 0%nat tt false)
  = Ok {| total := 0; count := 1 |}.
Proof.
  unfold update_state, Demo.model. cbn [length Nat.eqb rmap argmax].
  cbn [argmax_from].
  rewrite (fltb_lt 0 2) by lra. rewrite (fltb_ge 2 1) by lra.
  rewrite (fltb_ge 2 0) by lra. reflexivity.
Qed.

Example metric_result_empty : metric_result metric0 = Fin 0.
Proof. reflexivity. Qed.

Example broadcast_incompatible :
  broadcast_row fadd [Fin 0; Fin 1] [Fin 0; Fin 1; Fin 2]
  = Raise InvalidArgumentError.
Proof. reflexivity. Qed.

Example labels_out_of_range :
  plain_loss [4%Z] (Demo.model 0%nat tt true) = Raise InvalidArgumentError.
Proof. reflexivity. Qed.

Example adjusted_loss_without_base_probs :
  loss_fn true None 1 [1%Z] (Demo.model 0%nat tt true) = Raise TypeError.
Proof. reflexivity. Qed.

(** ** A uniform prior in floating point *)

Lemma ln2_le_3_4 : ln 2 <= 3 / 4.
Proof.
  assert (A1 : 1 + 3 / 32 <= exp (3 / 32)) by apply exp_ineq1_le.
  assert (A2 : 1196 / 1000 <= exp (3 / 16)).
  { replace (3 / 16) with (3 / 32 + 3 / 32) by lra. rewrite exp_plus. nra. }
  assert (A4 : 143 / 100 <= exp (3 / 8)).
  { replace (3 / 8) with (3 / 16 + 3 / 16) by lra. rewrite exp_plus. nra. }
  assert (A8 : 2 <= exp (3 / 4)).
  { replace (3 / 4) with (3 / 8 + 3 / 8) by lra. rewrite exp_plus. nra. }
  rewrite <- (ln_exp (3 / 4)). apply ln_le; lra.
Qed.

Lemma ln_9_16 : ln (9 / 16) <= - / 2.
Proof.
  pose proof (exp_pos (/ 2)) as Hh.
  assert (H2 : exp (/ 2) * exp (/ 2) <= 3).
  { rewrite <- exp_plus. replace (/ 2 + / 2) with 1 by lra.
    exact exp_le_3. }
  assert (Hh' : exp (/ 2) <= 16 / 9) by nra.
  assert (Hm : exp (- / 2) * exp (/ 2) = 1).
  { rewrite <- exp_plus. replace (- / 2 + / 2) with 0 by lra.
    exact exp_0. }
  pose proof (exp_pos (- / 2)) as Hg.
  assert (H : 9 / 16 <= exp (- / 2)) by nra.
  rewrite <- (ln_exp (- / 2)). apply ln_le; lra.
Qed.

(** For the prior 1/2 at temperature 1 the float32 log-prior term is a
    multiple of [2^-24] between -3/4 and -1/2 (it is about -0.6931). *)
Lemma log_prior_entry_f32_half :
  exists (k : R) (n : Z),
    log_prior_entry_f32 (/ 2) 1 = Fin k /\
    k = IZR n * Float.bpow (-24) /\ - (3 / 4) <= k <= - / 2.
Proof.
  assert (H0 : 0 <= / 2 <= 1) by lra.
  rewrite (log_prior_entry_f32_value (/ 2) 1 (/ 2) (np_power_one _) H0).
  destruct eps_f64_value as [_ He].
  assert (H40 : 0 < Float.bpow (-40)) by apply FloatFacts.bpow_pos.
  assert (H39 : Float.bpow (-39) <= / 16) by (bpow_num; lra).
  assert (Eh : forall fmt, (0 < Float.prec fmt)%Z ->
                 (Float.emin fmt <= -1)%Z ->
                 Float.round_val fmt (/ 2) = / 2).
  { intros fmt Hp Hm.
    replace (/ 2) with (Float.bpow (-1)) by (bpow_num; lra).
    apply FloatFacts.round_val_bpow; assumption. }
  assert (E9 : forall fmt, (4 < Float.prec fmt)%Z ->
                 (Float.emin fmt <= -4)%Z ->
                 Float.round_val fmt (9 / 16) = 9 / 16).
  { intros fmt Hp Hm.
    replace (9 / 16) with (IZR 9 * Float.bpow (-4)) by (bpow_num; lra).
    apply FloatFacts.round_val_exact; [lia | | exact Hm].
    apply Z.lt_le_trans with (2 ^ 4)%Z; [simpl; lia |].
    apply Z.pow_le_mono_r; lia. }
  rewrite (Eh b64) by (simpl; lia).
  set (r2 := rv64 (/ 2 + rv64 eps)).
  assert (B2 : / 2 <= r2 <= 9 / 16).
  { split.
    - rewrite <- (Eh b64) at 1 by (simpl; lia).
      apply FloatFacts.round_val_le; [reflexivity | lra].
    - rewrite <- (E9 b64) by (simpl; lia).
      apply FloatFacts.round_val_le; [reflexivity | lra]. }
  set (r3 := rv32 r2).
  assert (B3 : / 2 <= r3 <= 9 / 16).
  { split.
    - rewrite <- (Eh b32) at 1 by (simpl; lia).
      apply FloatFacts.round_val_le; [reflexivity | apply B2].
    - rewrite <- (E9 b32) by (simpl; lia).
      apply FloatFacts.round_val_le; [reflexivity | apply B2]. }
  assert (BL : - (3 / 4) <= ln r3 <= - / 2).
  { split.
    - apply Rle_trans with (ln (/ 2)).
      + rewrite ln_Rinv by lra. pose proof ln2_le_3_4. lra.
      + apply ln_le; lra.
    - apply Rle_trans with (ln (9 / 16)); [| exact ln_9_16].
      apply ln_le; lra. }
  assert (Hc : Float.cexp b32 (ln r3) = (-24)%Z).
  { unfold Float.cexp. rewrite (FloatFacts.mag_unique _ 0); [reflexivity |].
    rewrite Rabs_left by lra. change (0 - 1)%Z with (-1)%Z.
    change (Float.bpow 0) with 1. bpow_num. lra. }
  exists (rv32 (ln r3)), (Float.nearest_even (ln r3 * Float.bpow (- -24))).
  split; [reflexivity |]. split.
  - unfold Float.round_val. rewrite Hc. reflexivity.
  - split.
    + replace (- (3 / 4)) with (rv32 (- (3 / 4))).
      * apply FloatFacts.round_val_le; [reflexivity | apply BL].
      * replace (- (3 / 4)) with (IZR (-3) * Float.bpow (-2))
          by (bpow_num; lra).
        apply FloatFacts.round_val_exact; [reflexivity | simpl; lia
                                          | simpl; lia].
    + replace (- / 2) with (rv32 (- / 2)).
      * apply FloatFacts.round_val_le; [reflexivity | apply BL].
      * rewrite FloatFacts.round_val_opp. f_equal.
        apply Eh; simpl; lia.
Qed.

(** A logit of at most [2^-59] is absorbed by the subtraction of such a
    term. *)
Lemma tiny_logit_absorbed (k d : R) (n : Z) :
  k = IZR n * Float.bpow (-24) -> - (3 / 4) <= k <= - / 2 ->
  0 < d <= Float.bpow (-59) ->
  tf_subtract_f32 (Fin d) (Fin k) = Fin (- k).
Proof.
  intros Hk Bk Bd.
  assert (H59 : Float.bpow (-59) < Float.bpow (-25))
    by (apply FloatFacts.bpow_lt; lia).
  assert (H25 : Float.bpow (-25) <= / 8) by (bpow_num; lra).
  unfold tf_subtract_f32, fsub. cbn [fneg fadd Float.round_fp].
  assert (Hc : Float.cexp b32 (d + - k) = (-24)%Z).
  { unfold Float.cexp. rewrite (FloatFacts.mag_unique _ 0); [reflexivity |].
    rewrite Rabs_pos_eq by lra. change (0 - 1)%Z with (-1)%Z.
    change (Float.bpow 0) with 1. bpow_num. lra. }
  assert (V : rv32 (d + - k) = - k).
  { apply (FloatFacts.round_val_near b32 _ _ (- n)); rewrite Hc.
    - rewrite opp_IZR, Hk. ring.
    - replace (d + - k - - k) with d by ring.
      rewrite Rabs_pos_eq by lra. change (-24 - 1)%Z with (-25)%Z. lra. }
  rewrite FloatFacts.round_finite; rewrite V; [reflexivity |].
  assert (H128 : 1 < Float.bpow (Float.emax b32)).
  { change 1 with (Float.bpow 0). apply FloatFacts.bpow_lt. simpl. lia. }
  lra.
Qed.

(** The rounded subtraction keeps the order of two logits. *)
Lemma tf_subtract_f32_order (k a b : R) :
  a <= b ->
  fltb (tf_subtract_f32 (Fin b) (Fin k)) (tf_subtract_f32 (Fin a) (Fin k))
  = false.
Proof.
  intros H. unfold tf_subtract_f32, fsub. cbn [fneg fadd Float.round_fp].
  apply (FloatFacts.round_fltb_le b32 prec32_pos). lra.
Qed.

Lemma keeps_apart_agree (k : R) (row : list fp) :
  finite_vec row ->
  keeps_apart (fun x => tf_subtract_f32 x (Fin k)) row ->
  forall a b, In a row -> In b row ->
    fltb (tf_subtract_f32 a (Fin k)) (tf_subtract_f32 b (Fin k))
    = fltb a b.
Proof.
  intros Hfin Hk a b Ha Hb.
  destruct (fltb a b) eqn:E; [exact (Hk a b Ha Hb E) |].
  unfold finite_vec in Hfin. rewrite Forall_forall in Hfin.
  pose proof (Hfin a Ha) as Fa. pose proof (Hfin b Hb) as Fb.
  destruct a as [x | | |]; try discriminate Fa.
  destruct b as [y | | |]; try discriminate Fb.
  apply tf_subtract_f32_order.
  simpl in E. destruct (Rlt_dec x y); [discriminate | lra].
Qed.

Lemma argmax_from_agree (g : fp -> fp) (l : list fp) (bi i : nat)
    (best : fp) :
  (forall a b, In a (best :: l) -> In b (best :: l) ->
     fltb (g a) (g b) = fltb a b) ->
  argmax_from bi (g best) i (map g l) = argmax_from bi best i l.
Proof.
  revert bi i best. induction l as [| x l IH]; intros bi i best H.
  - reflexivity.
  - cbn [map argmax_from].
    rewrite (H best x) by (simpl; auto).
    destruct (fltb best x); apply IH; intros a b Ha Hb; apply H;
      simpl in *; tauto.
Qed.

Lemma argmax_agree (g : fp -> fp) (row : list fp) :
  (forall a b, In a row -> In b row -> fltb (g a) (g b) = fltb a b) ->
  argmax (map g row) = argmax row.
Proof.
  destruct row as [| x l]; [reflexivity |]. intros H.
  cbn [map argmax]. rewrite (argmax_from_agree g l 0 1 x H). reflexivity.
Qed.

Lemma shift_rows_repeat (op : fp -> fp -> fp) (c : fp) (n : nat)
    (L : logits_t) :
  has_classes n L ->
  shift_rows op L (repeat c n) = map (map (fun x => op x c)) L.
Proof.
  intros HL. unfold shift_rows. apply map_ext_in. intros row Hrow.
  unfold has_classes in HL. rewrite Forall_forall in HL.
  rewrite <- (HL row Hrow). apply combine_repeat.
Qed.

Lemma log_prior_f32_repeat (c tau : R) (n : nat) :
  log_prior_f32 (repeat c n) tau = repeat (log_prior_entry_f32 c tau) n.
Proof.
  unfold log_prior_f32.
  induction n as [| n IH]; simpl; [reflexivity | f_equal; exact IH].
Qed.

Lemma posthoc_adjust_f32_uniform (c tau : R) (n : nat) (L : logits_t) :
  has_classes n L ->
  posthoc_adjust_f32 L (Some (repeat c n)) tau
  = Ok (map (map (fun x => tf_subtract_f32 x (log_prior_entry_f32 c tau)))
            L).
Proof.
  intros HL. unfold posthoc_adjust_f32, log_prior_of_f32. cbn [rbind].
  rewrite log_prior_f32_repeat, broadcast_shape
    by (rewrite repeat_length; exact HL).
  rewrite (shift_rows_repeat _ _ n L HL). reflexivity.
Qed.

Lemma rmap_argmax_agree (g : fp -> fp) (L : logits_t) :
  Forall (fun row => forall a b, In a row -> In b row ->
                       fltb (g a) (g b) = fltb a b) L ->
  rmap argmax (map (map g) L) = rmap argmax L.
Proof.
  induction 1 as [| row L Hrow _ IH]; [reflexivity |].
  cbn [map rmap]. rewrite (argmax_agree g row Hrow), IH. reflexivity.
Qed.

Lemma update_state_agree (g : fp -> fp) (m : metric) (labels : labels_t)
    (L : logits_t) :
  Forall (fun row => forall a b, In a row -> In b row ->
                       fltb (g a) (g b) = fltb a b) L ->
  update_state m labels (map (map g) L) = update_state m labels L.
Proof.
  intros H. unfold update_state.
  rewrite length_map, (rmap_argmax_agree g L H). reflexivity.
Qed.

(** C7 (as amended).  With a prior whose [n] entries all equal [c] in
    [0, 1] and temperature 1, the post-hoc adjustment as the program
    evaluates it subtracts from every logit the same finite float32
    number [k = log(c + 1e-12)] and rounds the difference to float32.  The
    rounded shift keeps the order of any two logits, but it can merge two
    logits that differ by less than the rounding step.  On a batch in
    which it merges no two distinct logits of a row the accuracy metric
    counts the adjusted logits as it counts the raw ones, and so over
    every stream of such batches the adjusted accumulator equals the
    plain one. *)
Theorem uniform_prior_accuracy_unchanged_unless_logits_merge
    (c : R) (n : nat) :
  0 <= c <= 1 ->
  exists k : R,
    -64 <= k <= 1 /\
    log_prior_f32 (repeat c n) 1 = repeat (Fin k) n /\
    (forall L, has_classes n L ->
       posthoc_adjust_f32 L (Some (repeat c n)) 1
       = Ok (map (map (fun x => tf_subtract_f32 x (Fin k))) L)) /\
    (forall a b : R, a <= b ->
       fltb (tf_subtract_f32 (Fin b) (Fin k))
            (tf_subtract_f32 (Fin a) (Fin k)) = false) /\
    (forall L labels m,
       has_classes n L -> Forall finite_vec L ->
       Forall (keeps_apart (fun x => tf_subtract_f32 x (Fin k))) L ->
       exists L',
         posthoc_adjust_f32 L (Some (repeat c n)) 1 = Ok L' /\
         update_state m labels L' = update_state m labels L) /\
    (forall (batches : list (labels_t * logits_t)) m,
       Forall (fun b =>
                 has_classes n (snd b) /\ Forall finite_vec (snd b) /\
                 Forall (keeps_apart (fun x => tf_subtract_f32 x (Fin k)))
                        (snd b)) batches ->
       exists adjusted,
         rmap (fun b => posthoc_adjust_f32 (snd b) (Some (repeat c n)) 1)
              batches = Ok adjusted /\
         accumulate m (combine (map fst batches) adjusted)
         = accumulate m batches).
Proof.
  intros Hc.
  assert (Ht : 0 < 1) by lra.
  destruct (np_power_unit c 1 Hc Ht) as (r0 & E & H0).
  pose proof (log_prior_entry_f32_value c 1 r0 E H0) as Ek.
  destruct (log_prior_entry_chain r0 H0) as (_ & _ & _ & (_ & Bk)).
  set (k := rv32 (ln (rv32 (rv64 (rv64 r0 + rv64 eps))))) in *.
  assert (Hbatch : forall L labels m,
            has_classes n L -> Forall finite_vec L ->
            Forall (keeps_apart (fun x => tf_subtract_f32 x (Fin k))) L ->
            update_state m labels
              (map (map (fun x => tf_subtract_f32 x (Fin k))) L)
            = update_state m labels L).
  { intros L labels m HL Hfin Hk. apply update_state_agree.
    rewrite Forall_forall in *. intros row Hrow.
    apply keeps_apart_agree; [apply Hfin | apply Hk]; exact Hrow. }
  exists k. split; [exact Bk |]. split.
  { rewrite log_prior_f32_repeat, Ek. reflexivity. }
  split.
  { intros L HL. rewrite (posthoc_adjust_f32_uniform c 1 n L HL), Ek.
    reflexivity. }
  split; [intros a b; apply tf_subtract_f32_order |].
  split.
  { intros L labels m HL Hfin Hk. eexists. split.
    - rewrite (posthoc_adjust_f32_uniform c 1 n L HL), Ek. reflexivity.
    - apply Hbatch; assumption. }
  intros batches m H. revert m.
  induction H as [| b batches (HL & Hfin & Hk) _ IH]; intros m.
  - exists []. split; reflexivity.
  - destruct b as [labels L]. cbn [snd fst] in *.
    destruct (IH m) as (adjusted & Er & _).
    exists (map (map (fun x => tf_subtract_f32 x (Fin k))) L :: adjusted).
    split.
    + cbn [rmap snd].
      rewrite (posthoc_adjust_f32_uniform c 1 n L HL), Ek. cbn [rbind].
      rewrite Er. reflexivity.
    + cbn [map combine accumulate fst snd].
      rewrite (Hbatch L labels m HL Hfin Hk).
      destruct (update_state m labels L) as [m1 | e]; [| reflexivity].
      cbn [rbind]. destruct (IH m1) as (adjusted' & Er' & Ea).
      rewrite Er in Er'. injection Er' as <-. exact Ea.
Qed.

(** Two logits of moderate size that differ by 1 or more are not merged
    by the subtraction of a log-prior term. *)
Lemma unit_gap_survives (k a b : R) :
  -64 <= k <= 1 -> -64 <= a -> b <= 64 -> a + 1 <= b ->
  fltb (tf_subtract_f32 (Fin a) (Fin k)) (tf_subtract_f32 (Fin b) (Fin k))
  = true.
Proof.
  intros Bk Ba Bb Hab.
  unfold tf_subtract_f32, fsub. cbn [fneg fadd Float.round_fp].
  assert (H8 : Float.bpow 8 = 256) by (bpow_num; reflexivity).
  assert (H17 : Float.bpow (8 - Float.prec b32 - 1) <= / 4).
  { change (8 - Float.prec b32 - 1)%Z with (-17)%Z. bpow_num. lra. }
  assert (Hmax : 512 < Float.bpow (Float.emax b32)).
  { replace 512 with (Float.bpow 9) by (bpow_num; reflexivity).
    apply FloatFacts.bpow_lt. simpl. lia. }
  assert (Err : forall x, -200 <= x <= 200 ->
                  Rabs (rv32 x - x) <= / 4).
  { intros x Hx. apply Rle_trans with (2 := H17).
    apply (FloatFacts.round_val_error_below b32);
      [| simpl; lia].
    rewrite H8. apply Rabs_def1; lra. }
  pose proof (Err (a + - k) ltac:(lra)) as Ea.
  pose proof (Err (b + - k) ltac:(lra)) as Eb.
  apply FloatFacts.Rabs_le_inv in Ea, Eb.
  rewrite !FloatFacts.round_finite by lra.
  apply fltb_lt. lra.
Qed.

Lemma uniform_prior_accuracy_unchanged_unless_logits_merge_witness :
  exists L',
    posthoc_adjust_f32 [[Fin 0; Fin 1]] (Some [/ 4; / 4]) 1 = Ok L' /\
    update_state metric0 [1%Z] L'
    = update_state metric0 [1%Z] [[Fin 0; Fin 1]].
Proof.
  assert (Hc : 0 <= / 4 <= 1) by lra.
  destruct (uniform_prior_accuracy_unchanged_unless_logits_merge
              (/ 4) 2 Hc) as (k & Bk & _ & _ & _ & Hbatch & _).
  apply (Hbatch [[Fin 0; Fin 1]] [1%Z] metric0).
  - repeat constructor.
  - repeat constructor.
  - constructor; [| constructor].
    intros a b Ha Hb Hlt.
    assert (Hab : a = Fin 0 /\ b = Fin 1).
    { simpl in Ha, Hb.
      destruct Ha as [<- | [<- | []]]; destruct Hb as [<- | [<- | []]];
        simpl in Hlt;
        try (destruct (Rlt_dec 0 0); [lra | discriminate Hlt]);
        try (destruct (Rlt_dec 1 0); [lra | discriminate Hlt]);
        try (destruct (Rlt_dec 1 1); [lra | discriminate Hlt]).
      split; reflexivity. }
    destruct Hab as [-> ->].
    apply unit_gap_survives; lra.
Defined.

(** C7 (as stated) fails in float32.  With the uniform prior [1/2, 1/2]
    and temperature 1 the term is about -0.6931; the logits [2^-60] and
    [2^-59] of one example both become 0.6931..., so the first largest
    adjusted logit is that of class 0 while the largest raw logit is that
    of class 1: for the label 1 the raw accuracy is 1 and the adjusted
    accuracy is 0. *)
Lemma uniform_prior_changes_accuracy_in_float32 :
  exists L' m_raw m_adj,
    posthoc_adjust_f32
      [[Fin (Float.bpow (-60)); Fin (Float.bpow (-59))]]
      (Some (repeat (/ 2) 2)) 1 = Ok L' /\
    update_state metric0 [1%Z]
      [[Fin (Float.bpow (-60)); Fin (Float.bpow (-59))]] = Ok m_raw /\
    update_state metric0 [1%Z] L' = Ok m_adj /\
    metric_result m_raw = Fin 1 /\
    metric_result m_adj = Fin 0.
Proof.
  destruct log_prior_entry_f32_half as (k & n & Ek & Hk & Bk).
  assert (H60 : 0 < Float.bpow (-60) <= Float.bpow (-59)).
  { split; [apply FloatFacts.bpow_pos | apply FloatFacts.bpow_le; lia]. }
  assert (H59 : 0 < Float.bpow (-59) <= Float.bpow (-59)).
  { split; [apply FloatFacts.bpow_pos | lra]. }
  exists [[Fin (- k); Fin (- k)]],
         {| total := 1; count := 1 |}, {| total := 0; count := 1 |}.
  split.
  { rewrite posthoc_adjust_f32_uniform by (repeat constructor).
    rewrite Ek. cbn [map].
    rewrite (tiny_logit_absorbed k _ n Hk Bk H60).
    rewrite (tiny_logit_absorbed k _ n Hk Bk H59). reflexivity. }
  split.
  { unfold update_state. cbn [length Nat.eqb rmap argmax argmax_from rbind].
    rewrite fltb_lt by (apply FloatFacts.bpow_lt; lia). reflexivity. }
  split.
  { unfold update_state. cbn [length Nat.eqb rmap argmax argmax_from rbind].
    rewrite fltb_irrefl. reflexivity. }
  split; unfold metric_result; simpl; f_equal; lra.
Qed.

(** ** The loop *)

Ltac unfold_stmt :=
  unfold train_step, test_step, report_train, report_test, create_metrics,
    bind, gets, lift, modify, ret; cbn beta iota delta [fst snd].

Ltac break_match :=
  repeat match goal with
  | |- context [match ?x with _ => _ end] =>
      lazymatch x with
      | context [match _ with _ => _ end] => fail
      | _ => destruct x eqn:?
      end
  end.

Section LoopProperties.

Variables X W : Type.
Variable model : W -> X -> bool -> logits_t.
Variable model_losses : W -> fp.
Variable apply_gradients : (W -> result fp) -> W -> W.
Variable dataset_mappings : string -> dataset_info.
Variable train_dataset : nat -> list (X * labels_t).
Variable test_dataset : list (X * labels_t).

Local Abbreviation train_step_ :=
  (train_step model model_losses apply_gradients).
Local Abbreviation test_step_ := (test_step model).
Local Abbreviation run_epoch_ :=
  (run_epoch model model_losses apply_gradients train_dataset test_dataset).
Local Abbreviation main_ :=
  (main model model_losses apply_gradients dataset_mappings train_dataset
        test_dataset).

(** *** Rules for assertions *)

Lemma triple_bind {A B} (P : world W -> Prop) (m : M W A) (k : A -> M W B)
    (Q1 : A -> world W -> Prop) (Q : B -> world W -> Prop)
    (E : world W -> Prop) :
  triple P m Q1 E -> (forall a, triple (Q1 a) (k a) Q E) ->
  triple P (bind m k) Q E.
Proof.
  intros Hm Hk s Hs. unfold bind. specialize (Hm s Hs).
  destruct (m s) as [s1 [a | e]]; [apply Hk; exact Hm | exact Hm].
Qed.

Lemma triple_ret {A} (P : world W -> Prop) (a : A) (E : world W -> Prop) :
  triple P (ret a) (fun _ => P) E.
Proof. intros s Hs. exact Hs. Qed.

Lemma triple_modify (P Q : world W -> Prop) (g : world W -> world W)
    (E : world W -> Prop) :
  (forall s, P s -> Q (g s)) -> triple P (modify g) (fun _ => Q) E.
Proof. intros H s Hs. apply H. exact Hs. Qed.

Lemma triple_lift_keep {A} (P : world W -> Prop) (r : result A) :
  triple P (lift r) (fun _ => P) P.
Proof. intros s Hs. unfold lift. destruct r; exact Hs. Qed.

Lemma triple_for_each {A} (I E : world W -> Prop) (body : A -> M W unit)
    (l : list A) :
  (forall a, In a l -> triple I (body a) (fun _ => I) E) ->
  triple I (for_each body l) (fun _ => I) E.
Proof.
  induction l as [| a l IH]; intros Hb; simpl.
  - apply triple_ret.
  - eapply triple_bind.
    + apply Hb. left. reflexivity.
    + intros u. apply IH. intros a' Ha'. apply Hb. right. exact Ha'.
Qed.

(** *** The accuracy metrics see the raw logits *)

(** C8.  In every mode, so also with the adjusted loss of mode [loss],
    a training batch updates the training accuracy with the labels and
    the logits of the forward pass as the model returned them, and an
    evaluation batch updates the test accuracy with the labels and the
    logits of the forward pass; a batch that raises leaves the accumulator
    as it was or updated in that same way. *)
Theorem accuracy_metrics_take_raw_logits
    (f : flags) (base_probs : option (list R)) (bpe : Z) (epoch step : nat)
    (x : X) (y : labels_t) (s s' : world W) (r : result unit) :
  (train_step_ (loss_fn (use_la_loss f) base_probs (tau f)) bpe epoch
               (step, (x, y)) s = (s', r) ->
   (r = Ok tt ->
    update_state (train_acc_metric s) y (model (weights s) x true)
    = Ok (train_acc_metric s')) /\
   (train_acc_metric s' = train_acc_metric s \/
    update_state (train_acc_metric s) y (model (weights s) x true)
    = Ok (train_acc_metric s')) /\
   test_acc_metric s' = test_acc_metric s) /\
  (test_step_ f base_probs (x, y) s = (s', r) ->
   (r = Ok tt ->
    update_state (test_acc_metric s) y (model (weights s) x false)
    = Ok (test_acc_metric s')) /\
   (test_acc_metric s' = test_acc_metric s \/
    update_state (test_acc_metric s) y (model (weights s) x false)
    = Ok (test_acc_metric s')) /\
   train_acc_metric s' = train_acc_metric s).
Proof.
  split.
  - unfold_stmt.
    destruct (loss_fn (use_la_loss f) base_probs (tau f) y
                (model (weights s) x true)) as [l | e].
    + cbn [train_acc_metric set_weights weights].
      destruct (update_state (train_acc_metric s) y
                  (model (weights s) x true)) as [m' | e] eqn:Em.
      * destruct (Nat.eqb (step mod 1000) 0); intros H;
          injection H as <- <-; simpl; auto.
      * intros H. injection H as <- <-. simpl.
        split; [discriminate | auto].
    + intros H. injection H as <- <-. split; [discriminate | auto].
  - unfold_stmt. cbn [test_acc_metric weights].
    destruct (update_state (test_acc_metric s) y
                (model (weights s) x false)) as [m' | e] eqn:Em.
    + break_match; intros H; injection H as <- <-; simpl;
        (split; [try discriminate; auto | auto]).
    + intros H. injection H as <- <-. split; [discriminate | auto].
Qed.

(** *** Reading the base probabilities *)

Lemma baseline_gates (f : flags) :
  mode f = "baseline"%string ->
  use_la_loss f = false /\ posthoc_adjusting f = false /\
  mode_needs_base_probs f = false.
Proof.
  intros H. unfold use_la_loss, posthoc_adjusting, mode_needs_base_probs.
  rewrite H. repeat split.
Qed.

Lemma needs_base_probs (f : flags) :
  mode f = "posthoc"%string \/ mode f = "loss"%string ->
  mode_needs_base_probs f = true.
Proof.
  unfold mode_needs_base_probs. intros [H | H]; rewrite H; reflexivity.
Qed.

(** Without post-hoc adjustment an evaluation batch does not look at the
    base probabilities. *)
Lemma test_step_without_posthoc (f : flags) (bp bp' : option (list R)) :
  posthoc_adjusting f = false -> test_step_ f bp = test_step_ f bp'.
Proof. intros H. unfold test_step. rewrite H. reflexivity. Qed.

(** C2.  When the base-probabilities file does not exist: in modes
    [posthoc] and [loss] the loader raises the not-found error and [main]
    stops with it in its initial world (no weight update, nothing written);
    in mode [baseline] the loader returns "no probabilities" and the run
    is, step for step, the run that any existing file would give. *)
Theorem missing_base_probs_file
    (gfile : string -> result (list R)) (f : flags) (w0 : W) :
  gfile (base_probs_path f) = Raise NotFoundError ->
  train_batch_size f <> 0%Z ->
  (mode f = "posthoc"%string \/ mode f = "loss"%string ->
   load_base_probs gfile f = Raise NotFoundError /\
   main_ gfile f (boot w0) = (boot w0, Raise NotFoundError)) /\
  (mode f = "baseline"%string ->
   load_base_probs gfile f = Ok None /\
   forall (present : string -> result (list R)) (v : list R),
     present (base_probs_path f) = Ok v ->
     main_ gfile f (boot w0) = main_ present f (boot w0)).
Proof.
  intros Hfile Hbs.
  assert (Hbpe : forall ds, batches_per_epoch ds f
                            = Ok (Z.quot (num_train ds) (train_batch_size f))).
  { intros ds. unfold batches_per_epoch.
    destruct (Z.eqb_spec (train_batch_size f) 0); [contradiction | reflexivity]. }
  split.
  - intros Hmode. apply needs_base_probs in Hmode.
    assert (Hload : load_base_probs gfile f = Raise NotFoundError).
    { unfold load_base_probs. rewrite Hfile, Hmode. reflexivity. }
    split; [exact Hload |].
    unfold main, bind, lift. rewrite Hbpe, Hload. reflexivity.
  - intros Hmode. destruct (baseline_gates f Hmode) as (Hla & Hph & Hneed).
    assert (Hload : load_base_probs gfile f = Ok None).
    { unfold load_base_probs. rewrite Hfile, Hneed. reflexivity. }
    split; [exact Hload |].
    intros present v Hpresent.
    assert (Hload' : load_base_probs present f = Ok (Some v)).
    { unfold load_base_probs. rewrite Hpresent. reflexivity. }
    unfold main, bind, lift, modify, build_loss_fn.
    rewrite Hbpe, Hload, Hload', Hla. unfold run_epoch.
    rewrite (test_step_without_posthoc f None (Some v) Hph).
    reflexivity.
Qed.

(** *** Without mode [posthoc] nothing is written on the adjusted stream *)

Local Abbreviation no_adj :=
  (fun s : world W => Forall (fun e => is_adj_event e = false) (output s)).

Ltac solve_no_adj :=
  simpl;
  first [ assumption
        | apply Forall_app; split; [assumption | repeat constructor] ].

Lemma no_adj_train_step (lf : loss_fn_t) (bpe : Z) (epoch : nat)
    (b : nat * (X * labels_t)) :
  triple no_adj (train_step_ lf bpe epoch b) (fun _ => no_adj) no_adj.
Proof. intros s Hs. unfold_stmt. break_match; solve_no_adj. Qed.

Lemma no_adj_report_train (bpe : Z) (epoch : nat) :
  triple no_adj (report_train (W := W) bpe epoch) (fun _ => no_adj) no_adj.
Proof. intros s Hs. unfold_stmt. solve_no_adj. Qed.

Lemma no_adj_test_step (f : flags) (bp : option (list R))
    (b : X * labels_t) :
  posthoc_adjusting f = false ->
  triple no_adj (test_step_ f bp b) (fun _ => no_adj) no_adj.
Proof.
  intros Hph s Hs. unfold_stmt. rewrite Hph. break_match; solve_no_adj.
Qed.

Lemma no_adj_report_test (f : flags) (bpe : Z) (epoch : nat) :
  posthoc_adjusting f = false ->
  triple no_adj (report_test (W := W) f bpe epoch) (fun _ => no_adj) no_adj.
Proof. intros Hph s Hs. unfold_stmt. rewrite Hph. solve_no_adj. Qed.

Lemma no_adj_run_epoch (f : flags) (lf : loss_fn_t) (bp : option (list R))
    (bpe : Z) (epoch : nat) :
  posthoc_adjusting f = false ->
  triple no_adj (run_epoch_ f lf bp bpe epoch) (fun _ => no_adj) no_adj.
Proof.
  intros Hph. unfold run_epoch.
  eapply triple_bind;
    [apply triple_for_each; intros; apply no_adj_train_step | intros ?].
  eapply triple_bind; [apply no_adj_report_train | intros ?].
  eapply triple_bind;
    [apply triple_for_each; intros; apply no_adj_test_step; exact Hph
    | intros ?].
  apply no_adj_report_test. exact Hph.
Qed.

Lemma no_adj_main (gfile : string -> result (list R)) (f : flags) :
  posthoc_adjusting f = false ->
  triple no_adj (main_ gfile f) (fun _ => no_adj) no_adj.
Proof.
  intros Hph. unfold main.
  eapply triple_bind; [apply triple_lift_keep | intros bpe].
  eapply triple_bind; [apply triple_lift_keep | intros bp].
  eapply triple_bind; [apply triple_lift_keep | intros lf].
  eapply triple_bind;
    [apply triple_modify with (Q := no_adj); intros s Hs; exact Hs
    | intros ?].
  apply triple_for_each. intros epoch _.
  apply no_adj_run_epoch. exact Hph.
Qed.

(** *** Mode gating *)

Lemma use_la_loss_iff (f : flags) :
  use_la_loss f = true <-> mode f = "loss"%string.
Proof. unfold use_la_loss. apply String.eqb_eq. Qed.

Lemma posthoc_adjusting_iff (f : flags) :
  posthoc_adjusting f = true <-> mode f = "posthoc"%string.
Proof. unfold posthoc_adjusting. apply String.eqb_eq. Qed.

Lemma not_posthoc (f : flags) :
  mode f <> "posthoc"%string -> posthoc_adjusting f = false.
Proof.
  intros H. destruct (posthoc_adjusting f) eqn:E; [| reflexivity].
  apply posthoc_adjusting_iff in E. contradiction.
Qed.

(** C4 (as amended).  Building the adjusted loss without base
    probabilities succeeds; the loss function it returns raises a type
    error on every call and returns no loss, so a training batch stops at
    the loss with the world as it was (no weight update, no metric
    update).  [main] never builds that loss function: when it selects the
    adjusted loss, its loader does not return "no probabilities". *)
Theorem absent_base_probs_fail_at_first_call
    (gfile : string -> result (list R)) (f : flags) (tau0 : R) :
  (exists lf,
     build_loss_fn true None tau0 = Ok lf /\
     forall labels logits, lf labels logits = Raise TypeError) /\
  (forall bpe epoch b (s : world W),
     train_step_ (loss_fn true None tau0) bpe epoch b s
     = (s, Raise TypeError)) /\
  (use_la_loss f = true -> load_base_probs gfile f <> Ok None).
Proof.
  split; [exists (loss_fn true None tau0); split; reflexivity |].
  split; [reflexivity |].
  intros Hla. apply use_la_loss_iff in Hla.
  unfold load_base_probs.
  destruct (gfile (base_probs_path f)) as [v | e]; [discriminate |].
  rewrite (needs_base_probs f (or_intror Hla)).
  destruct e; discriminate.
Qed.

(** *** A uniform prior *)

Lemma shift_rows_uniform (k : R) (n : nat) (L : logits_t) :
  has_classes n L ->
  shift_rows fsub L (repeat (Fin k) n)
  = map (map (fun x => fsub x (Fin k))) L.
Proof.
  intros HL. unfold shift_rows. apply map_ext_in. intros row Hrow.
  unfold has_classes in HL. rewrite Forall_forall in HL.
  rewrite <- (HL row Hrow). apply combine_repeat.
Qed.

Lemma adj_equals_raw_app (out evs : list event) :
  adj_equals_raw out ->
  (forall v step, In (adj_scalar v step) evs -> In (acc_scalar v step) evs) ->
  adj_equals_raw (out ++ evs).
Proof.
  intros Ho He v step H. apply in_app_iff in H. apply in_app_iff.
  destruct H as [H | H]; [left; apply Ho; exact H | right; apply He; exact H].
Qed.

Lemma adj_equals_raw_mono (out evs : list event) :
  adj_equals_raw out ->
  (forall v step, ~ In (adj_scalar v step) evs) ->
  adj_equals_raw (out ++ evs).
Proof.
  intros Ho He. apply adj_equals_raw_app; [exact Ho |].
  intros v step H. destruct (He v step H).
Qed.

Ltac no_adj_scalar :=
  let v := fresh in let st := fresh in let H := fresh in
  intros v st H; simpl in H; unfold adj_scalar in H;
  repeat (destruct H as [H | H]; [discriminate H |]); exact H.

Lemma test_step_uniform (f : flags) (c : R) (n : nat) (b : X * labels_t)
    (s s' : world W) (r : result unit) :
  posthoc_adjusting f = true -> tau f = 1 -> 0 <= c ->
  test_adj_acc_metric s = Some (test_acc_metric s) ->
  test_step_ f (Some (repeat c n)) b s = (s', r) ->
  output s' = output s /\
  (r = Ok tt -> test_adj_acc_metric s' = Some (test_acc_metric s')).
Proof.
  intros Hph Htau Hc Hinv. unfold_stmt. rewrite Hph, Htau.
  cbn [test_acc_metric weights].
  destruct (update_state (test_acc_metric s) (snd b)
              (model (weights s) (fst b) false)) as [m' | e] eqn:Em.
  - destruct (posthoc_adjust (model (weights s) (fst b) false)
                (Some (repeat c n)) 1) as [L' | e] eqn:EA.
    + cbn [test_adj_acc_metric set_test_acc_metric]. rewrite Hinv.
      destruct (update_state (test_acc_metric s) (snd b) L')
        as [ma' | e] eqn:Ema.
      * intros H. injection H as <- <-. simpl. split; [reflexivity |].
        intros _.
        pose proof (update_state_uniform c n _ _ _ _ _ Hc EA Ema) as Hraw.
        rewrite Em in Hraw. injection Hraw as ->. reflexivity.
      * intros H. injection H as <- <-. simpl. split; [auto | discriminate].
    + intros H. injection H as <- <-. simpl. split; [auto | discriminate].
  - intros H. injection H as <- <-. split; [auto | discriminate].
Qed.

Local Abbreviation same_out :=
  (fun s : world W => adj_equals_raw (output s)).

Local Abbreviation same_acc :=
  (fun s : world W =>
     adj_equals_raw (output s) /\
     test_adj_acc_metric s = Some (test_acc_metric s)).

Ltac solve_same :=
  simpl; repeat split; try assumption;
  try (apply adj_equals_raw_mono; [assumption | no_adj_scalar]).

Lemma same_acc_train_step (lf : loss_fn_t) (bpe : Z) (epoch : nat)
    (b : nat * (X * labels_t)) :
  triple same_acc (train_step_ lf bpe epoch b) (fun _ => same_acc) same_out.
Proof. intros s [Ho Hm]. unfold_stmt. break_match; solve_same. Qed.

Lemma same_acc_report_train (bpe : Z) (epoch : nat) :
  triple same_acc (report_train (W := W) bpe epoch) (fun _ => same_acc)
         same_out.
Proof. intros s [Ho Hm]. unfold_stmt. solve_same. Qed.

Lemma same_acc_test_step (f : flags) (c : R) (n : nat) (b : X * labels_t) :
  posthoc_adjusting f = true -> tau f = 1 -> 0 <= c ->
  triple same_acc (test_step_ f (Some (repeat c n)) b) (fun _ => same_acc)
         same_out.
Proof.
  intros Hph Htau Hc s [Ho Hm].
  destruct (test_step_ f (Some (repeat c n)) b s) as [s' r] eqn:E.
  destruct (test_step_uniform f c n b s s' r Hph Htau Hc Hm E) as [Hout Hr].
  destruct r as [[] | e]; rewrite Hout; auto.
Qed.

Lemma same_acc_report_test (f : flags) (bpe : Z) (epoch : nat) :
  posthoc_adjusting f = true ->
  triple same_acc (report_test (W := W) f bpe epoch) (fun _ => same_acc)
         same_out.
Proof.
  intros Hph s [Ho Hm]. unfold_stmt. rewrite Hph.
  cbn [test_adj_acc_metric set_test_acc_metric write]. rewrite Hm.
  simpl. split; [| reflexivity].
  rewrite <- app_assoc. apply adj_equals_raw_app; [exact Ho |].
  intros v step H. simpl in H. unfold adj_scalar in H.
  repeat (destruct H as [H | H]; try discriminate H).
  - injection H as <- <-. simpl. right. left. reflexivity.
  - destruct H.
Qed.

Lemma same_acc_run_epoch (f : flags) (lf : loss_fn_t) (c : R) (n : nat)
    (bpe : Z) (epoch : nat) :
  posthoc_adjusting f = true -> tau f = 1 -> 0 <= c ->
  triple same_acc (run_epoch_ f lf (Some (repeat c n)) bpe epoch)
         (fun _ => same_acc) same_out.
Proof.
  intros Hph Htau Hc. unfold run_epoch.
  eapply triple_bind;
    [apply triple_for_each; intros; apply same_acc_train_step | intros ?].
  eapply triple_bind; [apply same_acc_report_train | intros ?].
  eapply triple_bind;
    [apply triple_for_each; intros; apply same_acc_test_step; assumption
    | intros ?].
  apply same_acc_report_test. exact Hph.
Qed.

Lemma test_loop_uniform (f : flags) (c : R) (n : nat)
    (batches : list (X * labels_t)) (s s' : world W) :
  posthoc_adjusting f = true -> tau f = 1 -> 0 <= c ->
  test_adj_acc_metric s = Some (test_acc_metric s) ->
  for_each (test_step_ f (Some (repeat c n))) batches s = (s', Ok tt) ->
  test_adj_acc_metric s' = Some (test_acc_metric s').
Proof.
  intros Hph Htau Hc. revert s.
  induction batches as [| b batches IH]; intros s Hinv; simpl.
  - unfold ret. intros H. injection H as <-. exact Hinv.
  - unfold bind.
    destruct (test_step_ f (Some (repeat c n)) b s) as [s1 r] eqn:E.
    destruct (test_step_uniform f c n b s s1 r Hph Htau Hc Hinv E)
      as [_ Hr].
    destruct r as [[] | e]; [| discriminate].
    apply IH. apply Hr. reflexivity.
Qed.

Lemma same_out_main (gfile : string -> result (list R)) (f : flags)
    (c : R) (n : nat) (w0 : W) :
  posthoc_adjusting f = true -> tau f = 1 -> 0 <= c ->
  gfile (base_probs_path f) = Ok (repeat c n) ->
  adj_equals_raw (output (fst (main_ gfile f (boot w0)))).
Proof.
  intros Hph Htau Hc Hfile.
  assert (Hload : load_base_probs gfile f = Ok (Some (repeat c n))).
  { unfold load_base_probs. rewrite Hfile. reflexivity. }
  unfold main, bind, lift, modify, build_loss_fn.
  destruct (batches_per_epoch (dataset_mappings (dataset f)) f)
    as [bpe | e]; [| intros v step []].
  rewrite Hload.
  set (s0 := create_metrics f (boot w0)).
  set (body := run_epoch_ f (loss_fn (use_la_loss f) (Some (repeat c n))
                                     (tau f))
                          (Some (repeat c n)) bpe).
  set (l := seq 0 (Z.to_nat (num_epochs (dataset_mappings (dataset f))))).
  assert (H0 : same_acc s0).
  { unfold s0, create_metrics. rewrite Hph. simpl.
    split; [intros v step [] | reflexivity]. }
  assert (Hbody : forall a, In a l ->
                    triple same_acc (body a) (fun _ => same_acc) same_out).
  { intros a _. apply same_acc_run_epoch; assumption. }
  pose proof (triple_for_each same_acc same_out body l Hbody s0 H0) as H.
  destruct (for_each body l s0) as [s' [u | e]]; simpl; [apply H | exact H].
Qed.

(** In the exact model of the loop, where no operation rounds: in mode
    [posthoc] with temperature 1 and a prior whose [n] entries all equal
    [c >= 0], the adjusted logits of a batch of [n] columns are the raw
    logits minus the same constant [log(c + 1e-12)] in every class; the
    accuracy metric counts a batch of adjusted logits as it counts the raw
    batch; over any sequence of evaluation batches the adjusted
    accumulator stays equal to the plain one; and every logit-adjusted
    accuracy that [main] writes equals the test accuracy it writes at the
    same step. *)
Lemma uniform_prior_exact_arithmetic
    (gfile : string -> result (list R)) (f : flags) (c : R) (n : nat)
    (w0 : W) :
  mode f = "posthoc"%string -> tau f = 1 -> 0 <= c ->
  (forall L, has_classes n L ->
     posthoc_adjust L (Some (repeat c n)) (tau f)
     = Ok (map (map (fun x => fsub x (Fin (ln (c + eps))))) L)) /\
  (forall L L' labels m m1 m2,
     posthoc_adjust L (Some (repeat c n)) (tau f) = Ok L' ->
     update_state m labels L = Ok m1 ->
     update_state m labels L' = Ok m2 ->
     m1 = m2) /\
  (forall batches (s s' : world W),
     test_adj_acc_metric s = Some (test_acc_metric s) ->
     for_each (test_step_ f (Some (repeat c n))) batches s = (s', Ok tt) ->
     test_adj_acc_metric s' = Some (test_acc_metric s')) /\
  (gfile (base_probs_path f) = Ok (repeat c n) ->
   adj_equals_raw (output (fst (main_ gfile f (boot w0))))).
Proof.
  intros Hmode Htau Hc. apply posthoc_adjusting_iff in Hmode.
  rewrite Htau. split.
  { intros L HL. rewrite posthoc_adjust_shape
      by (rewrite repeat_length; exact HL).
    rewrite (log_prior_uniform c n Hc), (shift_rows_uniform _ n L HL).
    reflexivity. }
  split.
  { intros L L' labels m m1 m2 HA H1 H2.
    pose proof (update_state_uniform c n m m2 labels L L' Hc HA H2) as H.
    rewrite H1 in H. injection H as ->. reflexivity. }
  split.
  { intros batches s s' Hinv Hrun.
    exact (test_loop_uniform f c n batches s s' Hmode Htau Hc Hinv Hrun). }
  intros Hfile. apply (same_out_main gfile f c n w0); assumption.
Qed.

(** *** One read and one reset of every accumulator per epoch *)

Lemma update_state_count (m m' : metric) (labels : labels_t)
    (L : logits_t) :
  update_state m labels L = Ok m' ->
  count m' = (count m + Z.of_nat (length labels))%Z.
Proof.
  unfold update_state.
  destruct (Nat.eqb (length labels) (length L)); [| discriminate].
  destruct (rmap argmax L) as [preds |]; simpl; [| discriminate].
  intros H. injection H as <-. reflexivity.
Qed.

(** An accumulator counts the examples of the batches it is fed. *)
Lemma accumulate_count (batches : list (X * labels_t)) (ls : list logits_t)
    (m m' : metric) :
  length ls = length batches ->
  accumulate m (combine (map snd batches) ls) = Ok m' ->
  count m' = (count m + examples batches)%Z.
Proof.
  revert ls m. induction batches as [| b batches IH]; intros ls m Hlen.
  - simpl. intros H. injection H as <-. lia.
  - destruct ls as [| L ls]; [discriminate Hlen |].
    cbn [map combine accumulate fst snd].
    destruct (update_state m (snd b) L) as [m1 |] eqn:E1; [| discriminate].
    cbn [rbind]. intros H.
    rewrite (IH ls m1 (eq_add_S _ _ Hlen) H).
    rewrite (update_state_count m m1 (snd b) L E1).
    symmetry. apply Z.add_assoc.
Qed.

Lemma enumerate_snd {A} (l : list A) : map snd (enumerate l) = l.
Proof.
  unfold enumerate. generalize 0%nat.
  induction l as [| a l IH]; intros n; simpl; [reflexivity |].
  f_equal. apply IH.
Qed.

Lemma enumerate_length {A} (l : list A) : length (enumerate l) = length l.
Proof.
  unfold enumerate. rewrite length_combine, length_seq. apply Nat.min_id.
Qed.

Lemma for_each_cons_eq {A} (body : A -> M W unit) (a : A) (l : list A)
    (s : world W) :
  for_each body (a :: l) s =
  match body a s with
  | (s', Ok _) => for_each body l s'
  | (s', Raise e) => (s', Raise e)
  end.
Proof. reflexivity. Qed.

Lemma train_step_effect (lf : loss_fn_t) (bpe : Z) (epoch : nat)
    (b : nat * (X * labels_t)) (s s' : world W) :
  train_step_ lf bpe epoch b s = (s', Ok tt) ->
  update_state (train_acc_metric s) (snd (snd b))
               (model (weights s) (fst (snd b)) true)
  = Ok (train_acc_metric s') /\
  test_acc_metric s' = test_acc_metric s /\
  test_adj_acc_metric s' = test_adj_acc_metric s /\
  exists evs, output s' = output s ++ evs /\
              Forall (fun e => is_batch_loss_event e = true) evs.
Proof.
  unfold_stmt. break_match; intros H; inversion H; subst; simpl.
  - split; [assumption |].
    split; [reflexivity |]. split; [reflexivity |].
    eexists. split; [reflexivity | repeat constructor].
  - split; [assumption |].
    split; [reflexivity |]. split; [reflexivity |].
    exists []. split; [symmetry; apply app_nil_r | constructor].
Qed.

Lemma train_loop_effect (lf : loss_fn_t) (bpe : Z) (epoch : nat)
    (l : list (nat * (X * labels_t))) (s s' : world W) :
  for_each (train_step_ lf bpe epoch) l s = (s', Ok tt) ->
  (exists ls,
     length ls = length l /\
     accumulate (train_acc_metric s) (combine (map snd (map snd l)) ls)
     = Ok (train_acc_metric s')) /\
  test_acc_metric s' = test_acc_metric s /\
  test_adj_acc_metric s' = test_adj_acc_metric s /\
  exists evs, output s' = output s ++ evs /\
              Forall (fun e => is_batch_loss_event e = true) evs.
Proof.
  revert s. induction l as [| b l IH]; intros s; simpl.
  - unfold ret. intros H. injection H as <-.
    split; [exists []; split; reflexivity |]. repeat split.
    exists []. split; [symmetry; apply app_nil_r | constructor].
  - unfold bind.
    destruct (train_step_ lf bpe epoch b s) as [s1 [[] | e]] eqn:E;
      [| discriminate].
    intros H.
    destruct (train_step_effect lf bpe epoch b s s1 E)
      as (Hn1 & Ht1 & Ha1 & evs1 & Ho1 & Hb1).
    destruct (IH s1 H) as ((ls & Hlen & Hn2) & Ht2 & Ha2 & evs2 & Ho2 & Hb2).
    split.
    { exists (model (weights s) (fst (snd b)) true :: ls).
      split; [simpl; f_equal; exact Hlen |].
      cbn [combine accumulate fst snd]. rewrite Hn1. exact Hn2. }
    split; [congruence |]. split; [congruence |].
    exists (evs1 ++ evs2). split.
    + rewrite Ho2, Ho1, app_assoc. reflexivity.
    + apply Forall_app. split; assumption.
Qed.

Lemma test_step_effect (f : flags) (bp : option (list R))
    (b : X * labels_t) (s s' : world W) :
  test_step_ f bp b s = (s', Ok tt) ->
  weights s' = weights s /\
  train_acc_metric s' = train_acc_metric s /\
  output s' = output s /\
  update_state (test_acc_metric s) (snd b) (model (weights s) (fst b) false)
  = Ok (test_acc_metric s') /\
  (if posthoc_adjusting f
   then exists ma adj ma',
          test_adj_acc_metric s = Some ma /\
          posthoc_adjust (model (weights s) (fst b) false) bp (tau f)
          = Ok adj /\
          update_state ma (snd b) adj = Ok ma' /\
          test_adj_acc_metric s' = Some ma'
   else test_adj_acc_metric s' = test_adj_acc_metric s).
Proof.
  unfold_stmt. destruct (posthoc_adjusting f);
    break_match; intros H; inversion H; subst; simpl.
  - repeat (split; [first [reflexivity | assumption] |]).
    cbn [test_adj_acc_metric set_test_acc_metric] in *.
    eexists _, _, _. repeat split; eassumption.
  - repeat (split; [first [reflexivity | assumption] |]). reflexivity.
Qed.

Lemma test_loop_effect (f : flags) (bp : option (list R))
    (l : list (X * labels_t)) (s s' : world W) :
  for_each (test_step_ f bp) l s = (s', Ok tt) ->
  weights s' = weights s /\
  train_acc_metric s' = train_acc_metric s /\
  output s' = output s /\
  accumulate (test_acc_metric s)
    (combine (map snd l) (map (fun b => model (weights s) (fst b) false) l))
  = Ok (test_acc_metric s') /\
  (if posthoc_adjusting f
   then match test_adj_acc_metric s with
        | Some ma =>
            exists adjusted ma',
              rmap (fun b => posthoc_adjust (model (weights s) (fst b) false)
                                            bp (tau f)) l
              = Ok adjusted /\
              accumulate ma (combine (map snd l) adjusted) = Ok ma' /\
              test_adj_acc_metric s' = Some ma'
        | None => test_adj_acc_metric s' = None
        end
   else test_adj_acc_metric s' = test_adj_acc_metric s).
Proof.
  revert s. induction l as [| b l IH]; intros s; simpl.
  - unfold ret. intros H. injection H as <-. repeat split.
    destruct (posthoc_adjusting f); [| reflexivity].
    destruct (test_adj_acc_metric s) as [ma |]; [| reflexivity].
    exists [], ma. repeat split.
  - unfold bind.
    destruct (test_step_ f bp b s) as [s1 [[] | e]] eqn:E; [| discriminate].
    intros H.
    destruct (test_step_effect f bp b s s1 E)
      as (Hw1 & Ht1 & Ho1 & Hn1 & Ha1).
    destruct (IH s1 H) as (Hw2 & Ht2 & Ho2 & Hn2 & Ha2).
    rewrite Hw1 in Hn2, Ha2.
    split; [congruence |]. split; [congruence |]. split; [congruence |].
    split; [rewrite Hn1; exact Hn2 |].
    destruct (posthoc_adjusting f); [| congruence].
    destruct Ha1 as (ma0 & adj & ma1 & H0 & HA & Hu & H1).
    rewrite H0. rewrite H1 in Ha2.
    destruct Ha2 as (adjusted & ma' & Hr & Hacc & H').
    exists (adj :: adjusted), ma'.
    rewrite HA, Hr. cbn [rbind combine accumulate fst snd]. rewrite Hu.
    repeat split; assumption.
Qed.

Local Abbreviation trained_on_ :=
  (trained_on model model_losses apply_gradients).
Local Abbreviation forward_passes_ :=
  (forward_passes model model_losses apply_gradients).
Local Abbreviation trained_epochs_ :=
  (trained_epochs model model_losses apply_gradients train_dataset).

Lemma forward_passes_length (lf : loss_fn_t) (l : list (X * labels_t))
    (w : W) :
  length (forward_passes_ lf l w) = length l.
Proof.
  revert w. induction l as [| b l IH]; intros w; simpl;
    [reflexivity | f_equal; apply IH].
Qed.

Lemma train_step_weights (lf : loss_fn_t) (bpe : Z) (epoch : nat)
    (b : nat * (X * labels_t)) (s s' : world W) :
  train_step_ lf bpe epoch b s = (s', Ok tt) ->
  weights s' =
  apply_gradients (objective model model_losses lf (fst (snd b))
                             (snd (snd b))) (weights s).
Proof.
  unfold_stmt. break_match; intros H; inversion H; subst; reflexivity.
Qed.

(** The training loop scores every batch on the logits of its forward
    pass and leaves the weights that the optimizer steps produce. *)
Lemma train_loop_forward (lf : loss_fn_t) (bpe : Z) (epoch : nat)
    (l : list (nat * (X * labels_t))) (s s' : world W) :
  for_each (train_step_ lf bpe epoch) l s = (s', Ok tt) ->
  accumulate (train_acc_metric s)
    (combine (map snd (map snd l))
             (forward_passes_ lf (map snd l) (weights s)))
  = Ok (train_acc_metric s') /\
  weights s' = trained_on_ lf (map snd l) (weights s).
Proof.
  revert s. induction l as [| b l IH]; intros s.
  - simpl. unfold ret. intros H. injection H as <-. split; reflexivity.
  - rewrite for_each_cons_eq.
    destruct (train_step_ lf bpe epoch b s) as [s1 [[] | e]] eqn:E;
      [| discriminate].
    intros H.
    destruct (train_step_effect lf bpe epoch b s s1 E) as (Hn1 & _).
    pose proof (train_step_weights lf bpe epoch b s s1 E) as Hw1.
    destruct (IH s1 H) as (Hn2 & Hw2).
    cbn [map forward_passes combine accumulate fst snd].
    unfold trained_on. cbn [fold_left]. rewrite <- Hw1, Hn1. cbn [rbind].
    split; [exact Hn2 | exact Hw2].
Qed.

Lemma run_epoch_effect (f : flags) (lf : loss_fn_t) (bp : option (list R))
    (bpe : Z) (epoch : nat) (s s' : world W) :
  run_epoch_ f lf bp bpe epoch s = (s', Ok tt) ->
  exists mt me ma evs,
    (accumulate (train_acc_metric s)
       (combine (map snd (train_dataset epoch))
                (forward_passes_ lf (train_dataset epoch) (weights s)))
     = Ok mt /\
     weights s' = trained_on_ lf (train_dataset epoch) (weights s)) /\
    accumulate (test_acc_metric s)
      (combine (map snd test_dataset)
         (map (fun b => model (weights s') (fst b) false) test_dataset))
    = Ok me /\
    (posthoc_adjusting f = true ->
     exists ma0 adjusted,
       test_adj_acc_metric s = Some ma0 /\
       rmap (fun b => posthoc_adjust (model (weights s') (fst b) false)
                                     bp (tau f)) test_dataset
       = Ok adjusted /\
       accumulate ma0 (combine (map snd test_dataset) adjusted) = Ok ma) /\
    Forall (fun e => is_batch_loss_event e = true) evs /\
    output s' = output s ++ evs ++ epoch_report f bpe epoch mt me ma /\
    train_acc_metric s' = metric0 /\
    test_acc_metric s' = metric0 /\
    test_adj_acc_metric s' =
      (if posthoc_adjusting f then Some metric0 else test_adj_acc_metric s).
Proof.
  intros H. unfold run_epoch, bind in H.
  destruct (for_each (train_step_ lf bpe epoch)
              (enumerate (train_dataset epoch)) s)
    as [s1 [[] | e]] eqn:E1; [| discriminate H].
  destruct (train_loop_effect lf bpe epoch _ s s1 E1)
    as (_ & Ht1 & Ha1 & evs & Ho1 & Hb1).
  destruct (train_loop_forward lf bpe epoch _ s s1 E1) as (Hn1 & Hw1).
  rewrite enumerate_snd in Hn1, Hw1.
  unfold report_train, bind, gets, modify in H. cbn beta iota in H.
  match type of H with
  | match for_each _ _ ?w with _ => _ end = _ => set (s2 := w) in H
  end.
  destruct (for_each (test_step_ f bp) test_dataset s2)
    as [s3 [[] | e]] eqn:E3; [| discriminate H].
  destruct (test_loop_effect f bp test_dataset s2 s3 E3)
    as (Hw3 & Ht3 & Ho3 & Hn3 & Ha3).
  assert (Hs2 : test_acc_metric s2 = test_acc_metric s) by exact Ht1.
  assert (Ha2 : test_adj_acc_metric s2 = test_adj_acc_metric s) by exact Ha1.
  rewrite Hs2 in Hn3. rewrite Ha2 in Ha3. rewrite <- Hw3 in Hn3, Ha3.
  unfold report_test, bind, gets, modify, ret, lift in H.
  cbn beta iota in H. unfold epoch_report.
  destruct (posthoc_adjusting f) eqn:Hph.
  - cbn [test_adj_acc_metric set_test_acc_metric write] in H.
    destruct (test_adj_acc_metric s3) as [ma |] eqn:Ema; [| discriminate H].
    injection H as <-.
    exists (train_acc_metric s1), (test_acc_metric s3), ma, evs.
    split.
    { split; [exact Hn1 |]. simpl. rewrite Hw3. unfold s2. simpl.
      exact Hw1. }
    split; [exact Hn3 |].
    split.
    { intros _.
      destruct (test_adj_acc_metric s) as [ma0 |] eqn:E0; [| congruence].
      destruct Ha3 as (adjusted & ma' & Hr & Hacc & H').
      assert (ma' = ma) by congruence. subst ma'.
      exists ma0, adjusted. repeat split; assumption. }
    split; [exact Hb1 |].
    split.
    { simpl. rewrite Ho3. unfold s2. simpl. rewrite Ho1.
      rewrite <- !app_assoc. reflexivity. }
    split; [simpl; rewrite Ht3; reflexivity |].
    split; reflexivity.
  - injection H as <-.
    exists (train_acc_metric s1), (test_acc_metric s3), metric0, evs.
    split.
    { split; [exact Hn1 |]. simpl. rewrite Hw3. unfold s2. simpl.
      exact Hw1. }
    split; [exact Hn3 |].
    split; [discriminate |].
    split; [exact Hb1 |].
    split.
    { simpl. rewrite Ho3. unfold s2. simpl. rewrite Ho1.
      rewrite <- !app_assoc. reflexivity. }
    split; [simpl; rewrite Ht3; reflexivity |].
    split; [reflexivity |].
    simpl. exact Ha3.
Qed.

Lemma for_each_cons {A} (body : A -> M W unit) (a : A) (l : list A)
    (s : world W) :
  for_each body (a :: l) s =
  match body a s with
  | (s', Ok _) => for_each body l s'
  | (s', Raise e) => (s', Raise e)
  end.
Proof. reflexivity. Qed.

Lemma create_metrics_fresh (f : flags) (s : world W) :
  fresh_metrics f (create_metrics f s).
Proof. unfold fresh_metrics, create_metrics. simpl. auto. Qed.

Lemma create_metrics_when_fresh (f : flags) (s : world W) :
  fresh_metrics f s -> create_metrics f s = s.
Proof.
  destruct s as [w u mt me ma out]. unfold fresh_metrics, create_metrics.
  simpl. intros (-> & -> & ->). reflexivity.
Qed.

Lemma run_epoch_keeps_fresh (f : flags) (lf : loss_fn_t)
    (bp : option (list R)) (bpe : Z) (epoch : nat) (s s' : world W) :
  fresh_metrics f s -> run_epoch_ f lf bp bpe epoch s = (s', Ok tt) ->
  fresh_metrics f s'.
Proof.
  intros (_ & _ & Ha) H.
  destruct (run_epoch_effect f lf bp bpe epoch s s' H)
    as (mt & me & ma & evs & _ & _ & _ & _ & _ & H1 & H2 & H3).
  unfold fresh_metrics. rewrite H1, H2, H3, Ha.
  destruct (posthoc_adjusting f); auto.
Qed.

(** C9.  An epoch that completes leaves every accumulator as constructed,
    whatever it held before.  Started with fresh accumulators, it writes,
    after the batch-loss reports, exactly one report per accumulator and
    nothing else; the value reported is the result of an accumulator fed,
    from its constructed state, with this epoch's batches only: the
    epoch's training batches, each with the logits of its forward pass
    under the weights left by the batches before it; the test batches
    with the logits of the model as trained by the epoch; and (in mode
    [posthoc]) the test batches with the post-hoc adjustment of those
    logits; its count is the number of examples of those batches.  So the
    loop over the epochs runs exactly as a loop that constructs new
    accumulators at the start of every epoch. *)
Theorem accumulators_read_and_reset_once_per_epoch
    (f : flags) (lf : loss_fn_t) (bp : option (list R)) (bpe : Z) :
  (forall epoch (s s' : world W),
     run_epoch_ f lf bp bpe epoch s = (s', Ok tt) ->
     train_acc_metric s' = metric0 /\
     test_acc_metric s' = metric0 /\
     (posthoc_adjusting f = true -> test_adj_acc_metric s' = Some metric0)) /\
  (forall epoch (s s' : world W),
     fresh_metrics f s ->
     run_epoch_ f lf bp bpe epoch s = (s', Ok tt) ->
     fresh_metrics f s' /\
     exists mt me ma evs,
       accumulate metric0
         (combine (map snd (train_dataset epoch))
                  (forward_passes_ lf (train_dataset epoch) (weights s)))
       = Ok mt /\
       weights s' = trained_on_ lf (train_dataset epoch) (weights s) /\
       accumulate metric0
         (combine (map snd test_dataset)
            (map (fun b => model (weights s') (fst b) false) test_dataset))
       = Ok me /\
       (posthoc_adjusting f = true ->
        exists adjusted,
          rmap (fun b => posthoc_adjust (model (weights s') (fst b) false)
                                        bp (tau f)) test_dataset
          = Ok adjusted /\
          accumulate metric0 (combine (map snd test_dataset) adjusted)
          = Ok ma) /\
       count mt = examples (train_dataset epoch) /\
       count me = examples test_dataset /\
       (posthoc_adjusting f = true -> count ma = examples test_dataset) /\
       Forall (fun e => is_batch_loss_event e = true) evs /\
       output s' = output s ++ evs ++ epoch_report f bpe epoch mt me ma) /\
  (forall (s : world W), fresh_metrics f (create_metrics f s)) /\
  (forall epochs (s : world W),
     fresh_metrics f s ->
     for_each (run_epoch_ f lf bp bpe) epochs s =
     for_each (fun epoch =>
                 bind (modify (create_metrics f))
                      (fun _ => run_epoch_ f lf bp bpe epoch))
              epochs s).
Proof.
  split.
  { intros epoch s s' H.
    destruct (run_epoch_effect f lf bp bpe epoch s s' H)
      as (mt & me & ma & evs & _ & _ & _ & _ & _ & H1 & H2 & H3).
    split; [exact H1 |]. split; [exact H2 |].
    intros Hph. rewrite H3, Hph. reflexivity. }
  split.
  { intros epoch s s' Hs H.
    split; [exact (run_epoch_keeps_fresh f lf bp bpe epoch s s' Hs H) |].
    destruct Hs as (Hs1 & Hs2 & Hs3).
    destruct (run_epoch_effect f lf bp bpe epoch s s' H)
      as (mt & me & ma & evs & (Hn1 & Hw) & Hn2 & Hn3 & Hb & Ho & _).
    rewrite Hs1 in Hn1. rewrite Hs2 in Hn2.
    assert (Hadj : posthoc_adjusting f = true ->
              exists adjusted,
                rmap (fun b => posthoc_adjust
                                 (model (weights s') (fst b) false)
                                 bp (tau f)) test_dataset = Ok adjusted /\
                accumulate metric0 (combine (map snd test_dataset) adjusted)
                = Ok ma).
    { intros Hph. destruct (Hn3 Hph) as (ma0 & adjusted & H0 & Hr & Hacc).
      rewrite Hs3, Hph in H0. injection H0 as <-.
      exists adjusted. split; assumption. }
    exists mt, me, ma, evs.
    split; [exact Hn1 |]. split; [exact Hw |].
    split; [exact Hn2 |]. split; [exact Hadj |].
    split.
    { exact (accumulate_count _ _ metric0 mt
               (forward_passes_length lf _ _) Hn1). }
    split.
    { apply (accumulate_count test_dataset
               (map (fun b => model (weights s') (fst b) false) test_dataset)
               metric0 me); [apply length_map | exact Hn2]. }
    split; [| split; [exact Hb | exact Ho]].
    intros Hph. destruct (Hadj Hph) as (adjusted & Hr & Hacc).
    apply (accumulate_count test_dataset adjusted metric0 ma);
      [| exact Hacc].
    rewrite (rmap_length _ _ _ Hr). reflexivity. }
  split; [apply create_metrics_fresh |].
  intros epochs. induction epochs as [| epoch epochs IH]; intros s Hs.
  - reflexivity.
  - rewrite !for_each_cons.
    change (bind (modify (create_metrics f))
                 (fun _ => run_epoch_ f lf bp bpe epoch) s)
      with (run_epoch_ f lf bp bpe epoch (create_metrics f s)).
    rewrite (create_metrics_when_fresh f s Hs).
    destruct (run_epoch_ f lf bp bpe epoch s) as [s1 [[] | e]] eqn:E;
      [| reflexivity].
    apply IH. exact (run_epoch_keeps_fresh f lf bp bpe epoch s s1 Hs E).
Qed.

Lemma posthoc_epoch_writes_adjusted (f : flags) (lf : loss_fn_t)
    (bp : option (list R)) (bpe : Z) (epoch : nat) (s s' : world W) :
  posthoc_adjusting f = true ->
  run_epoch_ f lf bp bpe epoch s = (s', Ok tt) ->
  exists v, In (adj_scalar v ((Z.of_nat epoch + 1) * bpe)) (output s').
Proof.
  intros Hph H.
  destruct (run_epoch_effect f lf bp bpe epoch s s' H)
    as (mt & me & ma & evs & _ & _ & _ & _ & Ho & _).
  exists (metric_result ma). rewrite Ho. unfold epoch_report. rewrite Hph.
  rewrite !in_app_iff. right. right. right. simpl. right. left. reflexivity.
Qed.

Lemma epochs_output_grows (f : flags) (lf : loss_fn_t)
    (bp : option (list R)) (bpe : Z) (epochs : list nat) (s s' : world W) :
  for_each (run_epoch_ f lf bp bpe) epochs s = (s', Ok tt) ->
  exists evs, output s' = output s ++ evs.
Proof.
  revert s. induction epochs as [| epoch epochs IH]; intros s.
  - simpl. unfold ret. intros H. injection H as <-.
    exists []. symmetry. apply app_nil_r.
  - rewrite for_each_cons.
    destruct (run_epoch_ f lf bp bpe epoch s) as [s1 [[] | e]] eqn:E;
      [| discriminate].
    intros H. destruct (IH s1 H) as [evs2 Ho2].
    destruct (run_epoch_effect f lf bp bpe epoch s s1 E)
      as (mt & me & ma & evs & _ & _ & _ & _ & Ho & _).
    eexists. rewrite Ho2, Ho, <- app_assoc. reflexivity.
Qed.

(** In mode [posthoc] a run of at least one epoch that completes has
    written a logit-adjusted accuracy. *)
Lemma main_writes_adjusted (gfile : string -> result (list R)) (f : flags)
    (w0 : W) (s' : world W) :
  posthoc_adjusting f = true ->
  (0 < num_epochs (dataset_mappings (dataset f)))%Z ->
  main_ gfile f (boot w0) = (s', Ok tt) ->
  exists v step, In (adj_scalar v step) (output s').
Proof.
  intros Hph Hn. unfold main, bind, lift, modify, build_loss_fn.
  destruct (batches_per_epoch (dataset_mappings (dataset f)) f)
    as [bpe | e]; [| discriminate].
  destruct (load_base_probs gfile f) as [bp | e]; [| discriminate].
  destruct (Z.to_nat (num_epochs (dataset_mappings (dataset f))))
    as [| k] eqn:Ek; [lia |].
  cbn [seq]. rewrite for_each_cons.
  match goal with
  | |- context [run_epoch_ f ?lf bp bpe 0%nat ?w] =>
      destruct (run_epoch_ f lf bp bpe 0%nat w) as [s1 [[] | e]] eqn:E;
        [| discriminate]
  end.
  intros H.
  destruct (posthoc_epoch_writes_adjusted f _ bp bpe 0%nat _ s1 Hph E)
    as [v Hv].
  destruct (epochs_output_grows f _ bp bpe _ s1 s' H) as [evs Ho].
  exists v, ((Z.of_nat 0 + 1) * bpe)%Z. rewrite Ho.
  apply in_app_iff. left. exact Hv.
Qed.

(** *** What [main] trains with and what it writes *)

Lemma loss_fn_is_mode_loss (f : flags) (bp : option (list R)) :
  loss_fn (use_la_loss f) bp (tau f) = mode_loss f bp.
Proof.
  unfold loss_fn, mode_loss, use_la_loss.
  destruct (String.eqb (mode f) "loss"); reflexivity.
Qed.

Lemma epochs_weights (f : flags) (lf : loss_fn_t) (bp : option (list R))
    (bpe : Z) (epochs : list nat) (s s' : world W) :
  for_each (run_epoch_ f lf bp bpe) epochs s = (s', Ok tt) ->
  weights s' = trained_epochs_ lf epochs (weights s).
Proof.
  revert s. induction epochs as [| epoch epochs IH]; intros s.
  - simpl. unfold ret. intros H. injection H as <-. reflexivity.
  - rewrite for_each_cons.
    destruct (run_epoch_ f lf bp bpe epoch s) as [s1 [[] | e]] eqn:E;
      [| discriminate].
    intros H. rewrite (IH s1 H).
    destruct (run_epoch_effect f lf bp bpe epoch s s1 E)
      as (mt & me & ma & evs & (_ & Hw) & _).
    unfold trained_epochs. cbn [fold_left]. rewrite Hw. reflexivity.
Qed.

(** A run of [main] that completes has read the flags and the file and
    run the epochs from the accumulators as constructed. *)
Lemma main_returns_inv (gfile : string -> result (list R)) (f : flags)
    (s s' : world W) :
  main_ gfile f s = (s', Ok tt) ->
  exists bpe bp,
    batches_per_epoch (dataset_mappings (dataset f)) f = Ok bpe /\
    load_base_probs gfile f = Ok bp /\
    for_each (run_epoch_ f (mode_loss f bp) bp bpe)
             (seq 0 (Z.to_nat (num_epochs (dataset_mappings (dataset f)))))
             (create_metrics f s)
    = (s', Ok tt).
Proof.
  unfold main, bind, lift, modify, build_loss_fn.
  destruct (batches_per_epoch (dataset_mappings (dataset f)) f)
    as [bpe | e]; [| discriminate].
  destruct (load_base_probs gfile f) as [bp | e]; [| discriminate].
  rewrite loss_fn_is_mode_loss. intros H.
  exists bpe, bp. repeat split. exact H.
Qed.

(** The first training batch of an epoch reports its loss. *)
Lemma first_batch_loss_written (f : flags) (lf : loss_fn_t)
    (bp : option (list R)) (bpe : Z) (epoch : nat) (x : X) (y : labels_t)
    (rest : list (X * labels_t)) (s s' : world W) :
  train_dataset epoch = (x, y) :: rest ->
  run_epoch_ f lf bp bpe epoch s = (s', Ok tt) ->
  exists l evs,
    lf y (model (weights s) x true) = Ok l /\
    output s' =
    output s
    ++ [Print_batch_loss 0 (fadd l (model_losses (weights s)));
        Scalar "train" "batch loss" (fadd l (model_losses (weights s)))
               (Z.of_nat epoch * bpe + 0)]
    ++ evs.
Proof.
  intros Hd H.
  destruct (run_epoch_effect f lf bp bpe epoch s s' H)
    as (mt & me & ma & evs & _ & _ & _ & _ & Ho & _).
  unfold run_epoch, bind in H. rewrite Hd in H.
  change (enumerate ((x, y) :: rest))
    with ((0%nat, (x, y)) :: combine (seq 1 (length rest)) rest) in H.
  rewrite for_each_cons in H.
  destruct (train_step_ lf bpe epoch (0%nat, (x, y)) s)
    as [s0 [[] | e]] eqn:E0; [| discriminate H].
  destruct (for_each (train_step_ lf bpe epoch)
              (combine (seq 1 (length rest)) rest) s0)
    as [s1 [[] | e]] eqn:E1; [| discriminate H].
  destruct (train_loop_effect lf bpe epoch _ s0 s1 E1)
    as (_ & _ & _ & evs1 & Ho1 & _).
  assert (Hfirst : exists l,
            lf y (model (weights s) x true) = Ok l /\
            output s0 =
            output s
            ++ [Print_batch_loss 0 (fadd l (model_losses (weights s)));
                Scalar "train" "batch loss"
                       (fadd l (model_losses (weights s)))
                       (Z.of_nat epoch * bpe + 0)]).
  { revert E0. unfold_stmt. cbn [fst snd].
    destruct (lf y (model (weights s) x true)) as [l |]; [| discriminate].
    cbn [train_acc_metric set_weights].
    destruct (update_state (train_acc_metric s) y
                (model (weights s) x true)) as [m' |]; [| discriminate].
    cbn [Nat.modulo Nat.divmod Nat.eqb fst snd].
    intros E. injection E as <-. exists l. split; reflexivity. }
  destruct Hfirst as (l & El & Ho0).
  unfold report_train, bind, gets, modify in H. cbn beta iota in H.
  match type of H with
  | match for_each _ _ ?w with _ => _ end = _ => set (s2 := w) in H
  end.
  destruct (for_each (test_step_ f bp) test_dataset s2)
    as [s3 [[] | e]] eqn:E3; [| discriminate H].
  destruct (test_loop_effect f bp test_dataset s2 s3 E3)
    as (_ & _ & Ho3 & _).
  assert (Hgrow : exists evs', output s' = output s3 ++ evs').
  { revert H. unfold report_test, bind, gets, modify, ret, lift.
    cbn beta iota.
    destruct (posthoc_adjusting f).
    - cbn [test_adj_acc_metric set_test_acc_metric write].
      destruct (test_adj_acc_metric s3); [| discriminate].
      intros E. injection E as <-. simpl. rewrite <- app_assoc.
      eexists. reflexivity.
    - intros E. injection E as <-. simpl. eexists. reflexivity. }
  destruct Hgrow as (evs' & Ho').
  exists l. eexists. split; [exact El |].
  rewrite Ho', Ho3. unfold s2. simpl. rewrite Ho1, Ho0.
  rewrite <- !app_assoc. reflexivity.
Qed.

(** C3.  The two gates are [mode = loss] and [mode = posthoc] and are
    never open together; in mode [baseline] both are closed.  The training
    loss is the plain loss of the adjusted logits in mode [loss] and the
    plain loss of the raw logits otherwise.  Outside mode [posthoc] an
    evaluation batch ignores the base probabilities and leaves the
    adjusted-accuracy accumulator alone, that accumulator is never
    constructed, and [main] writes nothing on the adjusted stream; in mode
    [posthoc] the accumulator is constructed, a completed evaluation
    batch updates it with the post-hoc adjusted logits, and a completed
    epoch writes its accuracy on the adjusted stream.  A run of [main]
    that completes has trained with that loss: its weights are those
    left by one optimizer step per training batch on the adjusted loss in
    mode [loss] and on the plain loss in every other mode, and the loss
    it reports for the first batch is the value of that loss; in mode
    [posthoc], with at least one epoch, it has written on the adjusted
    stream. *)
Theorem mode_gating
    (gfile : string -> result (list R)) (f : flags)
    (base_probs : option (list R)) (w0 : W) :
  (use_la_loss f = true <-> mode f = "loss"%string) /\
  (posthoc_adjusting f = true <-> mode f = "posthoc"%string) /\
  use_la_loss f && posthoc_adjusting f = false /\
  (mode f = "baseline"%string ->
   use_la_loss f = false /\ posthoc_adjusting f = false) /\
  (forall labels logits,
     loss_fn (use_la_loss f) base_probs (tau f) labels logits =
     if String.eqb (mode f) "loss"
     then (l' <- loss_adjust logits base_probs (tau f) ;;
           plain_loss labels l')%result
     else plain_loss labels logits) /\
  (forall s : world W,
     test_adj_acc_metric (create_metrics f s) =
     if String.eqb (mode f) "posthoc" then Some metric0 else None) /\
  (mode f <> "posthoc"%string ->
   (forall b s,
      test_step_ f base_probs b s = test_step_ f None b s /\
      test_adj_acc_metric (fst (test_step_ f base_probs b s))
      = test_adj_acc_metric s) /\
   (forall e, In e (output (fst (main_ gfile f (boot w0)))) ->
              is_adj_event e = false)) /\
  (mode f = "posthoc"%string ->
   forall x y s s',
     test_step_ f base_probs (x, y) s = (s', Ok tt) ->
     exists adjusted ma ma',
       posthoc_adjust (model (weights s) x false) base_probs (tau f)
       = Ok adjusted /\
       test_adj_acc_metric s = Some ma /\
       update_state ma y adjusted = Ok ma' /\
       test_adj_acc_metric s' = Some ma') /\
  (mode f = "posthoc"%string ->
   forall lf bpe epoch (s s' : world W),
     run_epoch_ f lf base_probs bpe epoch s = (s', Ok tt) ->
     exists v, In (adj_scalar v ((Z.of_nat epoch + 1) * bpe)) (output s')) /\
  (forall s' : world W,
     main_ gfile f (boot w0) = (s', Ok tt) ->
     exists bp,
       load_base_probs gfile f = Ok bp /\
       weights s' =
       trained_epochs_ (mode_loss f bp)
         (seq 0 (Z.to_nat (num_epochs (dataset_mappings (dataset f))))) w0 /\
       (forall x y rest,
          (0 < num_epochs (dataset_mappings (dataset f)))%Z ->
          train_dataset 0%nat = (x, y) :: rest ->
          exists l,
            mode_loss f bp y (model w0 x true) = Ok l /\
            In (Scalar "train" "batch loss" (fadd l (model_losses w0)) 0)
               (output s')) /\
       (mode f = "posthoc"%string ->
        (0 < num_epochs (dataset_mappings (dataset f)))%Z ->
        exists v step, In (adj_scalar v step) (output s'))).
Proof.
  split; [apply use_la_loss_iff |].
  split; [apply posthoc_adjusting_iff |].
  split.
  { unfold use_la_loss, posthoc_adjusting.
    destruct (String.eqb_spec (mode f) "loss") as [E | _]; [| reflexivity].
    rewrite E. reflexivity. }
  split.
  { intros H. destruct (baseline_gates f H) as (H1 & H2 & _). auto. }
  split.
  { intros labels logits. unfold loss_fn, use_la_loss.
    destruct (String.eqb (mode f) "loss"); reflexivity. }
  split.
  { intros s. unfold create_metrics, posthoc_adjusting. reflexivity. }
  split.
  - intros Hm. pose proof (not_posthoc f Hm) as Hph. split.
    + intros b s.
      rewrite (test_step_without_posthoc f base_probs None Hph).
      split; [reflexivity |].
      unfold_stmt. rewrite Hph. break_match; reflexivity.
    + intros e He.
      pose proof (no_adj_main gfile f Hph (boot w0) (Forall_nil _)) as H.
      assert (Hall : Forall (fun e => is_adj_event e = false)
                            (output (fst (main_ gfile f (boot w0))))).
      { destruct (main_ gfile f (boot w0)) as [s' [u | e']]; exact H. }
      rewrite Forall_forall in Hall. apply Hall. exact He.
  - split.
    + intros Hm x y s s'. apply posthoc_adjusting_iff in Hm.
      unfold_stmt. rewrite Hm. break_match; intros H; inversion H; subst.
      cbn [test_adj_acc_metric set_test_acc_metric set_test_adj_acc_metric]
        in *.
      eauto 10.
    + split.
      * intros Hm lf bpe epoch s s' H. apply posthoc_adjusting_iff in Hm.
        exact (posthoc_epoch_writes_adjusted f lf base_probs bpe epoch s s'
                 Hm H).
      * intros s' H.
        destruct (main_returns_inv gfile f (boot w0) s' H)
          as (bpe & bp & _ & Hload & Hrun).
        exists bp. split; [exact Hload |]. split.
        { exact (epochs_weights f _ bp bpe _ _ s' Hrun). }
        split.
        { intros x y rest Hn Hd.
          destruct (Z.to_nat (num_epochs (dataset_mappings (dataset f))))
            as [| k] eqn:Ek; [lia |].
          cbn [seq] in Hrun. rewrite for_each_cons in Hrun.
          destruct (run_epoch_ f (mode_loss f bp) bp bpe 0%nat
                      (create_metrics f (boot w0)))
            as [s1 [[] | e]] eqn:E; [| discriminate Hrun].
          destruct (first_batch_loss_written f _ bp bpe 0%nat x y rest
                      _ s1 Hd E) as (l & evs & El & Ho).
          destruct (epochs_output_grows f _ bp bpe _ s1 s' Hrun)
            as [evs2 Ho2].
          exists l. split; [exact El |].
          rewrite Ho2, Ho. apply in_app_iff. left.
          apply in_app_iff. right. simpl. right. left. reflexivity. }
        intros Hm Hn. apply posthoc_adjusting_iff in Hm.
        exact (main_writes_adjusted gfile f w0 s' Hm Hn H).
Qed.

(** *** The loop returns *)

Lemma for_each_total {A} (I : world W -> Prop) (body : A -> M W unit)
    (l : list A) :
  (forall a s, In a l -> I s -> exists s', body a s = (s', Ok tt) /\ I s') ->
  forall s, I s -> exists s', for_each body l s = (s', Ok tt) /\ I s'.
Proof.
  induction l as [| a l IH]; intros Hb s Hs.
  - exists s. split; [reflexivity | exact Hs].
  - destruct (Hb a s (or_introl eq_refl) Hs) as (s1 & E1 & H1).
    destruct (IH (fun a' s' Ha' => Hb a' s' (or_intror Ha')) s1 H1)
      as (s2 & E2 & H2).
    exists s2. rewrite for_each_cons, E1. split; assumption.
Qed.

Section Total.

(** A model with [C] outputs, a prior of length [C], and batches whose
    labels fit the logits. *)
Variable C : nat.
Variable p : list R.
Hypothesis C_pos : (0 < C)%nat.
Hypothesis p_length : length p = C.
Hypothesis model_classes : forall w x tr, has_classes C (model w x tr).
Hypothesis train_labels :
  forall epoch w x y tr,
    In (x, y) (train_dataset epoch) ->
    length y = length (model w x tr) /\
    Forall (fun l => (0 <= l < Z.of_nat C)%Z) y.
Hypothesis test_labels :
  forall w x y tr,
    In (x, y) test_dataset -> length y = length (model w x tr).

Lemma train_step_total (use : bool) (tau0 : R) (bpe : Z) (epoch step : nat)
    (x : X) (y : labels_t) (s : world W) :
  In (x, y) (train_dataset epoch) ->
  exists s', train_step_ (loss_fn use (Some p) tau0) bpe epoch
                         (step, (x, y)) s = (s', Ok tt).
Proof.
  intros Hin.
  destruct (train_labels epoch (weights s) x y true Hin) as [Hlen Hy].
  pose proof (model_classes (weights s) x true) as HL.
  destruct (loss_fn_total use p tau0 y (model (weights s) x true))
    as [l Hl]; [rewrite p_length; exact HL | exact Hlen
               | rewrite p_length; exact Hy |].
  destruct (update_state_total C (train_acc_metric s) y
              (model (weights s) x true) C_pos HL Hlen) as [m' Hm].
  unfold_stmt. rewrite Hl. cbn [train_acc_metric set_weights]. rewrite Hm.
  destruct (Nat.eqb (step mod 1000) 0); eexists; reflexivity.
Qed.

Lemma test_step_total (f : flags) (tau0 : R) (x : X) (y : labels_t)
    (s : world W) :
  tau f = tau0 ->
  In (x, y) test_dataset ->
  (posthoc_adjusting f = true -> test_adj_acc_metric s <> None) ->
  exists s', test_step_ f (Some p) (x, y) s = (s', Ok tt) /\
             (posthoc_adjusting f = true -> test_adj_acc_metric s' <> None).
Proof.
  intros Htau Hin Hadj.
  pose proof (test_labels (weights s) x y false Hin) as Hlen.
  pose proof (model_classes (weights s) x false) as HL.
  destruct (update_state_total C (test_acc_metric s) y
              (model (weights s) x false) C_pos HL Hlen) as [m' Hm].
  unfold_stmt. cbn [weights test_acc_metric]. rewrite Hm.
  destruct (posthoc_adjusting f).
  - rewrite <- p_length in HL.
    rewrite (posthoc_adjust_shape _ p (tau f) HL).
    cbn [test_adj_acc_metric set_test_acc_metric].
    destruct (test_adj_acc_metric s) as [ma |];
      [| destruct (Hadj eq_refl eq_refl)].
    destruct (update_state_total C ma y
                (shift_rows fsub (model (weights s) x false)
                            (log_prior p (tau f))) C_pos)
      as [ma' Hma].
    + rewrite <- p_length, <- (log_prior_length p (tau f)).
      apply shift_rows_classes. rewrite log_prior_length. exact HL.
    + unfold shift_rows. rewrite length_map. exact Hlen.
    + rewrite Hma. eexists. split; [reflexivity |]. simpl. discriminate.
  - eexists. split; [reflexivity | discriminate].
Qed.

Lemma run_epoch_total (f : flags) (use : bool) (bpe : Z) (epoch : nat)
    (s : world W) :
  (posthoc_adjusting f = true -> test_adj_acc_metric s <> None) ->
  exists s', run_epoch_ f (loss_fn use (Some p) (tau f)) (Some p) bpe epoch s
             = (s', Ok tt) /\
             (posthoc_adjusting f = true -> test_adj_acc_metric s' <> None).
Proof.
  intros Hadj. unfold run_epoch.
  destruct (for_each_total
              (fun s => posthoc_adjusting f = true ->
                        test_adj_acc_metric s <> None)
              (train_step_ (loss_fn use (Some p) (tau f)) bpe epoch)
              (enumerate (train_dataset epoch))) with (s := s)
    as (s1 & E1 & H1); [| exact Hadj |].
  { intros [step [x y]] s0 Hin H0.
    apply in_combine_r in Hin.
    destruct (train_step_total use (tau f) bpe epoch step x y s0 Hin)
      as [s' E].
    exists s'. split; [exact E |].
    destruct (train_step_effect _ _ _ _ _ _ E) as (_ & _ & Ha & _).
    rewrite Ha. exact H0. }
  unfold bind. rewrite E1.
  unfold report_train, bind, gets, modify. cbn beta iota.
  match goal with
  | |- context [for_each _ _ ?w] => set (s2 := w)
  end.
  destruct (for_each_total
              (fun s => posthoc_adjusting f = true ->
                        test_adj_acc_metric s <> None)
              (test_step_ f (Some p)) test_dataset) with (s := s2)
    as (s3 & E3 & H3); [| exact H1 |].
  { intros [x y] s0 Hin H0.
    exact (test_step_total f (tau f) x y s0 eq_refl Hin H0). }
  rewrite E3. unfold_stmt.
  destruct (posthoc_adjusting f).
  - cbn [test_adj_acc_metric set_test_acc_metric write].
    destruct (test_adj_acc_metric s3) as [ma |];
      [| destruct (H3 eq_refl eq_refl)].
    eexists. split; [reflexivity |]. simpl. discriminate.
  - eexists. split; [reflexivity | discriminate].
Qed.

Lemma main_total (gfile : string -> result (list R)) (f : flags) (w0 : W) :
  gfile (base_probs_path f) = Ok p ->
  train_batch_size f <> 0%Z ->
  exists s', main_ gfile f (boot w0) = (s', Ok tt).
Proof.
  intros Hfile Hbs. unfold main, bind, lift, modify, build_loss_fn.
  unfold batches_per_epoch.
  destruct (Z.eqb_spec (train_batch_size f) 0); [contradiction |].
  unfold load_base_probs. rewrite Hfile.
  set (bpe := Z.quot _ _).
  destruct (for_each_total
              (fun s => posthoc_adjusting f = true ->
                        test_adj_acc_metric s <> None)
              (run_epoch_ f (loss_fn (use_la_loss f) (Some p) (tau f))
                          (Some p) bpe)
              (seq 0 (Z.to_nat (num_epochs (dataset_mappings (dataset f))))))
    with (s := create_metrics f (boot w0)) as (s' & E & _).
  - intros epoch s _ Hs. apply run_epoch_total. exact Hs.
  - intros Hph. unfold create_metrics. rewrite Hph. simpl. discriminate.
  - exists s'. exact E.
Qed.

End Total.

End LoopProperties.

(** ** The concrete run *)

Module DemoFacts.

Lemma demo_classes : forall (w : nat) (x : unit) (tr : bool),
  has_classes 4 (Demo.model w x tr).
Proof. intros. repeat constructor. Qed.

Lemma demo_train_labels :
  forall (epoch w : nat) (x : unit) (y : labels_t) (tr : bool),
    In (x, y) (Demo.train_dataset epoch) ->
    length y = length (Demo.model w x tr) /\
    Forall (fun l => (0 <= l < Z.of_nat 4)%Z) y.
Proof.
  intros epoch w x y tr [H | []]. injection H as _ <-.
  split; [reflexivity |]. repeat constructor; simpl; lia.
Qed.

Lemma demo_test_labels :
  forall (w : nat) (x : unit) (y : labels_t) (tr : bool),
    In (x, y) Demo.test_dataset -> length y = length (Demo.model w x tr).
Proof. intros w x y tr [H | []]. injection H as _ <-. reflexivity. Qed.

Lemma demo_four_pos : (0 < 4)%nat.
Proof. lia. Qed.

Lemma demo_batch_size : train_batch_size FLAGS <> 0%Z.
Proof. discriminate. Qed.

(** On the concrete data [main] returns in every mode. *)
Lemma demo_main_returns (m : string) :
  exists s', Demo.main Demo.file_present (with_mode FLAGS m) = (s', Ok tt).
Proof.
  apply (main_total unit nat Demo.model Demo.model_losses
           Demo.apply_gradients Demo.dataset_mappings Demo.train_dataset
           Demo.test_dataset 4%nat Demo.uniform demo_four_pos eq_refl
           demo_classes demo_train_labels demo_test_labels Demo.file_present
           (with_mode FLAGS m) 0%nat eq_refl demo_batch_size).
Qed.

End DemoFacts.

Lemma missing_base_probs_file_witness :
  Demo.main Demo.file_missing FLAGS = (boot 0%nat, Raise NotFoundError) /\
  exists s',
    Demo.main Demo.file_missing (with_mode FLAGS "baseline") = (s', Ok tt).
Proof.
  split.
  - apply (missing_base_probs_file unit nat Demo.model Demo.model_losses
             Demo.apply_gradients Demo.dataset_mappings Demo.train_dataset
             Demo.test_dataset Demo.file_missing FLAGS 0%nat eq_refl
             DemoFacts.demo_batch_size).
    right. reflexivity.
  - destruct (missing_base_probs_file unit nat Demo.model Demo.model_losses
                Demo.apply_gradients Demo.dataset_mappings Demo.train_dataset
                Demo.test_dataset Demo.file_missing
                (with_mode FLAGS "baseline") 0%nat eq_refl
                DemoFacts.demo_batch_size) as [_ H].
    destruct (H eq_refl) as [_ H'].
    destruct (DemoFacts.demo_main_returns "baseline") as [s' E].
    exists s'. rewrite <- E.
    exact (H' Demo.file_present Demo.uniform eq_refl).
Defined.

Lemma mode_gating_witness :
  (forall e,
     In e (output (fst (Demo.main Demo.file_present
                          (with_mode FLAGS "baseline")))) ->
     is_adj_event e = false) /\
  test_adj_acc_metric (create_metrics (with_mode FLAGS "posthoc") (boot 0%nat))
  = Some metric0 /\
  exists s',
    Demo.main Demo.file_present (with_mode FLAGS "posthoc") = (s', Ok tt) /\
    weights s' = 2%nat /\
    exists v step, In (adj_scalar v step) (output s').
Proof.
  split; [| split].
  - destruct (mode_gating unit nat Demo.model Demo.model_losses
                Demo.apply_gradients Demo.dataset_mappings Demo.train_dataset
                Demo.test_dataset Demo.file_present
                (with_mode FLAGS "baseline") None 0%nat)
      as (_ & _ & _ & _ & _ & _ & H & _).
    assert (Hm : mode (with_mode FLAGS "baseline") <> "posthoc"%string)
      by discriminate.
    exact (proj2 (H Hm)).
  - destruct (mode_gating unit nat Demo.model Demo.model_losses
                Demo.apply_gradients Demo.dataset_mappings Demo.train_dataset
                Demo.test_dataset Demo.file_present
                (with_mode FLAGS "posthoc") None 0%nat)
      as (_ & _ & _ & _ & _ & H & _).
    exact (H (boot 0%nat)).
  - destruct (DemoFacts.demo_main_returns "posthoc") as [s' E].
    exists s'. split; [exact E |].
    destruct (mode_gating unit nat Demo.model Demo.model_losses
                Demo.apply_gradients Demo.dataset_mappings Demo.train_dataset
                Demo.test_dataset Demo.file_present
                (with_mode FLAGS "posthoc") None 0%nat)
      as (_ & _ & _ & _ & _ & _ & _ & _ & _ & H).
    destruct (H s' E) as (bp & _ & Hw & _ & Hadj).
    split; [rewrite Hw; reflexivity |].
    exact (Hadj eq_refl eq_refl).
Defined.

Lemma absent_base_probs_fail_at_first_call_witness :
  load_base_probs Demo.file_missing FLAGS <> Ok None /\
  train_step Demo.model Demo.model_losses Demo.apply_gradients
             (loss_fn true None 1) 2 0 (0%nat, (tt, [1%Z])) (boot 0%nat)
  = (boot 0%nat, Raise TypeError).
Proof.
  destruct (absent_base_probs_fail_at_first_call unit nat Demo.model
              Demo.model_losses Demo.apply_gradients Demo.file_missing
              FLAGS 1) as (_ & H2 & H3).
  split; [exact (H3 eq_refl) | apply H2].
Defined.

Lemma uniform_prior_exact_arithmetic_demo :
  exists s',
    Demo.main Demo.file_present (with_mode FLAGS "posthoc") = (s', Ok tt) /\
    (exists v step, In (adj_scalar v step) (output s')) /\
    adj_equals_raw (output s').
Proof.
  destruct (DemoFacts.demo_main_returns "posthoc") as [s' E].
  exists s'. split; [exact E |]. split.
  - exact (main_writes_adjusted unit nat Demo.model Demo.model_losses
             Demo.apply_gradients Demo.dataset_mappings Demo.train_dataset
             Demo.test_dataset Demo.file_present (with_mode FLAGS "posthoc")
             0%nat s' eq_refl eq_refl E).
  - assert (Hc : 0 <= / 4) by lra.
    destruct (uniform_prior_exact_arithmetic unit nat Demo.model
                Demo.model_losses Demo.apply_gradients Demo.dataset_mappings
                Demo.train_dataset Demo.test_dataset Demo.file_present
                (with_mode FLAGS "posthoc") (/ 4) 4%nat 0%nat eq_refl eq_refl
                Hc)
      as (_ & _ & _ & H).
    specialize (H eq_refl). rewrite E in H. exact H.
Defined.

Lemma accuracy_metrics_take_raw_logits_witness :
  exists s',
    train_step Demo.model Demo.model_losses Demo.apply_gradients
               (loss_fn (use_la_loss FLAGS) (Some Demo.uniform) (tau FLAGS))
               2 0 (0%nat, (tt, [1%Z])) (boot 0%nat) = (s', Ok tt) /\
    update_state metric0 [1%Z] (Demo.model 0%nat tt true)
    = Ok (train_acc_metric s').
Proof.
  destruct (train_step_total unit nat Demo.model Demo.model_losses
              Demo.apply_gradients Demo.train_dataset 4%nat Demo.uniform
              DemoFacts.demo_four_pos eq_refl DemoFacts.demo_classes
              DemoFacts.demo_train_labels (use_la_loss FLAGS) (tau FLAGS) 2%Z
              0%nat 0%nat tt [1%Z] (boot 0%nat) (or_introl eq_refl))
    as [s' E].
  exists s'. split; [exact E |].
  destruct (accuracy_metrics_take_raw_logits unit nat Demo.model
              Demo.model_losses Demo.apply_gradients FLAGS
              (Some Demo.uniform) 2%Z 0%nat 0%nat tt [1%Z] (boot 0%nat) s'
              (Ok tt)) as [H _].
  destruct (H E) as [H1 _]. exact (H1 eq_refl).
Defined.

Lemma accumulators_read_and_reset_once_per_epoch_witness :
  exists s',
    run_epoch Demo.model Demo.model_losses Demo.apply_gradients
              Demo.train_dataset Demo.test_dataset
              (with_mode FLAGS "posthoc")
              (loss_fn false (Some Demo.uniform) 1) (Some Demo.uniform)
              2 0 (create_metrics (with_mode FLAGS "posthoc") (boot 0%nat))
    = (s', Ok tt) /\
    fresh_metrics (with_mode FLAGS "posthoc") s' /\
    weights s' = 1%nat.
Proof.
  assert (H0 : posthoc_adjusting (with_mode FLAGS "posthoc") = true ->
               test_adj_acc_metric
                 (create_metrics (with_mode FLAGS "posthoc") (boot 0%nat))
               <> None) by (intros _; discriminate).
  destruct (run_epoch_total unit nat Demo.model Demo.model_losses
              Demo.apply_gradients Demo.train_dataset Demo.test_dataset
              4%nat Demo.uniform DemoFacts.demo_four_pos eq_refl DemoFacts.demo_classes
              DemoFacts.demo_train_labels DemoFacts.demo_test_labels
              (with_mode FLAGS "posthoc") false 2%Z 0%nat _ H0)
    as (s' & E & _).
  exists s'. split; [exact E |].
  destruct (accumulators_read_and_reset_once_per_epoch unit nat Demo.model
              Demo.model_losses Demo.apply_gradients Demo.train_dataset
              Demo.test_dataset (with_mode FLAGS "posthoc")
              (loss_fn false (Some Demo.uniform) 1) (Some Demo.uniform) 2%Z)
    as (_ & H & Hfresh & _).
  destruct (H 0%nat _ s' (Hfresh (boot 0%nat)) E)
    as (Hf & mt & me & ma & evs & _ & Hw & _).
  split; [exact Hf |]. rewrite Hw. reflexivity.
Defined.

(** * Further properties of the code *)

(** ** The log-prior term grows with the prior *)

Lemma np_power_pos_eq (x y : R) :
  0 < x -> y <> 0 -> np_power x y = Fin (Rpower x y).
Proof.
  intros Hx Hy. unfold np_power.
  destruct (Req_dec_T y 0) as [E | _]; [contradiction |].
  destruct (Rlt_dec 0 x) as [_ | Hn]; [reflexivity | contradiction].
Qed.

Lemma np_power_monotone (a b tau : R) :
  0 <= a <= b -> 0 < tau ->
  exists ra rb,
    np_power a tau = Fin ra /\ np_power b tau = Fin rb /\
    0 <= ra <= rb /\ (a < b -> ra < rb).
Proof.
  intros [Ha Hab] Ht.
  assert (Ht0 : tau <> 0) by lra.
  destruct Ha as [Ha | <-].
  - exists (Rpower a tau), (Rpower b tau).
    rewrite !np_power_pos_eq by lra.
    split; [reflexivity |]. split; [reflexivity |].
    split.
    + split; [left; apply exp_pos |].
      apply Rle_Rpower_l; lra.
    + intros Hlt. apply Rlt_Rpower_l; lra.
  - destruct Hab as [Hb | <-].
    + exists 0, (Rpower b tau).
      rewrite np_power_zero by exact Ht.
      rewrite np_power_pos_eq by lra.
      split; [reflexivity |]. split; [reflexivity |].
      pose proof (exp_pos (tau * ln b)) as Hpos. unfold Rpower.
      split; [lra | intros _; exact Hpos].
    + exists 0, 0. rewrite np_power_zero by exact Ht.
      repeat split; lra.
Qed.

Lemma log_prior_f32_nth (p : list R) (tau : R) (i : nat) :
  (i < length p)%nat ->
  nth i (log_prior_f32 p tau) NaN = log_prior_entry_f32 (nth i p 0) tau.
Proof.
  intros Hi. unfold log_prior_f32.
  rewrite (nth_indep _ NaN (log_prior_entry_f32 0 tau))
    by (rewrite length_map; exact Hi).
  apply (map_nth (fun q => log_prior_entry_f32 q tau)).
Qed.

(** As the program evaluates it ([**] and [log] taken as correctly
    rounded): for a prior with entries between 0 and 1 and a positive
    temperature, a class that is no more frequent than another gets a
    float32 log-prior term that is no larger, so of two classes with equal
    raw logits the post-hoc adjustment, which subtracts the term, never
    puts the rarer one below the other.  (After rounding the two terms can
    be equal although the priors differ.) *)
Theorem posthoc_adjustment_never_lowers_rarer_class
    (p : list R) (tau : R) (i j : nat) :
  Forall (fun x => 0 <= x <= 1) p -> 0 < tau ->
  (i < length p)%nat -> (j < length p)%nat ->
  nth i p 0 <= nth j p 0 ->
  exists ri rj,
    nth i (log_prior_f32 p tau) NaN = Fin ri /\
    nth j (log_prior_f32 p tau) NaN = Fin rj /\
    ri <= rj /\
    forall x : R,
      fltb (tf_subtract_f32 (Fin x) (Fin ri))
           (tf_subtract_f32 (Fin x) (Fin rj)) = false.
Proof.
  intros Hp Ht Hi Hj Hij.
  rewrite Forall_forall in Hp.
  pose proof (Hp _ (nth_In p 0 Hi)) as Hpi.
  pose proof (Hp _ (nth_In p 0 Hj)) as Hpj.
  destruct (np_power_monotone (nth i p 0) (nth j p 0) tau
              (conj (proj1 Hpi) Hij) Ht)
    as (ra & rb & Ea & Eb & [Hra Hrab] & _).
  destruct (np_power_unit (nth j p 0) tau Hpj Ht) as (rb' & Eb' & Hb').
  assert (rb' = rb) by congruence. subst rb'.
  assert (Ha : 0 <= ra <= 1) by lra.
  rewrite !log_prior_f32_nth by assumption.
  rewrite (log_prior_entry_f32_value _ tau ra Ea Ha).
  rewrite (log_prior_entry_f32_value _ tau rb Eb Hb').
  destruct (log_prior_entry_chain ra Ha) as (_ & _ & (_ & Ba) & _).
  pose proof (FloatFacts.bpow_pos (-40)) as Hp40.
  assert (Hle : rv32 (ln (rv32 (rv64 (rv64 ra + rv64 eps))))
                <= rv32 (ln (rv32 (rv64 (rv64 rb + rv64 eps))))).
  { apply FloatFacts.round_val_le; [reflexivity |].
    apply ln_le; [lra |].
    apply FloatFacts.round_val_le; [reflexivity |].
    apply FloatFacts.round_val_le; [reflexivity |].
    apply Rplus_le_compat_r.
    apply FloatFacts.round_val_le; [reflexivity | exact Hrab]. }
  eexists _, _. split; [reflexivity |]. split; [reflexivity |].
  split; [exact Hle |].
  intros x. unfold tf_subtract_f32, fsub. cbn [fneg fadd Float.round_fp].
  apply (FloatFacts.round_fltb_le b32 prec32_pos). lra.
Qed.

Lemma posthoc_adjustment_never_lowers_rarer_class_witness :
  exists ri rj,
    nth 0 (log_prior_f32 [/ 10; / 2] 1) NaN = Fin ri /\
    nth 1 (log_prior_f32 [/ 10; / 2] 1) NaN = Fin rj /\
    ri <= rj.
Proof.
  assert (Hp : Forall (fun x => 0 <= x <= 1) [/ 10; / 2])
    by (repeat constructor; lra).
  assert (Ht : 0 < 1) by lra.
  assert (H0 : (0 < length [/ 10; / 2])%nat) by (simpl; lia).
  assert (H1 : (1 < length [/ 10; / 2])%nat) by (simpl; lia).
  assert (Hle : nth 0 [/ 10; / 2] 0 <= nth 1 [/ 10; / 2] 0) by (simpl; lra).
  destruct (posthoc_adjustment_never_lowers_rarer_class [/ 10; / 2] 1 0 1
              Hp Ht H0 H1 Hle) as (ri & rj & Ei & Ej & Hs & _).
  exists ri, rj. split; [exact Ei |]. split; [exact Ej |]. exact Hs.
Defined.

(** ** The cross-entropy of finite logits *)

Lemma finite_vec_reals (row : list fp) :
  finite_vec row -> exists xs, row = map Fin xs.
Proof.
  induction 1 as [| x row Hx _ [xs ->]].
  - exists []. reflexivity.
  - destruct x as [r | | |]; try discriminate Hx.
    exists (r :: xs). reflexivity.
Qed.

Lemma fsum_exp_from (xs : list R) (a : R) :
  fold_left fadd (map fexp (map Fin xs)) (Fin a)
  = Fin (fold_left Rplus (map exp xs) a).
Proof.
  revert a. induction xs as [| x xs IH]; intros a; simpl; [reflexivity |].
  apply IH.
Qed.

Lemma sum_exp_lower (xs : list R) (a : R) :
  a <= fold_left Rplus (map exp xs) a /\
  forall x, In x xs -> a + exp x <= fold_left Rplus (map exp xs) a.
Proof.
  revert a. induction xs as [| y xs IH]; intros a; simpl.
  - split; [lra | intros x []].
  - destruct (IH (a + exp y)) as [H1 H2].
    pose proof (exp_pos y) as Hy.
    split; [lra |].
    intros x [-> | Hx]; [exact H1 |].
    specialize (H2 x Hx). lra.
Qed.

Lemma sum_exp_shift (k : R) (xs : list R) (a : R) :
  fold_left Rplus (map exp (map (fun x => x + k) xs)) (a * exp k)
  = fold_left Rplus (map exp xs) a * exp k.
Proof.
  revert a. induction xs as [| x xs IH]; intros a; simpl; [reflexivity |].
  rewrite <- IH. f_equal. rewrite exp_plus. ring.
Qed.

Lemma nth_map_Fin (xs : list R) (i : nat) :
  (i < length xs)%nat -> nth i (map Fin xs) NaN = Fin (nth i xs 0).
Proof.
  intros Hi.
  rewrite (nth_indep _ NaN (Fin 0)) by (rewrite length_map; exact Hi).
  apply map_nth.
Qed.

(** The cross-entropy of a row of finite logits [xs] at a label in range:
    a finite, non-negative number. *)
Lemma cross_entropy_row_finite (label : Z) (xs : list R) :
  (0 <= label < Z.of_nat (length xs))%Z ->
  cross_entropy_row label (map Fin xs)
  = Ok (Fin (ln (fold_left Rplus (map exp xs) 0)
             - nth (Z.to_nat label) xs 0)) /\
  0 <= ln (fold_left Rplus (map exp xs) 0) - nth (Z.to_nat label) xs 0.
Proof.
  intros Hl. unfold cross_entropy_row. rewrite length_map.
  destruct (Z.leb_spec 0 label); [| lia].
  destruct (Z.ltb_spec label (Z.of_nat (length xs))); [| lia].
  cbn [andb]. unfold fsum. rewrite fsum_exp_from.
  assert (Hi : (Z.to_nat label < length xs)%nat) by lia.
  destruct (sum_exp_lower xs 0) as [_ Hlow].
  specialize (Hlow (nth (Z.to_nat label) xs 0) (nth_In xs 0 Hi)).
  pose proof (exp_pos (nth (Z.to_nat label) xs 0)) as Hpos.
  rewrite tf_math_log_pos by lra.
  rewrite nth_map_Fin by exact Hi. cbn [fsub fneg fadd].
  split; [reflexivity |].
  assert (Hle : nth (Z.to_nat label) xs 0
                <= ln (fold_left Rplus (map exp xs) 0)).
  { rewrite <- (ln_exp (nth (Z.to_nat label) xs 0)) at 1.
    destruct (Req_dec_T (exp (nth (Z.to_nat label) xs 0))
                        (fold_left Rplus (map exp xs) 0)) as [E | NE].
    - rewrite E. right. reflexivity.
    - left. apply ln_increasing; lra. }
  lra.
Qed.

(** Adding the same finite constant to every class leaves the
    cross-entropy of a finite row unchanged. *)
Lemma cross_entropy_row_shift (k : R) (label : Z) (xs : list R) :
  cross_entropy_row label (map (fun x => fadd x (Fin k)) (map Fin xs))
  = cross_entropy_row label (map Fin xs).
Proof.
  replace (map (fun x => fadd x (Fin k)) (map Fin xs))
    with (map Fin (map (fun x => x + k) xs))
    by (rewrite !map_map; reflexivity).
  destruct (Z.leb_spec 0 label) as [H0 | H0];
    [destruct (Z.ltb_spec label (Z.of_nat (length xs))) as [H1 | H1] |].
  - destruct (cross_entropy_row_finite label xs (conj H0 H1)) as [-> _].
    assert (H1' : (0 <= label
                   < Z.of_nat (length (map (fun x => (x + k)%R) xs)))%Z)
      by (rewrite length_map; lia).
    destruct (cross_entropy_row_finite label _ H1') as [-> _].
    f_equal. f_equal.
    assert (Hi : (Z.to_nat label < length xs)%nat) by lia.
    rewrite (nth_indep _ 0 (0 + k)) by (rewrite length_map; exact Hi).
    rewrite (map_nth (fun x => x + k)).
    replace 0 with (0 * exp k) at 1 by ring.
    rewrite sum_exp_shift.
    destruct (sum_exp_lower xs 0) as [_ Hlow].
    specialize (Hlow _ (nth_In xs 0 Hi)).
    pose proof (exp_pos (nth (Z.to_nat label) xs 0)).
    rewrite ln_mult by (try apply exp_pos; lra).
    rewrite ln_exp. ring.
  - unfold cross_entropy_row. rewrite !length_map.
    destruct (Z.ltb_spec label (Z.of_nat (length xs))); [lia |].
    rewrite andb_false_r. reflexivity.
  - unfold cross_entropy_row.
    destruct (Z.leb_spec 0 label); [lia | reflexivity].
Qed.

Lemma cross_entropy_batch_shift (k : R) (n : nat) (labels : labels_t)
    (L : logits_t) :
  Forall finite_vec L -> has_classes n L ->
  sparse_softmax_cross_entropy_with_logits labels
    (shift_rows fadd L (repeat (Fin k) n))
  = sparse_softmax_cross_entropy_with_logits labels L.
Proof.
  intros Hfin HL. unfold sparse_softmax_cross_entropy_with_logits.
  unfold shift_rows at 1. rewrite length_map.
  destruct (Nat.eqb (length labels) (length L)); [| reflexivity].
  revert labels. induction Hfin as [| row L Hrow _ IH]; intros labels.
  - reflexivity.
  - pose proof (Forall_inv HL) as Hn. simpl in Hn.
    specialize (IH (Forall_inv_tail HL)).
    destruct labels as [| y labels]; [reflexivity |].
    cbn [shift_rows map combine rmap fst snd].
    rewrite <- Hn, combine_repeat.
    destruct (finite_vec_reals row Hrow) as [xs ->].
    rewrite cross_entropy_row_shift.
    destruct (cross_entropy_row y (map Fin xs)) as [v |]; [| reflexivity].
    cbn [rbind]. rewrite length_map in Hn. rewrite <- Hn in IH.
    rewrite length_map. unfold shift_rows in IH. rewrite IH. reflexivity.
Qed.

Lemma log_prior_tau_zero (p : list R) :
  log_prior p 0 = repeat (Fin (ln (1 + eps))) (length p).
Proof.
  unfold log_prior. induction p as [| q p IH]; simpl; [reflexivity |].
  rewrite IH. f_equal. unfold np_power, tf_cast.
  destruct (Req_dec_T 0 0) as [_ | H]; [| lra].
  cbn [fadd]. apply tf_math_log_pos. pose proof eps_pos. lra.
Qed.

Lemma log_prior_repeat (c tau : R) (n : nat) :
  0 <= c -> 0 < tau ->
  exists k, log_prior (repeat c n) tau = repeat (Fin k) n.
Proof.
  intros Hc Ht.
  destruct (log_prior_entry_finite c tau Hc Ht) as [k Hk].
  exists k. unfold log_prior.
  induction n as [| n IH]; simpl; [reflexivity |].
  rewrite IH, Hk. reflexivity.
Qed.

Lemma adjusted_loss_uniform (k : R) (p : list R) (tau : R)
    (labels : labels_t) (L : logits_t) :
  log_prior p tau = repeat (Fin k) (length p) ->
  Forall finite_vec L -> has_classes (length p) L ->
  loss_fn true (Some p) tau labels L = plain_loss labels L.
Proof.
  intros Hlp Hfin HL. unfold loss_fn, plain_loss.
  rewrite (loss_adjust_shape L p tau HL). cbn [rbind].
  rewrite Hlp, (cross_entropy_batch_shift k (length p) labels L Hfin HL).
  reflexivity.
Qed.

(** On a batch of finite logits with one column per class, the adjusted
    loss is the plain loss when the temperature is 0 (whatever the prior)
    and when the prior is uniform (entries equal and non-negative,
    positive temperature): the log-prior term is then the same in every
    class and the softmax cross-entropy does not see it. *)
Theorem uniform_log_prior_leaves_loss_unchanged
    (labels : labels_t) (L : logits_t) :
  Forall finite_vec L ->
  (forall p, has_classes (length p) L ->
     loss_fn true (Some p) 0 labels L = plain_loss labels L) /\
  (forall c n tau, 0 <= c -> 0 < tau -> has_classes n L ->
     loss_fn true (Some (repeat c n)) tau labels L = plain_loss labels L).
Proof.
  intros Hfin. split.
  - intros p HL.
    exact (adjusted_loss_uniform _ p 0 labels L (log_prior_tau_zero p)
             Hfin HL).
  - intros c n tau Hc Ht HL.
    destruct (log_prior_repeat c tau n Hc Ht) as [k Hk].
    apply (adjusted_loss_uniform k); rewrite ?repeat_length; assumption.
Qed.

Lemma uniform_log_prior_leaves_loss_unchanged_witness :
  loss_fn true (Some [/ 10; / 2]) 0 [1%Z] [[Fin 0; Fin 2]]
  = plain_loss [1%Z] [[Fin 0; Fin 2]].
Proof.
  assert (Hfin : Forall finite_vec [[Fin 0; Fin 2]])
    by (repeat constructor).
  apply (uniform_log_prior_leaves_loss_unchanged [1%Z] [[Fin 0; Fin 2]] Hfin).
  repeat constructor.
Defined.

Lemma fsum_reals_from (vs : list R) (a : R) :
  fold_left fadd (map Fin vs) (Fin a) = Fin (fold_left Rplus vs a).
Proof.
  revert a. induction vs as [| v vs IH]; intros a; simpl; [reflexivity |].
  apply IH.
Qed.

Lemma sum_nonneg_from (vs : list R) (a : R) :
  Forall (fun v => 0 <= v) vs -> a <= fold_left Rplus vs a.
Proof.
  intros H. revert a. induction H as [| v vs Hv _ IH]; intros a; simpl.
  - lra.
  - specialize (IH (a + v)). lra.
Qed.

Lemma reduce_mean_nonneg (vs : list R) :
  vs <> [] -> Forall (fun v => 0 <= v) vs ->
  exists r, reduce_mean (map Fin vs) = Fin r /\ 0 <= r.
Proof.
  intros Hne Hvs. destruct vs as [| v vs]; [contradiction |].
  unfold reduce_mean. cbn [map]. unfold fsum.
  change (Fin v :: map Fin vs) with (map Fin (v :: vs)).
  rewrite fsum_reals_from. cbn [fscale].
  eexists. split; [reflexivity |].
  pose proof (sum_nonneg_from (v :: vs) 0 Hvs) as Hs.
  assert (Hn : 0 < INR (length (map Fin (v :: vs)))).
  { apply lt_0_INR. simpl. lia. }
  apply Rmult_le_pos; [exact Hs |].
  left. apply Rinv_0_lt_compat. exact Hn.
Qed.

Lemma cross_entropy_batch_nonneg (C : nat) (labels : labels_t)
    (L : logits_t) :
  Forall finite_vec L -> has_classes C L -> length labels = length L ->
  Forall (fun y => (0 <= y < Z.of_nat C)%Z) labels ->
  exists vs,
    sparse_softmax_cross_entropy_with_logits labels L = Ok (map Fin vs) /\
    Forall (fun v => 0 <= v) vs /\ length vs = length L.
Proof.
  intros Hfin HL Hlen Hy. unfold sparse_softmax_cross_entropy_with_logits.
  rewrite Hlen, Nat.eqb_refl.
  revert labels Hlen Hy.
  induction Hfin as [| row L Hrow _ IH]; intros [| y labels] Hlen Hy;
    try discriminate Hlen.
  - exists []. repeat split. constructor.
  - pose proof (Forall_inv HL) as Hn. simpl in Hn.
    destruct (IH (Forall_inv_tail HL) labels (eq_add_S _ _ Hlen)
                 (Forall_inv_tail Hy)) as (vs & E & Hvs & Hl).
    destruct (finite_vec_reals row Hrow) as [xs ->].
    rewrite length_map in Hn.
    pose proof (Forall_inv Hy) as Hy0. simpl in Hy0. rewrite <- Hn in Hy0.
    destruct (cross_entropy_row_finite y xs Hy0) as [Ev Hv].
    cbn [combine rmap fst snd]. rewrite Ev, E. cbn [rbind].
    eexists (_ :: vs). split; [reflexivity |].
    split; [constructor; assumption | simpl; f_equal; exact Hl].
Qed.

(** For a prior with non-negative entries and a positive temperature,
    finite logits with one column per class and labels in range, the loss
    of a batch with at least one example is a finite, non-negative
    number, with and without adjustment; the loss of the empty batch is
    NaN. *)
Theorem loss_is_finite_and_nonnegative
    (use : bool) (p : list R) (tau : R) (labels : labels_t) (L : logits_t) :
  Forall (fun x => 0 <= x) p -> 0 < tau ->
  Forall finite_vec L -> has_classes (length p) L ->
  length labels = length L ->
  Forall (fun y => (0 <= y < Z.of_nat (length p))%Z) labels ->
  (L <> [] ->
   exists r, loss_fn use (Some p) tau labels L = Ok (Fin r) /\ 0 <= r) /\
  loss_fn use (Some p) tau [] [] = Ok NaN.
Proof.
  intros Hp Ht Hfin HL Hlen Hy. split.
  - intros Hne.
    assert (Hgen : forall L', Forall finite_vec L' ->
              has_classes (length p) L' -> length L' = length L ->
              exists r, plain_loss labels L' = Ok (Fin r) /\ 0 <= r).
    { intros L' Hfin' HL' Hlen'.
      destruct (cross_entropy_batch_nonneg (length p) labels L' Hfin' HL')
        as (vs & E & Hvs & Hl); [congruence | exact Hy |].
      unfold plain_loss. rewrite E. cbn [rbind].
      destruct (reduce_mean_nonneg vs) as (r & Er & Hr); [| exact Hvs |].
      - intros ->. simpl in Hl. rewrite Hlen' in Hl.
        destruct L; [contradiction | discriminate Hl].
      - exists r. rewrite Er. split; [reflexivity | exact Hr]. }
    unfold loss_fn. destruct use.
    + rewrite (loss_adjust_shape L p tau HL). cbn [rbind].
      apply (Hgen (shift_rows fadd L (log_prior p tau))).
      * apply finite_shift_rows;
          [exact fadd_finite | apply log_prior_finite; assumption
          | exact Hfin].
      * rewrite <- (log_prior_length p tau). apply shift_rows_classes.
        rewrite log_prior_length. exact HL.
      * unfold shift_rows. apply length_map.
    + cbn [rbind]. apply (Hgen L); [assumption | assumption | reflexivity].
  - destruct use; reflexivity.
Qed.

Lemma loss_is_finite_and_nonnegative_witness :
  exists r,
    loss_fn true (Some [/ 10; / 2]) 1 [1%Z] [[Fin 0; Fin 2]] = Ok (Fin r) /\
    0 <= r.
Proof.
  assert (Hp : Forall (fun x => 0 <= x) [/ 10; / 2])
    by (repeat constructor; lra).
  assert (Ht : 0 < 1) by lra.
  assert (Hfin : Forall finite_vec [[Fin 0; Fin 2]]) by (repeat constructor).
  assert (HL : has_classes (length [/ 10; / 2]) [[Fin 0; Fin 2]])
    by (repeat constructor).
  assert (Hy : Forall (fun y => (0 <= y < Z.of_nat (length [/ 10; / 2]))%Z)
                      [1%Z]) by (repeat constructor; simpl; lia).
  destruct (loss_is_finite_and_nonnegative true [/ 10; / 2] 1 [1%Z]
              [[Fin 0; Fin 2]] Hp Ht Hfin HL eq_refl Hy) as [H _].
  apply H. discriminate.
Defined.

(** ** The accuracy metric *)

Lemma matches_bounds (labels : labels_t) (preds : list Z) :
  (0 <= matches labels preds <= Z.of_nat (length labels))%Z.
Proof.
  revert preds. induction labels as [| y labels IH]; intros [| p preds];
    cbn [matches length]; try lia.
  specialize (IH preds). destruct (Z.eqb y p); lia.
Qed.

Lemma update_state_proper (m m' : metric) (labels : labels_t)
    (L : logits_t) :
  proper_metric m -> update_state m labels L = Ok m' -> proper_metric m'.
Proof.
  unfold proper_metric, update_state. intros Hm.
  destruct (Nat.eqb (length labels) (length L)); [| discriminate].
  destruct (rmap argmax L) as [preds |]; simpl; [| discriminate].
  intros H. injection H as <-. simpl.
  pose proof (matches_bounds labels preds). lia.
Qed.

Lemma metric_result_unit (m : metric) :
  proper_metric m -> unit_interval (metric_result m).
Proof.
  unfold proper_metric, unit_interval, metric_result. intros [H0 H1].
  eexists. split; [reflexivity |].
  destruct (Z.eqb_spec (count m) 0) as [E | NE]; [lra |].
  assert (Hc : 0 < IZR (count m)) by (apply IZR_lt; lia).
  assert (Ht0 : 0 <= IZR (total m)) by (apply IZR_le; lia).
  assert (Ht1 : IZR (total m) <= IZR (count m)) by (apply IZR_le; lia).
  pose proof (Rinv_0_lt_compat _ Hc) as Hi.
  unfold Rdiv. split; [apply Rmult_le_pos; lra |].
  apply (Rmult_le_reg_r (IZR (count m))); [exact Hc |].
  rewrite Rmult_assoc, Rinv_l by lra. lra.
Qed.

Lemma metric0_proper : proper_metric metric0.
Proof. unfold proper_metric. simpl. lia. Qed.

(** ** More on the loop *)

Section LoopExtras.

Variables X W : Type.
Variable model : W -> X -> bool -> logits_t.
Variable model_losses : W -> fp.
Variable apply_gradients : (W -> result fp) -> W -> W.
Variable dataset_mappings : string -> dataset_info.
Variable train_dataset : nat -> list (X * labels_t).
Variable test_dataset : list (X * labels_t).

Local Abbreviation train_step_ :=
  (train_step model model_losses apply_gradients).
Local Abbreviation test_step_ := (test_step model).
Local Abbreviation run_epoch_ :=
  (run_epoch model model_losses apply_gradients train_dataset test_dataset).
Local Abbreviation main_ :=
  (main model model_losses apply_gradients dataset_mappings train_dataset
        test_dataset).

(** *** Every accuracy written lies between 0 and 1 *)

Local Abbreviation in_range :=
  (fun s : world W => Forall accuracy_in_range (output s)).

Local Abbreviation proper :=
  (fun s : world W =>
     proper_metric (train_acc_metric s) /\
     proper_metric (test_acc_metric s) /\
     (forall ma, test_adj_acc_metric s = Some ma -> proper_metric ma) /\
     Forall accuracy_in_range (output s)).

Lemma proper_train_step (lf : loss_fn_t) (bpe : Z) (epoch : nat)
    (b : nat * (X * labels_t)) :
  triple proper (train_step_ lf bpe epoch b) (fun _ => proper) in_range.
Proof.
  intros s (Ht & Hte & Ha & Ho). unfold_stmt.
  destruct (lf (snd (snd b)) (model (weights s) (fst (snd b)) true))
    as [l | e]; [| exact Ho].
  cbn [train_acc_metric set_weights].
  destruct (update_state (train_acc_metric s) (snd (snd b))
              (model (weights s) (fst (snd b)) true)) as [m' | e] eqn:Em;
    [| exact Ho].
  pose proof (update_state_proper _ _ _ _ Ht Em) as Hm'.
  destruct (Nat.eqb (fst b mod 1000) 0); simpl;
    refine (conj Hm' (conj Hte (conj Ha _))); [| exact Ho].
  apply Forall_app. split; [exact Ho | repeat constructor].
Qed.

Lemma proper_report_train (bpe : Z) (epoch : nat) :
  triple proper (report_train (W := W) bpe epoch) (fun _ => proper)
         in_range.
Proof.
  intros s (Ht & Hte & Ha & Ho). unfold_stmt. simpl.
  refine (conj metric0_proper (conj Hte (conj Ha _))).
  apply Forall_app. split; [exact Ho |].
  pose proof (metric_result_unit _ Ht).
  repeat constructor; assumption.
Qed.

Lemma proper_test_step (f : flags) (bp : option (list R))
    (b : X * labels_t) :
  triple proper (test_step_ f bp b) (fun _ => proper) in_range.
Proof.
  intros s (Ht & Hte & Ha & Ho). unfold_stmt. cbn [test_acc_metric weights].
  destruct (update_state (test_acc_metric s) (snd b)
              (model (weights s) (fst b) false)) as [m' | e] eqn:Em;
    [| exact Ho].
  pose proof (update_state_proper _ _ _ _ Hte Em) as Hm'.
  destruct (posthoc_adjusting f);
    [| simpl; exact (conj Ht (conj Hm' (conj Ha Ho)))].
  destruct (posthoc_adjust (model (weights s) (fst b) false) bp (tau f))
    as [adj | e]; [| exact Ho].
  cbn [test_adj_acc_metric set_test_acc_metric].
  destruct (test_adj_acc_metric s) as [ma |] eqn:Ema; [| exact Ho].
  destruct (update_state ma (snd b) adj) as [ma' | e] eqn:Ea; [| exact Ho].
  simpl. refine (conj Ht (conj Hm' (conj _ Ho))).
  intros ma0 H0. injection H0 as <-.
  exact (update_state_proper _ _ _ _ (Ha ma eq_refl) Ea).
Qed.

Lemma proper_report_test (f : flags) (bpe : Z) (epoch : nat) :
  triple proper (report_test (W := W) f bpe epoch) (fun _ => proper)
         in_range.
Proof.
  intros s (Ht & Hte & Ha & Ho). unfold_stmt.
  pose proof (metric_result_unit _ Hte) as Hv.
  assert (Ho1 : Forall accuracy_in_range
                  (output s ++
                   [Print_test_acc (metric_result (test_acc_metric s));
                    Scalar "test" "accuracy"
                      (metric_result (test_acc_metric s))
                      ((Z.of_nat epoch + 1) * bpe)])).
  { apply Forall_app. split; [exact Ho | repeat constructor; assumption]. }
  destruct (posthoc_adjusting f).
  - cbn [test_adj_acc_metric set_test_acc_metric write].
    destruct (test_adj_acc_metric s) as [ma |] eqn:Ema; [| exact Ho1].
    pose proof (metric_result_unit _ (Ha ma eq_refl)) as Hva.
    simpl. refine (conj Ht (conj metric0_proper (conj _ _))).
    + intros ma0 H0. injection H0 as <-. apply metric0_proper.
    + apply Forall_app. split; [exact Ho1 | repeat constructor; assumption].
  - simpl. exact (conj Ht (conj metric0_proper (conj Ha Ho1))).
Qed.

Lemma proper_main (gfile : string -> result (list R)) (f : flags) :
  triple proper (main_ gfile f) (fun _ => proper) in_range.
Proof.
  unfold main.
  assert (Hweak : forall s : world W, proper s -> in_range s)
    by (intros s (_ & _ & _ & Ho); exact Ho).
  assert (Hlift : forall A (r : result A),
            triple proper (lift r) (fun _ => proper) in_range).
  { intros A r s Hs. unfold lift. destruct r; [exact Hs | apply Hweak, Hs]. }
  eapply triple_bind; [apply Hlift | intros bpe].
  eapply triple_bind; [apply Hlift | intros bp].
  eapply triple_bind; [apply Hlift | intros lf].
  eapply triple_bind.
  { apply triple_modify with (Q := proper).
    intros s (_ & _ & _ & Ho). unfold create_metrics. simpl.
    refine (conj metric0_proper (conj metric0_proper (conj _ Ho))).
    intros ma. destruct (posthoc_adjusting f); [| discriminate].
    intros H. injection H as <-. apply metric0_proper. }
  intros ?. apply triple_for_each. intros epoch _. unfold run_epoch.
  eapply triple_bind;
    [apply triple_for_each; intros; apply proper_train_step | intros ?].
  eapply triple_bind; [apply proper_report_train | intros ?].
  eapply triple_bind;
    [apply triple_for_each; intros; apply proper_test_step | intros ?].
  apply proper_report_test.
Qed.

(** Whatever the collaborators, the mode and the file, and whether the
    run completes or raises, every accuracy that [main] prints or writes
    (train, test, logit-adjusted) is a finite number between 0 and 1. *)
Theorem accuracies_written_are_between_0_and_1
    (gfile : string -> result (list R)) (f : flags) (w0 : W) :
  Forall accuracy_in_range (output (fst (main_ gfile f (boot w0)))).
Proof.
  assert (H0 : proper (boot w0)).
  { simpl. refine (conj metric0_proper (conj metric0_proper (conj _ _)));
      [discriminate | constructor]. }
  pose proof (proper_main gfile f (boot w0) H0) as H.
  destruct (main_ gfile f (boot w0)) as [s' [u | e]]; simpl.
  - destruct H as (_ & _ & _ & Ho). exact Ho.
  - exact H.
Qed.

(** *** A training batch completes or leaves the world as it was *)

Lemma cross_entropy_rows_nonempty (labels : labels_t) (L : logits_t)
    (vs : list fp) :
  sparse_softmax_cross_entropy_with_logits labels L = Ok vs ->
  length labels = length L /\ Forall (fun row => row <> []) L.
Proof.
  unfold sparse_softmax_cross_entropy_with_logits.
  destruct (Nat.eqb_spec (length labels) (length L)) as [Hlen | _];
    [| discriminate].
  intros H. split; [exact Hlen |].
  revert labels vs Hlen H.
  induction L as [| row L IH]; intros [| y labels] vs Hlen H;
    try discriminate Hlen; [constructor |].
  cbn [combine rmap fst snd] in H.
  destruct (cross_entropy_row y row) as [v |] eqn:Ev; [| discriminate H].
  cbn [rbind] in H.
  destruct (rmap (fun yl => cross_entropy_row (fst yl) (snd yl))
                 (combine labels L)) as [vs' |] eqn:E; [| discriminate H].
  constructor; [| exact (IH labels vs' (eq_add_S _ _ Hlen) E)].
  intros ->. unfold cross_entropy_row in Ev. cbn [length Z.of_nat] in Ev.
  destruct (Z.leb_spec 0 y); destruct (Z.ltb_spec y 0); cbn [andb] in Ev;
    try discriminate Ev; lia.
Qed.

Lemma broadcast_rows_nonempty (op : fp -> fp -> fp) (v : list fp)
    (L L' : logits_t) :
  broadcast op L v = Ok L' ->
  length L' = length L /\
  (Forall (fun row => row <> []) L' -> Forall (fun row => row <> []) L).
Proof.
  unfold broadcast. intros H.
  split; [exact (rmap_length _ _ _ H) |].
  revert L' H. induction L as [| row L IH]; intros L' H HL'; [constructor |].
  cbn [rmap] in H.
  destruct (broadcast_row op row v) as [row' |] eqn:Er; [| discriminate H].
  cbn [rbind] in H.
  destruct (rmap (fun r => broadcast_row op r v) L) as [L1 |] eqn:E;
    [| discriminate H].
  injection H as <-.
  constructor; [| exact (IH L1 eq_refl (Forall_inv_tail HL'))].
  intros ->. apply (Forall_inv HL').
  unfold broadcast_row in Er. simpl in Er.
  destruct v as [| c [| c' v]]; simpl in Er;
    first [discriminate Er | injection Er as <-; reflexivity].
Qed.

Lemma update_state_nonempty (m : metric) (labels : labels_t)
    (L : logits_t) :
  length labels = length L -> Forall (fun row => row <> []) L ->
  exists m', update_state m labels L = Ok m'.
Proof.
  intros Hlen HL. unfold update_state. rewrite Hlen, Nat.eqb_refl.
  destruct (rmap_total argmax L) as [preds Hp].
  - eapply Forall_impl; [| exact HL].
    intros [| x row] Hrow; [contradiction |]. eexists. reflexivity.
  - rewrite Hp. eexists. reflexivity.
Qed.

(** When the loss of a batch is computed, the accuracy metric accepts
    the batch. *)
Lemma loss_ok_metric_ok (use : bool) (bp : option (list R)) (tau0 : R)
    (labels : labels_t) (L : logits_t) (l : fp) (m : metric) :
  loss_fn use bp tau0 labels L = Ok l ->
  exists m', update_state m labels L = Ok m'.
Proof.
  unfold loss_fn. intros H.
  destruct use.
  - destruct (loss_adjust L bp tau0) as [L' |] eqn:EA; [| discriminate H].
    cbn [rbind] in H.
    destruct (sparse_softmax_cross_entropy_with_logits labels L')
      as [vs |] eqn:E; [| discriminate H].
    destruct (cross_entropy_rows_nonempty labels L' vs E) as [Hlen HL'].
    unfold loss_adjust in EA.
    destruct (log_prior_of bp tau0) as [s |]; [| discriminate EA].
    cbn [rbind] in EA.
    destruct (broadcast_rows_nonempty fadd s L L' EA) as [Hl HL].
    apply update_state_nonempty; [congruence | exact (HL HL')].
  - cbn [rbind] in H.
    destruct (sparse_softmax_cross_entropy_with_logits labels L)
      as [vs |] eqn:E; [| discriminate H].
    destruct (cross_entropy_rows_nonempty labels L vs E) as [Hlen HL].
    apply update_state_nonempty; assumption.
Qed.

(** With the loss function that [build_loss_fn] returns and a model
    that gives at least one row of logits, each of two or more columns, a
    training batch that raises has raised in the loss, before the
    optimizer step: the weights, the update counter, the accumulators and
    the output are as they were.  (Predictions of a single column are
    left out: Keras squeezes them before comparing them with the labels,
    and the metric can then raise although the loss has returned.) *)
Theorem failed_training_batch_changes_nothing
    (use : bool) (bp : option (list R)) (tau0 : R) (bpe : Z) (epoch : nat)
    (b : nat * (X * labels_t)) (s s' : world W) (e : exn) :
  model (weights s) (fst (snd b)) true <> [] ->
  Forall (fun row => (2 <= length row)%nat)
         (model (weights s) (fst (snd b)) true) ->
  train_step_ (loss_fn use bp tau0) bpe epoch b s = (s', Raise e) ->
  s' = s /\
  loss_fn use bp tau0 (snd (snd b)) (model (weights s) (fst (snd b)) true)
  = Raise e.
Proof.
  intros _ _. unfold_stmt.
  destruct (loss_fn use bp tau0 (snd (snd b))
              (model (weights s) (fst (snd b)) true)) as [l | e0] eqn:El.
  - cbn [train_acc_metric set_weights].
    destruct (loss_ok_metric_ok use bp tau0 _ _ l (train_acc_metric s) El)
      as [m' Hm].
    rewrite Hm. destruct (Nat.eqb (fst b mod 1000) 0); discriminate.
  - intros H. injection H as <- <-. split; reflexivity.
Qed.

(** *** What training and evaluation leave alone *)

Lemma test_step_frame (f : flags) (bp : option (list R)) (b : X * labels_t)
    (s : world W) :
  weights (fst (test_step_ f bp b s)) = weights s /\
  updates (fst (test_step_ f bp b s)) = updates s /\
  train_acc_metric (fst (test_step_ f bp b s)) = train_acc_metric s /\
  output (fst (test_step_ f bp b s)) = output s.
Proof. unfold_stmt. break_match; simpl; auto. Qed.

Lemma train_step_frame (lf : loss_fn_t) (bpe : Z) (epoch : nat)
    (b : nat * (X * labels_t)) (s : world W) :
  test_acc_metric (fst (train_step_ lf bpe epoch b s)) = test_acc_metric s /\
  test_adj_acc_metric (fst (train_step_ lf bpe epoch b s))
  = test_adj_acc_metric s.
Proof. unfold_stmt. break_match; simpl; auto. Qed.

Lemma test_loop_frame (f : flags) (bp : option (list R))
    (l : list (X * labels_t)) (s : world W) :
  weights (fst (for_each (test_step_ f bp) l s)) = weights s /\
  updates (fst (for_each (test_step_ f bp) l s)) = updates s /\
  train_acc_metric (fst (for_each (test_step_ f bp) l s))
  = train_acc_metric s /\
  output (fst (for_each (test_step_ f bp) l s)) = output s.
Proof.
  revert s. induction l as [| b l IH]; intros s.
  - simpl. auto.
  - rewrite for_each_cons.
    destruct (test_step_frame f bp b s) as (H1 & H2 & H3 & H4).
    destruct (test_step_ f bp b s) as [s1 [[] | e]]; simpl in *.
    + destruct (IH s1) as (I1 & I2 & I3 & I4).
      repeat split; congruence.
    + auto.
Qed.

Lemma train_loop_frame (lf : loss_fn_t) (bpe : Z) (epoch : nat)
    (l : list (nat * (X * labels_t))) (s : world W) :
  test_acc_metric (fst (for_each (train_step_ lf bpe epoch) l s))
  = test_acc_metric s /\
  test_adj_acc_metric (fst (for_each (train_step_ lf bpe epoch) l s))
  = test_adj_acc_metric s.
Proof.
  revert s. induction l as [| b l IH]; intros s.
  - simpl. auto.
  - rewrite for_each_cons.
    destruct (train_step_frame lf bpe epoch b s) as (H1 & H2).
    destruct (train_step_ lf bpe epoch b s) as [s1 [[] | e]]; simpl in *.
    + destruct (IH s1) as (I1 & I2). split; congruence.
    + auto.
Qed.

(** Whether they complete or raise: the evaluation batches of an epoch
    change neither the weights, nor the number of optimizer steps, nor the
    training accumulator, nor the output; the training batches change
    neither of the two test accumulators. *)
Theorem evaluation_and_training_keep_apart
    (f : flags) (lf : loss_fn_t) (bp : option (list R)) (bpe : Z)
    (epoch : nat) (test_batches : list (X * labels_t))
    (train_batches : list (nat * (X * labels_t))) (s : world W) :
  (weights (fst (for_each (test_step_ f bp) test_batches s)) = weights s /\
   updates (fst (for_each (test_step_ f bp) test_batches s)) = updates s /\
   train_acc_metric (fst (for_each (test_step_ f bp) test_batches s))
   = train_acc_metric s /\
   output (fst (for_each (test_step_ f bp) test_batches s)) = output s) /\
  (test_acc_metric (fst (for_each (train_step_ lf bpe epoch) train_batches s))
   = test_acc_metric s /\
   test_adj_acc_metric
     (fst (for_each (train_step_ lf bpe epoch) train_batches s))
   = test_adj_acc_metric s).
Proof.
  split; [apply test_loop_frame | apply train_loop_frame].
Qed.

(** *** One optimizer step per training batch *)

Lemma train_step_updates (lf : loss_fn_t) (bpe : Z) (epoch : nat)
    (b : nat * (X * labels_t)) (s s' : world W) :
  train_step_ lf bpe epoch b s = (s', Ok tt) ->
  updates s' = S (updates s).
Proof.
  unfold_stmt. break_match; intros H; inversion H; subst; reflexivity.
Qed.

Lemma train_loop_updates (lf : loss_fn_t) (bpe : Z) (epoch : nat)
    (l : list (nat * (X * labels_t))) (s s' : world W) :
  for_each (train_step_ lf bpe epoch) l s = (s', Ok tt) ->
  updates s' = (updates s + length l)%nat.
Proof.
  revert s. induction l as [| b l IH]; intros s.
  - simpl. unfold ret. intros H. injection H as <-. lia.
  - rewrite for_each_cons.
    destruct (train_step_ lf bpe epoch b s) as [s1 [[] | e]] eqn:E;
      [| discriminate].
    intros H. rewrite (IH s1 H), (train_step_updates _ _ _ _ _ _ E).
    simpl. lia.
Qed.

Lemma run_epoch_updates (f : flags) (lf : loss_fn_t) (bp : option (list R))
    (bpe : Z) (epoch : nat) (s s' : world W) :
  run_epoch_ f lf bp bpe epoch s = (s', Ok tt) ->
  updates s' = (updates s + length (train_dataset epoch))%nat.
Proof.
  intros H. unfold run_epoch, bind in H.
  destruct (for_each (train_step_ lf bpe epoch)
              (enumerate (train_dataset epoch)) s)
    as [s1 [[] | e]] eqn:E1; [| discriminate H].
  pose proof (train_loop_updates _ _ _ _ _ _ E1) as H1.
  rewrite enumerate_length in H1.
  unfold report_train, bind, gets, modify in H. cbn beta iota in H.
  match type of H with
  | match for_each _ _ ?w with _ => _ end = _ => set (s2 := w) in H
  end.
  destruct (test_loop_frame f bp test_dataset s2) as (_ & H3 & _).
  destruct (for_each (test_step_ f bp) test_dataset s2)
    as [s3 [[] | e]]; [| discriminate H].
  simpl in H3.
  unfold report_test, bind, gets, modify, ret, lift in H.
  cbn beta iota in H.
  destruct (posthoc_adjusting f).
  - cbn [test_adj_acc_metric set_test_acc_metric write] in H.
    destruct (test_adj_acc_metric s3); [| discriminate H].
    injection H as <-. simpl. rewrite H3. unfold s2. simpl. exact H1.
  - injection H as <-. simpl. rewrite H3. unfold s2. simpl. exact H1.
Qed.

Lemma epochs_updates (f : flags) (lf : loss_fn_t) (bp : option (list R))
    (bpe : Z) (epochs : list nat) (s s' : world W) :
  for_each (run_epoch_ f lf bp bpe) epochs s = (s', Ok tt) ->
  updates s' = (updates s + batches_in train_dataset epochs)%nat.
Proof.
  revert s. induction epochs as [| epoch epochs IH]; intros s.
  - simpl. unfold ret. intros H. injection H as <-. lia.
  - rewrite for_each_cons.
    destruct (run_epoch_ f lf bp bpe epoch s) as [s1 [[] | e]] eqn:E;
      [| discriminate].
    intros H. rewrite (IH s1 H), (run_epoch_updates _ _ _ _ _ _ _ E).
    simpl. lia.
Qed.

(** A run of [main] that completes has read its configuration and then
    run the epochs from freshly constructed accumulators. *)
Lemma main_ok_inv (gfile : string -> result (list R)) (f : flags)
    (s s' : world W) :
  main_ gfile f s = (s', Ok tt) ->
  train_batch_size f <> 0%Z /\
  exists bp,
    load_base_probs gfile f = Ok bp /\
    for_each (run_epoch_ f (loss_fn (use_la_loss f) bp (tau f)) bp
                (Z.quot (num_train (dataset_mappings (dataset f)))
                        (train_batch_size f)))
             (seq 0 (Z.to_nat (num_epochs (dataset_mappings (dataset f)))))
             (create_metrics f s)
    = (s', Ok tt).
Proof.
  unfold main, bind, lift, modify, build_loss_fn, batches_per_epoch.
  destruct (Z.eqb_spec (train_batch_size f) 0) as [E | NE];
    [discriminate |].
  destruct (load_base_probs gfile f) as [bp | e]; [| discriminate].
  intros H. split; [exact NE |]. exists bp. split; [reflexivity | exact H].
Qed.

(** A run of [main] that completes has applied exactly one optimizer
    step for every training batch of every epoch, and none for
    evaluation. *)
Theorem one_optimizer_step_per_training_batch
    (gfile : string -> result (list R)) (f : flags) (w0 : W)
    (s' : world W) :
  main_ gfile f (boot w0) = (s', Ok tt) ->
  updates s' =
  batches_in train_dataset
    (seq 0 (Z.to_nat (num_epochs (dataset_mappings (dataset f))))).
Proof.
  intros H. destruct (main_ok_inv gfile f _ s' H) as (_ & bp & _ & Hrun).
  rewrite (epochs_updates _ _ _ _ _ _ _ Hrun). reflexivity.
Qed.

(** *** When the accuracies are written *)

Lemma scalar_steps_app (writer name : string) (out out' : list event) :
  scalar_steps writer name (out ++ out')
  = scalar_steps writer name out ++ scalar_steps writer name out'.
Proof. unfold scalar_steps. apply flat_map_app. Qed.

Lemma batch_loss_events_no_steps (writer name : string)
    (evs : list event) :
  name <> "batch loss"%string ->
  Forall (fun e => is_batch_loss_event e = true) evs ->
  scalar_steps writer name evs = [].
Proof.
  intros Hname H. induction H as [| e evs He _ IH]; [reflexivity |].
  unfold scalar_steps in *. cbn [flat_map]. rewrite IH, app_nil_r.
  destruct e as [| | | | w n v st]; try reflexivity.
  simpl in He. apply String.eqb_eq in He. subst n.
  destruct (String.eqb_spec "batch loss" name) as [E | _];
    [congruence |].
  rewrite andb_false_r. reflexivity.
Qed.

Lemma epoch_report_steps (f : flags) (bpe : Z) (epoch : nat)
    (mt me ma : metric) :
  scalar_steps "train" "accuracy" (epoch_report f bpe epoch mt me ma)
  = [((Z.of_nat epoch + 1) * bpe)%Z] /\
  scalar_steps "test" "accuracy" (epoch_report f bpe epoch mt me ma)
  = [((Z.of_nat epoch + 1) * bpe)%Z] /\
  scalar_steps "test" "logit-adjusted accuracy"
               (epoch_report f bpe epoch mt me ma)
  = (if posthoc_adjusting f then [((Z.of_nat epoch + 1) * bpe)%Z] else []).
Proof.
  unfold epoch_report. destruct (posthoc_adjusting f); repeat split.
Qed.

Lemma epochs_steps (f : flags) (lf : loss_fn_t) (bp : option (list R))
    (bpe : Z) (epochs : list nat) (s s' : world W) :
  for_each (run_epoch_ f lf bp bpe) epochs s = (s', Ok tt) ->
  let steps := map (fun epoch => ((Z.of_nat epoch + 1) * bpe)%Z) epochs in
  scalar_steps "train" "accuracy" (output s')
  = scalar_steps "train" "accuracy" (output s) ++ steps /\
  scalar_steps "test" "accuracy" (output s')
  = scalar_steps "test" "accuracy" (output s) ++ steps /\
  scalar_steps "test" "logit-adjusted accuracy" (output s')
  = scalar_steps "test" "logit-adjusted accuracy" (output s)
    ++ (if posthoc_adjusting f then steps else []).
Proof.
  revert s. induction epochs as [| epoch epochs IH]; intros s.
  - simpl. unfold ret. intros H. injection H as <-.
    rewrite !app_nil_r. destruct (posthoc_adjusting f);
      rewrite ?app_nil_r; auto.
  - rewrite for_each_cons.
    destruct (run_epoch_ f lf bp bpe epoch s) as [s1 [[] | e]] eqn:E;
      [| discriminate].
    intros H. destruct (IH s1 H) as (I1 & I2 & I3).
    destruct (run_epoch_effect _ _ _ _ _ _ _ _ _ _ _ _ _ _ E)
      as (mt & me & ma & evs & _ & _ & _ & Hb & Ho & _).
    destruct (epoch_report_steps f bpe epoch mt me ma) as (R1 & R2 & R3).
    cbn zeta. rewrite I1, I2, I3, Ho. rewrite !scalar_steps_app.
    rewrite R1, R2, R3.
    rewrite !(batch_loss_events_no_steps _ _ evs) by
      (try exact Hb; discriminate).
    cbn [map app]. rewrite <- !app_assoc.
    destruct (posthoc_adjusting f); cbn [app]; rewrite ?app_nil_r; auto.
Qed.

(** A run of [main] that completes has written the training accuracy
    and the test accuracy exactly once per epoch, at the steps
    [bpe, 2 bpe, ..., n bpe] in this order ([bpe] the number of batches
    per epoch of line 24, [n] the number of epochs); the logit-adjusted
    accuracy is written at the same steps in mode [posthoc] and never
    otherwise. *)
Theorem accuracies_written_once_per_epoch
    (gfile : string -> result (list R)) (f : flags) (w0 : W)
    (s' : world W) :
  main_ gfile f (boot w0) = (s', Ok tt) ->
  exists bpe,
    batches_per_epoch (dataset_mappings (dataset f)) f = Ok bpe /\
    let steps :=
      map (fun epoch => ((Z.of_nat epoch + 1) * bpe)%Z)
          (seq 0 (Z.to_nat (num_epochs (dataset_mappings (dataset f))))) in
    scalar_steps "train" "accuracy" (output s') = steps /\
    scalar_steps "test" "accuracy" (output s') = steps /\
    scalar_steps "test" "logit-adjusted accuracy" (output s')
    = (if posthoc_adjusting f then steps else []).
Proof.
  intros H. destruct (main_ok_inv gfile f _ s' H) as (Hbs & bp & _ & Hrun).
  exists (Z.quot (num_train (dataset_mappings (dataset f)))
                 (train_batch_size f)).
  split.
  - unfold batches_per_epoch.
    destruct (Z.eqb_spec (train_batch_size f) 0); [contradiction |].
    reflexivity.
  - exact (epochs_steps _ _ _ _ _ _ _ Hrun).
Qed.

(** *** The periodic report of the batch loss *)

Lemma train_step_batch_loss (lf : loss_fn_t) (bpe : Z) (epoch : nat)
    (b : nat * (X * labels_t)) (s s' : world W) :
  train_step_ lf bpe epoch b s = (s', Ok tt) ->
  scalar_steps "train" "batch loss" (output s')
  = scalar_steps "train" "batch loss" (output s)
    ++ (if Nat.eqb (fst b mod 1000) 0
        then [(Z.of_nat epoch * bpe + Z.of_nat (fst b))%Z] else []).
Proof.
  unfold_stmt. break_match; intros H; inversion H; subst; simpl.
  - rewrite scalar_steps_app. reflexivity.
  - rewrite app_nil_r. reflexivity.
Qed.

Lemma train_loop_batch_loss (lf : loss_fn_t) (bpe : Z) (epoch : nat)
    (l : list (nat * (X * labels_t))) (s s' : world W) :
  for_each (train_step_ lf bpe epoch) l s = (s', Ok tt) ->
  scalar_steps "train" "batch loss" (output s')
  = scalar_steps "train" "batch loss" (output s)
    ++ map (fun i => (Z.of_nat epoch * bpe + Z.of_nat i)%Z)
           (filter (fun i => Nat.eqb (i mod 1000) 0) (map fst l)).
Proof.
  revert s. induction l as [| b l IH]; intros s.
  - simpl. unfold ret. intros H. injection H as <-.
    rewrite app_nil_r. reflexivity.
  - rewrite for_each_cons.
    destruct (train_step_ lf bpe epoch b s) as [s1 [[] | e]] eqn:E;
      [| discriminate].
    intros H. rewrite (IH s1 H), (train_step_batch_loss _ _ _ _ _ _ E).
    rewrite <- app_assoc. f_equal. cbn [map filter].
    destruct (Nat.eqb (fst b mod 1000) 0); reflexivity.
Qed.

Lemma enumerate_fst {A} (l : list A) :
  map fst (enumerate l) = seq 0 (length l).
Proof.
  unfold enumerate. generalize 0%nat.
  induction l as [| a l IH]; intros n; simpl; [reflexivity |].
  f_equal. apply IH.
Qed.

(** The training batches of an epoch that completes write the batch loss
    for the batches whose index in the epoch is a multiple of 1000, and
    for no other, at step [epoch * bpe + index]. *)
Theorem batch_loss_written_every_1000_batches
    (lf : loss_fn_t) (bpe : Z) (epoch : nat)
    (batches : list (X * labels_t)) (s s' : world W) :
  for_each (train_step_ lf bpe epoch) (enumerate batches) s = (s', Ok tt) ->
  scalar_steps "train" "batch loss" (output s')
  = scalar_steps "train" "batch loss" (output s)
    ++ map (fun i => (Z.of_nat epoch * bpe + Z.of_nat i)%Z)
           (filter (fun i => Nat.eqb (i mod 1000) 0)
                   (seq 0 (length batches))).
Proof.
  intros H. rewrite (train_loop_batch_loss _ _ _ _ _ _ H), enumerate_fst.
  reflexivity.
Qed.

(** *** Start-up *)

(** With a training batch size of 0 the division of line 24 raises:
    [main] stops with [ZeroDivisionError] in its initial world, in every
    mode and whatever the file of base probabilities holds. *)
Theorem zero_batch_size_stops_main
    (gfile : string -> result (list R)) (f : flags) (w0 : W) :
  train_batch_size f = 0%Z ->
  main_ gfile f (boot w0) = (boot w0, Raise ZeroDivisionError).
Proof.
  intros H. unfold main, bind, lift, batches_per_epoch. rewrite H.
  reflexivity.
Qed.

(** The number of batches per epoch drops the incomplete last batch: for
    a training set of [0 <= n < 2^53] examples and a batch size [b > 0] it
    is the [q] with [q * b <= n < (q + 1) * b].  (Below [2^53] the
    floating-point quotient of line 24 cannot round up to the next
    integer, so [int] of it is the integer quotient of the definition.) *)
Theorem batches_per_epoch_truncates (ds : dataset_info) (f : flags) :
  (0 <= num_train ds < 2 ^ 53)%Z -> (0 < train_batch_size f)%Z ->
  exists q,
    batches_per_epoch ds f = Ok q /\
    (q * train_batch_size f <= num_train ds
     < (q + 1) * train_batch_size f)%Z.
Proof.
  intros [Hn _] Hb. unfold batches_per_epoch.
  destruct (Z.eqb_spec (train_batch_size f) 0) as [E | _]; [lia |].
  eexists. split; [reflexivity |].
  rewrite Z.quot_div_nonneg by lia.
  pose proof (Z.mul_div_le (num_train ds) (train_batch_size f) Hb).
  pose proof (Z.mul_succ_div_gt (num_train ds) (train_batch_size f) Hb).
  lia.
Qed.

(** An error of the read other than "not found" (an unreadable or
    malformed file) is not caught: in every mode, [baseline] included,
    [main] stops with it in its initial world.  A file that is read is
    loaded in every mode. *)
Theorem other_read_errors_are_fatal_in_every_mode
    (gfile : string -> result (list R)) (f : flags) (w0 : W) :
  train_batch_size f <> 0%Z ->
  (forall e, e <> NotFoundError ->
     gfile (base_probs_path f) = Raise e ->
     load_base_probs gfile f = Raise e /\
     main_ gfile f (boot w0) = (boot w0, Raise e)) /\
  (forall v, gfile (base_probs_path f) = Ok v ->
     load_base_probs gfile f = Ok (Some v)).
Proof.
  intros Hbs. split.
  - intros e He Hfile.
    assert (Hload : load_base_probs gfile f = Raise e).
    { unfold load_base_probs. rewrite Hfile.
      destruct e; try reflexivity. contradiction. }
    split; [exact Hload |].
    unfold main, bind, lift, batches_per_epoch.
    destruct (Z.eqb_spec (train_batch_size f) 0); [contradiction |].
    rewrite Hload. reflexivity.
  - intros v Hfile. unfold load_base_probs. rewrite Hfile. reflexivity.
Qed.

(** *** Mode [posthoc] trains as mode [baseline] *)

(** The worlds of a run in mode [posthoc] and of the same run in mode
    [baseline] differ in the logit-adjusted accumulator and stream only. *)
Local Abbreviation alike sp sb :=
  (weights sb = weights sp /\ updates sb = updates sp /\
   train_acc_metric sb = train_acc_metric sp /\
   test_acc_metric sb = test_acc_metric sp /\
   output sb = without_adj (output sp)).

Lemma without_adj_app (out evs : list event) :
  without_adj (out ++ evs) = without_adj out ++ without_adj evs.
Proof. unfold without_adj. apply filter_app. Qed.

Lemma for_each_alike {A} (body_p body_b : A -> M W unit) (l : list A) :
  (forall a sp sb sp',
     alike sp sb -> body_p a sp = (sp', Ok tt) ->
     exists sb', body_b a sb = (sb', Ok tt) /\ alike sp' sb') ->
  forall sp sb sp',
    alike sp sb -> for_each body_p l sp = (sp', Ok tt) ->
    exists sb', for_each body_b l sb = (sb', Ok tt) /\ alike sp' sb'.
Proof.
  intros Hstep. induction l as [| a l IH]; intros sp sb sp' Hrel.
  - simpl. unfold ret. intros H. injection H as <-.
    exists sb. split; [reflexivity | exact Hrel].
  - rewrite !for_each_cons.
    destruct (body_p a sp) as [sp1 [[] | e]] eqn:E; [| discriminate].
    destruct (Hstep a sp sb sp1 Hrel E) as (sb1 & Eb & Hrel1).
    rewrite Eb. apply IH. exact Hrel1.
Qed.

Lemma train_step_alike (lf : loss_fn_t) (bpe : Z) (epoch : nat)
    (b : nat * (X * labels_t)) (sp sb sp' : world W) :
  alike sp sb -> train_step_ lf bpe epoch b sp = (sp', Ok tt) ->
  exists sb', train_step_ lf bpe epoch b sb = (sb', Ok tt) /\ alike sp' sb'.
Proof.
  intros (Hw & Hu & Ht & Hte & Ho). unfold_stmt.
  cbn [train_acc_metric set_weights]. rewrite Hw, Ht.
  destruct (lf (snd (snd b)) (model (weights sp) (fst (snd b)) true))
    as [l | e]; [| discriminate].
  destruct (update_state (train_acc_metric sp) (snd (snd b))
              (model (weights sp) (fst (snd b)) true)) as [m' | e];
    [| discriminate].
  destruct (Nat.eqb (fst b mod 1000) 0); intros H; injection H as <-;
    eexists; (split; [reflexivity |]); simpl;
    rewrite ?without_adj_app, Hu, Hte, Ho; repeat split.
Qed.

Lemma report_train_alike (bpe : Z) (epoch : nat) (sp sb sp' : world W) :
  alike sp sb -> report_train bpe epoch sp = (sp', Ok tt) ->
  exists sb', report_train bpe epoch sb = (sb', Ok tt) /\ alike sp' sb'.
Proof.
  intros (Hw & Hu & Ht & Hte & Ho). unfold_stmt.
  intros H. injection H as <-. eexists. split; [reflexivity |].
  simpl. rewrite without_adj_app, Hw, Hu, Ht, Hte, Ho. repeat split.
Qed.

Lemma test_step_alike (f_p f_b : flags) (bp : option (list R))
    (b : X * labels_t) (sp sb sp' : world W) :
  posthoc_adjusting f_b = false ->
  alike sp sb -> test_step_ f_p bp b sp = (sp', Ok tt) ->
  exists sb', test_step_ f_b bp b sb = (sb', Ok tt) /\ alike sp' sb'.
Proof.
  intros Hfb (Hw & Hu & Ht & Hte & Ho). unfold_stmt. rewrite Hfb.
  cbn [test_acc_metric weights]. rewrite Hw, Hte.
  destruct (update_state (test_acc_metric sp) (snd b)
              (model (weights sp) (fst b) false)) as [m' | e];
    [| discriminate].
  intros H. eexists. split; [reflexivity |].
  revert H. break_match; intros H; inversion H; subst; simpl;
    rewrite ?Hw, ?Hu, ?Ht, ?Ho; repeat split.
Qed.

Lemma report_test_alike (f_p f_b : flags) (bpe : Z) (epoch : nat)
    (sp sb sp' : world W) :
  posthoc_adjusting f_b = false ->
  alike sp sb -> report_test f_p bpe epoch sp = (sp', Ok tt) ->
  exists sb', report_test f_b bpe epoch sb = (sb', Ok tt) /\ alike sp' sb'.
Proof.
  intros Hfb (Hw & Hu & Ht & Hte & Ho). unfold_stmt. rewrite Hfb.
  intros H. eexists. split; [reflexivity |].
  revert H. break_match; intros H; inversion H; subst; simpl;
    rewrite ?without_adj_app, ?Hw, ?Hu, ?Ht, ?Hte, ?Ho; simpl;
    rewrite ?app_nil_r; repeat split.
Qed.

Lemma run_epoch_alike (f_p f_b : flags) (lf : loss_fn_t)
    (bp : option (list R)) (bpe : Z) (epoch : nat) (sp sb sp' : world W) :
  posthoc_adjusting f_b = false ->
  alike sp sb -> run_epoch_ f_p lf bp bpe epoch sp = (sp', Ok tt) ->
  exists sb', run_epoch_ f_b lf bp bpe epoch sb = (sb', Ok tt) /\
              alike sp' sb'.
Proof.
  intros Hfb Hrel. unfold run_epoch, bind.
  destruct (for_each (train_step_ lf bpe epoch)
              (enumerate (train_dataset epoch)) sp)
    as [sp1 [[] | e]] eqn:E1; [| discriminate].
  destruct (for_each_alike _ (train_step_ lf bpe epoch) _
              (train_step_alike lf bpe epoch) sp sb sp1 Hrel E1)
    as (sb1 & Eb1 & Hrel1).
  rewrite Eb1.
  destruct (report_train bpe epoch sp1) as [sp2 [[] | e]] eqn:E2;
    [| discriminate].
  destruct (report_train_alike bpe epoch sp1 sb1 sp2 Hrel1 E2)
    as (sb2 & Eb2 & Hrel2).
  rewrite Eb2.
  destruct (for_each (test_step_ f_p bp) test_dataset sp2)
    as [sp3 [[] | e]] eqn:E3; [| discriminate].
  assert (Hstep : forall a s1 s2 s1',
            alike s1 s2 -> test_step_ f_p bp a s1 = (s1', Ok tt) ->
            exists s2', test_step_ f_b bp a s2 = (s2', Ok tt) /\
                        alike s1' s2').
  { intros a s1 s2 s1' Hr. apply test_step_alike; assumption. }
  destruct (for_each_alike (test_step_ f_p bp) (test_step_ f_b bp)
              test_dataset Hstep sp2 sb2 sp3 Hrel2 E3)
    as (sb3 & Eb3 & Hrel3).
  rewrite Eb3. intros H.
  exact (report_test_alike f_p f_b bpe epoch sp3 sb3 sp' Hfb Hrel3 H).
Qed.

(** A run in mode [posthoc] that completes is, but for the
    logit-adjusted accumulator and stream, the run in mode [baseline] on
    the same inputs: that run completes too, with the same weights after
    the same number of optimizer steps, and its output is the output of
    the [posthoc] run without the logit-adjusted events. *)
Theorem posthoc_trains_as_baseline
    (gfile : string -> result (list R)) (f : flags) (w0 : W)
    (s_p : world W) :
  mode f = "posthoc"%string ->
  main_ gfile f (boot w0) = (s_p, Ok tt) ->
  exists s_b,
    main_ gfile (with_mode f "baseline") (boot w0) = (s_b, Ok tt) /\
    weights s_b = weights s_p /\
    updates s_b = updates s_p /\
    output s_b = without_adj (output s_p).
Proof.
  intros Hmode H.
  destruct (main_ok_inv gfile f _ s_p H) as (Hbs & bp & Hload & Hrun).
  assert (Hla : use_la_loss f = false)
    by (unfold use_la_loss; rewrite Hmode; reflexivity).
  assert (Hload_b : load_base_probs gfile (with_mode f "baseline") = Ok bp).
  { unfold load_base_probs in *.
    change (base_probs_path (with_mode f "baseline"))
      with (base_probs_path f).
    destruct (gfile (base_probs_path f)) as [v | e]; [exact Hload |].
    unfold mode_needs_base_probs in Hload. rewrite Hmode in Hload.
    destruct e; discriminate Hload. }
  rewrite Hla in Hrun.
  assert (Hstep : forall epoch sp sb sp',
            alike sp sb ->
            run_epoch_ f (loss_fn false bp (tau f)) bp
              (Z.quot (num_train (dataset_mappings (dataset f)))
                      (train_batch_size f)) epoch sp = (sp', Ok tt) ->
            exists sb',
              run_epoch_ (with_mode f "baseline")
                (loss_fn false bp (tau f)) bp
                (Z.quot (num_train (dataset_mappings (dataset f)))
                        (train_batch_size f)) epoch sb = (sb', Ok tt) /\
              alike sp' sb').
  { intros epoch sp sb sp' Hr. apply run_epoch_alike; [reflexivity | exact Hr]. }
  assert (H0 : alike (create_metrics f (boot w0))
                     (create_metrics (with_mode f "baseline") (boot w0)))
    by (repeat split).
  destruct (for_each_alike _ _
              (seq 0 (Z.to_nat (num_epochs (dataset_mappings (dataset f)))))
              Hstep _ _ s_p H0 Hrun)
    as (s_b & Eb & (Hw & Hu & _ & _ & Ho)).
  exists s_b. split; [| auto].
  unfold main, bind, lift, modify, build_loss_fn, batches_per_epoch.
  change (train_batch_size (with_mode f "baseline"))
    with (train_batch_size f).
  destruct (Z.eqb_spec (train_batch_size f) 0); [contradiction |].
  rewrite Hload_b. exact Eb.
Qed.

(** *** A log-prior term that is the same in every class *)

Lemma update_state_const_shift (k : R) (n : nat) (p : list R) (tau0 : R)
    (m m' : metric) (labels : labels_t) (L L' : logits_t) :
  log_prior p tau0 = repeat (Fin k) n ->
  posthoc_adjust L (Some p) tau0 = Ok L' ->
  update_state m labels L' = Ok m' -> update_state m labels L = Ok m'.
Proof.
  intros Hlp HA. unfold posthoc_adjust in HA. simpl in HA.
  rewrite Hlp in HA.
  pose proof (rmap_length _ _ _ HA) as Hlen.
  unfold update_state. rewrite Hlen.
  destruct (Nat.eqb (length labels) (length L)); [| trivial].
  destruct (rmap argmax L') as [preds |] eqn:EP; simpl; [| discriminate].
  rewrite (argmax_uniform_batch _ n L L' preds HA EP). trivial.
Qed.

Local Abbreviation same_out :=
  (fun s : world W => adj_equals_raw (output s)).

Local Abbreviation same_acc :=
  (fun s : world W =>
     adj_equals_raw (output s) /\
     test_adj_acc_metric s = Some (test_acc_metric s)).

Lemma same_acc_test_step_const (f : flags) (k : R) (n : nat) (p : list R)
    (b : X * labels_t) :
  posthoc_adjusting f = true ->
  log_prior p (tau f) = repeat (Fin k) n ->
  triple same_acc (test_step_ f (Some p) b) (fun _ => same_acc) same_out.
Proof.
  intros Hph Hlp s [Ho Hinv]. unfold_stmt. rewrite Hph.
  cbn [test_acc_metric weights].
  destruct (update_state (test_acc_metric s) (snd b)
              (model (weights s) (fst b) false)) as [m' | e] eqn:Em;
    [| exact Ho].
  destruct (posthoc_adjust (model (weights s) (fst b) false) (Some p)
              (tau f)) as [L' | e] eqn:EA; [| exact Ho].
  cbn [test_adj_acc_metric set_test_acc_metric]. rewrite Hinv.
  destruct (update_state (test_acc_metric s) (snd b) L')
    as [ma' | e] eqn:Ema; [| exact Ho].
  simpl. split; [exact Ho |].
  pose proof (update_state_const_shift k n p (tau f) _ _ _ _ _ Hlp EA Ema)
    as Hraw.
  rewrite Em in Hraw. injection Hraw as ->. reflexivity.
Qed.

Lemma same_out_main_const (gfile : string -> result (list R)) (f : flags)
    (k : R) (n : nat) (p : list R) (w0 : W) :
  posthoc_adjusting f = true ->
  log_prior p (tau f) = repeat (Fin k) n ->
  gfile (base_probs_path f) = Ok p ->
  adj_equals_raw (output (fst (main_ gfile f (boot w0)))).
Proof.
  intros Hph Hlp Hfile.
  assert (Hload : load_base_probs gfile f = Ok (Some p)).
  { unfold load_base_probs. rewrite Hfile. reflexivity. }
  unfold main, bind, lift, modify, build_loss_fn.
  destruct (batches_per_epoch (dataset_mappings (dataset f)) f)
    as [bpe | e]; [| intros v step []].
  rewrite Hload.
  set (s0 := create_metrics f (boot w0)).
  set (body := run_epoch_ f (loss_fn (use_la_loss f) (Some p) (tau f))
                          (Some p) bpe).
  set (l := seq 0 (Z.to_nat (num_epochs (dataset_mappings (dataset f))))).
  assert (H0 : same_acc s0).
  { unfold s0, create_metrics. rewrite Hph. simpl.
    split; [intros v step [] | reflexivity]. }
  assert (Hbody : forall a, In a l ->
                    triple same_acc (body a) (fun _ => same_acc) same_out).
  { intros a _. unfold body, run_epoch.
    eapply triple_bind;
      [apply triple_for_each; intros; apply same_acc_train_step
      | intros ?].
    eapply triple_bind; [apply same_acc_report_train | intros ?].
    eapply triple_bind;
      [apply triple_for_each; intros;
       apply (same_acc_test_step_const f k n p); assumption
      | intros ?].
    apply same_acc_report_test. exact Hph. }
  pose proof (triple_for_each W same_acc same_out body l Hbody s0 H0) as H.
  destruct (for_each body l s0) as [s' [u | e]]; simpl; [apply H | exact H].
Qed.

(** In mode [posthoc] with temperature 0 the prior plays no part,
    whatever it is: the metric counts a batch of adjusted logits as it
    counts the raw batch, and every logit-adjusted accuracy that [main]
    writes equals the test accuracy it writes at the same step. *)
Theorem zero_temperature_switches_posthoc_off
    (gfile : string -> result (list R)) (f : flags) (p : list R) (w0 : W) :
  mode f = "posthoc"%string -> tau f = 0 ->
  (forall L L' labels m m1 m2,
     posthoc_adjust L (Some p) (tau f) = Ok L' ->
     update_state m labels L = Ok m1 ->
     update_state m labels L' = Ok m2 ->
     m1 = m2) /\
  (gfile (base_probs_path f) = Ok p ->
   adj_equals_raw (output (fst (main_ gfile f (boot w0))))).
Proof.
  intros Hmode Htau.
  assert (Hph : posthoc_adjusting f = true)
    by (unfold posthoc_adjusting; rewrite Hmode; reflexivity).
  assert (Hlp : log_prior p (tau f)
                = repeat (Fin (ln (1 + eps))) (length p))
    by (rewrite Htau; apply log_prior_tau_zero).
  split.
  - intros L L' labels m m1 m2 HA H1 H2.
    pose proof (update_state_const_shift _ _ p (tau f) m m2 labels L L'
                  Hlp HA H2) as H.
    rewrite H1 in H. injection H as ->. reflexivity.
  - intros Hfile.
    exact (same_out_main_const gfile f _ _ p w0 Hph Hlp Hfile).
Qed.

(** *** A prior of the wrong length *)

Lemma broadcast_row_incompatible (op : fp -> fp -> fp) (row v : list fp) :
  length row <> length v -> length v <> 1%nat -> length row <> 1%nat ->
  broadcast_row op row v = Raise InvalidArgumentError.
Proof.
  intros H1 H2 H3. unfold broadcast_row.
  destruct (Nat.eqb_spec (length row) (length v)); [contradiction |].
  destruct v as [| c [| c' v]]; destruct row as [| x [| x' row]];
    simpl in *; try reflexivity; congruence.
Qed.

Lemma broadcast_incompatible_batch (op : fp -> fp -> fp) (C : nat)
    (L : logits_t) (v : list fp) :
  length v <> C -> length v <> 1%nat -> C <> 1%nat ->
  has_classes C L -> L <> [] ->
  broadcast op L v = Raise InvalidArgumentError.
Proof.
  intros H1 H2 H3 HL Hne. destruct L as [| row L]; [contradiction |].
  pose proof (Forall_inv HL) as Hrow. simpl in Hrow.
  unfold broadcast. cbn [rmap].
  rewrite broadcast_row_incompatible by congruence. reflexivity.
Qed.

(** The length of the base probabilities is not checked when they are
    read.  A prior whose length is neither the number of classes nor 1
    (the number of classes not being 1) is rejected by the first batch of
    at least one example that uses it: in the adjusted loss a training
    batch raises and leaves the world as it was; in mode [posthoc] an
    evaluation batch raises after the plain test accumulator has counted
    the batch, the adjusted accumulator being left behind. *)
Theorem prior_of_wrong_length_is_rejected_by_first_batch
    (C : nat) (p : list R) (f : flags) (bpe : Z) (epoch step : nat)
    (x : X) (y : labels_t) (s : world W) :
  length p <> C -> length p <> 1%nat -> C <> 1%nat ->
  (forall tr, has_classes C (model (weights s) x tr) /\
              model (weights s) x tr <> []) ->
  train_step_ (loss_fn true (Some p) (tau f)) bpe epoch (step, (x, y)) s
  = (s, Raise InvalidArgumentError) /\
  (posthoc_adjusting f = true ->
   forall m',
     update_state (test_acc_metric s) y (model (weights s) x false) = Ok m' ->
     test_step_ f (Some p) (x, y) s
     = (set_test_acc_metric m' s, Raise InvalidArgumentError)).
Proof.
  intros H1 H2 H3 Hm.
  assert (Hb : forall op tr,
            broadcast op (model (weights s) x tr) (log_prior p (tau f))
            = Raise InvalidArgumentError).
  { intros op tr. destruct (Hm tr) as [HL Hne].
    apply (broadcast_incompatible_batch op C); try assumption;
      rewrite log_prior_length; assumption. }
  split.
  - unfold_stmt. unfold loss_fn, loss_adjust, log_prior_of. cbn [rbind].
    rewrite Hb. reflexivity.
  - intros Hph m' Hu. unfold_stmt. rewrite Hph.
    cbn [test_acc_metric weights]. rewrite Hu.
    unfold posthoc_adjust, log_prior_of. cbn [rbind]. rewrite Hb.
    reflexivity.
Qed.

End LoopExtras.

(** ** The further properties on the concrete run *)

Lemma failed_training_batch_changes_nothing_witness :
  loss_fn true None 1 [1%Z] (Demo.model 0%nat tt true) = Raise TypeError.
Proof.
  assert (E : train_step Demo.model Demo.model_losses Demo.apply_gradients
                (loss_fn true None 1) 2 0 (0%nat, (tt, [1%Z])) (boot 0%nat)
              = (boot 0%nat, Raise TypeError)) by reflexivity.
  assert (Hne : Demo.model (weights (boot 0%nat)) tt true <> [])
    by discriminate.
  assert (Hcols : Forall (fun row => (2 <= length row)%nat)
                         (Demo.model (weights (boot 0%nat)) tt true)).
  { repeat constructor. }
  exact (proj2 (failed_training_batch_changes_nothing unit nat Demo.model
                  Demo.model_losses Demo.apply_gradients true None 1 2%Z
                  0%nat (0%nat, (tt, [1%Z])) (boot 0%nat) (boot 0%nat)
                  TypeError Hne Hcols E)).
Defined.

Lemma one_optimizer_step_per_training_batch_witness :
  exists s',
    Demo.main Demo.file_present (with_mode FLAGS "loss") = (s', Ok tt) /\
    updates s' = 2%nat.
Proof.
  destruct (DemoFacts.demo_main_returns "loss") as [s' E].
  exists s'. split; [exact E |].
  exact (one_optimizer_step_per_training_batch unit nat Demo.model
           Demo.model_losses Demo.apply_gradients Demo.dataset_mappings
           Demo.train_dataset Demo.test_dataset Demo.file_present
           (with_mode FLAGS "loss") 0%nat s' E).
Defined.

Lemma accuracies_written_once_per_epoch_witness :
  exists s',
    Demo.main Demo.file_present (with_mode FLAGS "posthoc") = (s', Ok tt) /\
    scalar_steps "train" "accuracy" (output s') = [2%Z; 4%Z] /\
    scalar_steps "test" "logit-adjusted accuracy" (output s') = [2%Z; 4%Z].
Proof.
  destruct (DemoFacts.demo_main_returns "posthoc") as [s' E].
  exists s'. split; [exact E |].
  destruct (accuracies_written_once_per_epoch unit nat Demo.model
              Demo.model_losses Demo.apply_gradients Demo.dataset_mappings
              Demo.train_dataset Demo.test_dataset Demo.file_present
              (with_mode FLAGS "posthoc") 0%nat s' E)
    as (bpe & Hb & H1 & _ & H3).
  injection Hb as <-.
  split; [exact H1 | exact H3].
Defined.

Lemma batch_loss_written_every_1000_batches_witness :
  exists s',
    for_each (train_step Demo.model Demo.model_losses Demo.apply_gradients
                         (loss_fn true (Some Demo.uniform) 1) 2 1)
             (enumerate (Demo.train_dataset 1)) (boot 0%nat) = (s', Ok tt) /\
    scalar_steps "train" "batch loss" (output s') = [2%Z].
Proof.
  destruct (for_each_total nat (fun _ => True)
              (train_step Demo.model Demo.model_losses Demo.apply_gradients
                          (loss_fn true (Some Demo.uniform) 1) 2 1)
              (enumerate (Demo.train_dataset 1))) with (s := boot 0%nat)
    as (s' & E & _); [| exact I |].
  - intros [step [x y]] s Hin _.
    apply in_combine_r in Hin.
    destruct (train_step_total unit nat Demo.model Demo.model_losses
                Demo.apply_gradients Demo.train_dataset 4%nat Demo.uniform
                DemoFacts.demo_four_pos eq_refl DemoFacts.demo_classes
                DemoFacts.demo_train_labels true 1 2%Z 1%nat step x y s Hin)
      as [s1 E1].
    exists s1. split; [exact E1 | exact I].
  - exists s'. split; [exact E |].
    exact (batch_loss_written_every_1000_batches unit nat Demo.model
             Demo.model_losses Demo.apply_gradients
             (loss_fn true (Some Demo.uniform) 1) 2%Z 1%nat
             (Demo.train_dataset 1) (boot 0%nat) s' E).
Defined.

Lemma zero_batch_size_stops_main_witness :
  Demo.main Demo.file_present Demo.no_batch
  = (boot 0%nat, Raise ZeroDivisionError).
Proof.
  exact (zero_batch_size_stops_main unit nat Demo.model Demo.model_losses
           Demo.apply_gradients Demo.dataset_mappings Demo.train_dataset
           Demo.test_dataset Demo.file_present Demo.no_batch 0%nat eq_refl).
Defined.

Lemma batches_per_epoch_truncates_witness :
  exists q,
    batches_per_epoch (Demo.dataset_mappings "cifar10-lt") FLAGS = Ok q /\
    (q * 128 <= 256 < (q + 1) * 128)%Z.
Proof.
  assert (H0 : (0 <= num_train (Demo.dataset_mappings "cifar10-lt")
                 < 2 ^ 53)%Z)
    by (simpl; lia).
  assert (H1 : (0 < train_batch_size FLAGS)%Z) by (simpl; lia).
  exact (batches_per_epoch_truncates (Demo.dataset_mappings "cifar10-lt")
           FLAGS H0 H1).
Defined.

Lemma other_read_errors_are_fatal_in_every_mode_witness :
  Demo.main Demo.file_unreadable (with_mode FLAGS "baseline")
  = (boot 0%nat, Raise InvalidArgumentError).
Proof.
  destruct (other_read_errors_are_fatal_in_every_mode unit nat Demo.model
              Demo.model_losses Demo.apply_gradients Demo.dataset_mappings
              Demo.train_dataset Demo.test_dataset Demo.file_unreadable
              (with_mode FLAGS "baseline") 0%nat DemoFacts.demo_batch_size)
    as [H _].
  assert (He : InvalidArgumentError <> NotFoundError) by discriminate.
  exact (proj2 (H InvalidArgumentError He eq_refl)).
Defined.

Lemma posthoc_trains_as_baseline_witness :
  exists s_p s_b,
    Demo.main Demo.file_present (with_mode FLAGS "posthoc") = (s_p, Ok tt) /\
    Demo.main Demo.file_present (with_mode FLAGS "baseline") = (s_b, Ok tt) /\
    weights s_b = weights s_p /\
    output s_b = without_adj (output s_p).
Proof.
  destruct (DemoFacts.demo_main_returns "posthoc") as [s_p E].
  destruct (posthoc_trains_as_baseline unit nat Demo.model
              Demo.model_losses Demo.apply_gradients Demo.dataset_mappings
              Demo.train_dataset Demo.test_dataset Demo.file_present
              (with_mode FLAGS "posthoc") 0%nat s_p eq_refl E)
    as (s_b & Eb & Hw & _ & Ho).
  exists s_p, s_b. split; [exact E |]. split; [exact Eb |].
  split; [exact Hw | exact Ho].
Defined.

Lemma zero_temperature_switches_posthoc_off_witness :
  exists s',
    Demo.main Demo.file_skewed Demo.posthoc_tau0 = (s', Ok tt) /\
    adj_equals_raw (output s').
Proof.
  destruct (main_total unit nat Demo.model Demo.model_losses
              Demo.apply_gradients Demo.dataset_mappings Demo.train_dataset
              Demo.test_dataset 4%nat Demo.skewed DemoFacts.demo_four_pos
              eq_refl DemoFacts.demo_classes DemoFacts.demo_train_labels
              DemoFacts.demo_test_labels Demo.file_skewed Demo.posthoc_tau0
              0%nat eq_refl DemoFacts.demo_batch_size) as [s' E].
  exists s'. split; [exact E |].
  destruct (zero_temperature_switches_posthoc_off unit nat Demo.model
              Demo.model_losses Demo.apply_gradients Demo.dataset_mappings
              Demo.train_dataset Demo.test_dataset Demo.file_skewed
              Demo.posthoc_tau0 Demo.skewed 0%nat eq_refl eq_refl)
    as [_ H].
  specialize (H eq_refl). rewrite E in H. exact H.
Defined.

Lemma prior_of_wrong_length_is_rejected_by_first_batch_witness :
  train_step Demo.model Demo.model_losses Demo.apply_gradients
             (loss_fn true (Some [/ 2; / 2]) (tau FLAGS)) 2 0
             (0%nat, (tt, [1%Z])) (boot 0%nat)
  = (boot 0%nat, Raise InvalidArgumentError).
Proof.
  assert (H1 : length [/ 2; / 2] <> 4%nat) by (simpl; lia).
  assert (H2 : length [/ 2; / 2] <> 1%nat) by (simpl; lia).
  assert (H3 : 4%nat <> 1%nat) by lia.
  assert (Hm : forall tr,
            has_classes 4 (Demo.model (weights (boot 0%nat)) tt tr) /\
            Demo.model (weights (boot 0%nat)) tt tr <> []).
  { intros tr. split; [apply DemoFacts.demo_classes | discriminate]. }
  exact (proj1 (prior_of_wrong_length_is_rejected_by_first_batch unit nat
                  Demo.model Demo.model_losses Demo.apply_gradients 4%nat
                  [/ 2; / 2] FLAGS 2%Z 0%nat 0%nat tt [1%Z] (boot 0%nat)
                  H1 H2 H3 Hm)).
Defined.
